(** * sqlpage-includer: the include resolver and the mirroring pipeline

    A shallow embedding of [src/index.js] and the properties of its
    include resolution, output reset and output-root skip, followed by
    further properties of the resolver, the mirror (walk and watcher) and
    the command line.

    JavaScript strings are sequences of UTF-16 code units; a file on disk is
    represented by the text [readFileSync(..., 'utf-8')] decodes it to.  The
    Node.js library functions the program calls ([path.*], [fs.*], the two
    regular expressions) are modelled in the first half of the file; the
    functions of [index.js] follow, under their own names. *)

From Stdlib Require Import ZArith NArith Lia String Ascii.
From stdpp Require Import base option list gmap.

Open Scope N_scope.
Open Scope list_scope.

(** ** JavaScript strings *)

(** A string is the list of its UTF-16 code units. *)
Definition jsstring : Type := list N.

(** String literals of the source, written as Rocq strings. *)
Fixpoint js (s : string) : jsstring :=
  match s with
  | EmptyString => []
  | String a s' => N_of_ascii a :: js s'
  end.

Definition LF : N := 10.
Definition CR : N := 13.
Definition SLASH : N := 47.
Definition DOT : N := 46.
Definition LT : N := 60.
Definition GT : N := 62.

(** [String.prototype.startsWith]. *)
Fixpoint startsWith (s p : jsstring) {struct p} : bool :=
  match p, s with
  | [], _ => true
  | c :: p', d :: s' => if N.eqb c d then startsWith s' p' else false
  | _ :: _, [] => false
  end.

(** ** Regular expressions

    The fragment of the regular-expression language the two patterns of the
    program use, with the backtracking semantics of ECMAScript: greedy
    quantifiers, leftmost match, one capturing group. *)

Inductive regex : Type :=
| Chars (s : jsstring)          (* a run of literal characters *)
| Opt (r : regex)               (* r?  *)
| Plus (p : N → bool)           (* c+  for a character class c *)
| Group (r : regex)             (* ( r ), the group numbered 1 *)
| Seq (r1 r2 : regex).

(** [\s]: WhiteSpace and LineTerminator code points. *)
Definition is_space (c : N) : bool :=
  (c =? 9) || (c =? 10) || (c =? 11) || (c =? 12) || (c =? 13) || (c =? 32)
  || (c =? 160) || (c =? 5760) || ((8192 <=? c) && (c <=? 8202))
  || (c =? 8232) || (c =? 8233) || (c =? 8239) || (c =? 8287)
  || (c =? 12288) || (c =? 65279).

(** [.] (without the [s] flag): anything but a LineTerminator. *)
Definition is_dot (c : N) : bool :=
  negb ((c =? 10) || (c =? 13) || (c =? 8232) || (c =? 8233)).

Section Matcher.
Context {R : Type}.

(** Greedy [c+]: take as many characters as possible, then give them back
    one at a time until the continuation accepts. *)
Fixpoint plus_greedy (p : N → bool) (s : jsstring)
    (k : jsstring → option R) : option R :=
  match s with
  | c :: s' =>
      if p c then
        match plus_greedy p s' k with
        | Some x => Some x
        | None => k s'
        end
      else None
  | [] => None
  end.

(** [run r s cap k]: match [r] at the head of [s]; [cap] is the text
    captured so far, [k] receives what is left of the input. *)
Fixpoint run (r : regex) (s : jsstring) (cap : option jsstring)
    (k : jsstring → option jsstring → option R) : option R :=
  match r with
  | Chars l =>
      if startsWith s l then k (drop (length l) s) cap else None
  | Opt r1 =>
      match run r1 s cap k with
      | Some x => Some x
      | None => k s cap
      end
  | Plus p => plus_greedy p s (λ s', k s' cap)
  | Group r1 =>
      run r1 s cap
        (λ s' _, k s' (Some (take (length s - length s')%nat s)))
  | Seq r1 r2 =>
      run r1 s cap (λ s' cap', run r2 s' cap' k)
  end.
End Matcher.

(** A match anchored at the head of [s]: what is left of the input, and the
    capture. *)
Definition match_here (r : regex) (s : jsstring)
    : option (jsstring * option jsstring) :=
  run r s None (λ s' cap, Some (s', cap)).

(** The match array of a successful [String.prototype.match] with a
    non-global pattern: [m[0]] and [m[1]]. *)
Record match_array : Type := MatchArray {
  match_0 : jsstring;
  match_1 : option jsstring
}.

(** [String.prototype.match] with a non-global pattern: the leftmost
    position at which the pattern matches. *)
Fixpoint String_match (s : jsstring) (r : regex) : option match_array :=
  match match_here r s with
  | Some (rest, cap) =>
      Some (MatchArray (take (length s - length rest)%nat s) cap)
  | None =>
      match s with
      | [] => None
      | _ :: s' => String_match s' r
      end
  end.

(** [String.prototype.split] with a pattern that has no capturing group.
    [piece] is the current piece, reversed; [skip] counts the characters of
    a separator still to be passed over. *)
Fixpoint split_from (r : regex) (piece : jsstring) (skip : nat)
    (s : jsstring) : list jsstring :=
  match s with
  | [] => [rev piece]
  | c :: s' =>
      match skip with
      | S n => split_from r piece n s'
      | O =>
          match match_here r s with
          | Some (rest, _) =>
              match (length s - length rest)%nat with
              | S n => rev piece :: split_from r [] n s'
              | O =>
                  match piece with
                  | [] => split_from r [c] 0 s'
                  | _ :: _ => rev piece :: split_from r [c] 0 s'
                  end
              end
          | None => split_from r (c :: piece) 0 s'
          end
      end
  end.

Definition String_split (s : jsstring) (r : regex) : list jsstring :=
  match s with
  | [] => match match_here r [] with Some _ => [] | None => [[]] end
  | _ :: _ => split_from r [] 0 s
  end.

(** [/\r?\n/] *)
Definition re_newline : regex :=
  Seq (Opt (Chars [CR])) (Chars [LF]).

(** [/##include\s+<(.+)>/] *)
Definition re_include : regex :=
  Seq (Chars (js "##include"))
    (Seq (Plus is_space)
       (Seq (Chars (js "<"))
          (Seq (Group (Plus is_dot)) (Chars (js ">"))))).

(** ** The [path] module (POSIX)

    Node's [path] functions, on the segments of a path.  [cwd] is the
    working directory of the process, an absolute path. *)

Module path.

Definition isAbsolute (p : jsstring) : bool :=
  match p with
  | c :: _ => c =? SLASH
  | [] => false
  end.

(** The pieces of [p] between slashes, empty ones included. *)
Fixpoint segments (p : jsstring) : list jsstring :=
  match p with
  | [] => [[]]
  | c :: p' =>
      if c =? SLASH then [] :: segments p'
      else match segments p' with
           | seg :: segs => (c :: seg) :: segs
           | [] => [[c]]
           end
  end.

Fixpoint join_segments (segs : list jsstring) : jsstring :=
  match segs with
  | [] => []
  | [seg] => seg
  | seg :: segs' => seg ++ SLASH :: join_segments segs'
  end.

Definition jsstring_eqb (a b : jsstring) : bool := bool_decide (a = b).

(** One step of [normalizeString]; [res] is the result so far, last
    segment first. *)
Definition push_segment (allowAboveRoot : bool) (res : list jsstring)
    (seg : jsstring) : list jsstring :=
  if jsstring_eqb seg [] || jsstring_eqb seg [DOT] then res
  else if jsstring_eqb seg [DOT; DOT] then
    match res with
    | last :: res' =>
        if jsstring_eqb last [DOT; DOT]
        then (if allowAboveRoot then [DOT; DOT] :: res else res)
        else res'
    | [] => if allowAboveRoot then [[DOT; DOT]] else []
    end
  else seg :: res.

Definition normalizeSegments (p : jsstring) (allowAboveRoot : bool)
    : list jsstring :=
  rev (fold_left (push_segment allowAboveRoot) (segments p) []).

Definition normalizeString (p : jsstring) (allowAboveRoot : bool)
    : jsstring :=
  join_segments (normalizeSegments p allowAboveRoot).

(** The right-to-left loop of [resolve]; [args] holds the arguments last
    first, then the working directory. *)
Fixpoint resolve_loop (args : list jsstring) (resolvedPath : jsstring)
    : jsstring * bool :=
  match args with
  | [] => (resolvedPath, false)
  | p :: args' =>
      match p with
      | [] => resolve_loop args' resolvedPath
      | _ :: _ =>
          let resolvedPath := p ++ SLASH :: resolvedPath in
          if isAbsolute p then (resolvedPath, true)
          else resolve_loop args' resolvedPath
      end
  end.

Definition resolve (cwd : jsstring) (args : list jsstring) : jsstring :=
  let '(resolvedPath, resolvedAbsolute) :=
    resolve_loop (rev args ++ [cwd]) [] in
  let resolvedPath := normalizeString resolvedPath (negb resolvedAbsolute) in
  if resolvedAbsolute then SLASH :: resolvedPath
  else match resolvedPath with
       | [] => [DOT]
       | _ :: _ => resolvedPath
       end.

Definition endsWithSlash (p : jsstring) : bool :=
  match last p with
  | Some c => c =? SLASH
  | None => false
  end.

Definition normalize (p : jsstring) : jsstring :=
  match p with
  | [] => [DOT]
  | _ :: _ =>
      let trailingSeparator := endsWithSlash p in
      match normalizeString p (negb (isAbsolute p)) with
      | [] =>
          if isAbsolute p then [SLASH]
          else if trailingSeparator then [DOT; SLASH] else [DOT]
      | (_ :: _) as q =>
          let q := if trailingSeparator then q ++ [SLASH] else q in
          if isAbsolute p then SLASH :: q else q
      end
  end.

Definition join (args : list jsstring) : jsstring :=
  match filter (λ a, a ≠ []) args with
  | [] => [DOT]
  | parts => normalize (join_segments parts)
  end.

(** The segments of a resolved path. *)
Definition resolvedSegments (p : jsstring) : list jsstring :=
  filter (λ seg, seg ≠ []) (segments p).

Fixpoint strip_common (a b : list jsstring)
    : list jsstring * list jsstring :=
  match a, b with
  | x :: a', y :: b' =>
      if jsstring_eqb x y then strip_common a' b' else (a, b)
  | _, _ => (a, b)
  end.

Definition relative (cwd : jsstring) (from to : jsstring) : jsstring :=
  if jsstring_eqb from to then []
  else
    let from := resolve cwd [from] in
    let to := resolve cwd [to] in
    if jsstring_eqb from to then []
    else
      let '(up, down) :=
        strip_common (resolvedSegments from) (resolvedSegments to) in
      join_segments (map (λ _, [DOT; DOT]) up ++ down).

Definition is_slash (c : N) : bool := c =? SLASH.

Fixpoint drop_while (f : N → bool) (s : jsstring) : jsstring :=
  match s with
  | c :: s' => if f c then drop_while f s' else s
  | [] => []
  end.

Fixpoint take_while (f : N → bool) (s : jsstring) : jsstring :=
  match s with
  | c :: s' => if f c then c :: take_while f s' else []
  | [] => []
  end.

(** [dirname]: scan from the right, over the trailing slashes and the last
    component. Index 0 is never the cut. *)
Definition dirname (p : jsstring) : jsstring :=
  match p with
  | [] => [DOT]
  | c :: t =>
      let hasRoot := c =? SLASH in
      let before :=
        drop_while (λ c, negb (is_slash c)) (drop_while is_slash (rev t)) in
      match before with
      | [] => if hasRoot then [SLASH] else [DOT]
      | _ :: _ =>
          let e := length before in
          if hasRoot && (e =? 1)%nat then [SLASH; SLASH]
          else take e p
      end
  end.

(** The last component of [p], trailing slashes dropped. *)
Definition lastComponent (p : jsstring) : jsstring :=
  rev (take_while (λ c, negb (is_slash c)) (drop_while is_slash (rev p))).

(** [extname]: from the last dot of the last component, unless that dot
    starts the component or the component is [..]. *)
Definition extname (p : jsstring) : jsstring :=
  let base := lastComponent p in
  let ext_rev := take_while (λ c, negb (c =? DOT)) (rev base) in
  let startDot := (length base - length ext_rev - 1)%nat in
  if (length ext_rev =? length base)%nat then []
  else if (startDot =? 0)%nat then []
  else if jsstring_eqb base [DOT; DOT] then []
  else drop startDot base.

End path.

(** ** The process state and its monad *)

(** What a path names on disk. *)
Inductive node : Type :=
| File (content : jsstring)
| Directory.

Inductive stream : Type := stdout | stderr.

(** The disk, keyed by the segments of the resolved absolute path (the root
    directory is the empty list), and what has been printed so far, oldest
    line first. *)
Record state : Type := State {
  disk : gmap (list jsstring) node;
  console : list (stream * jsstring)
}.

(** An [Error] object, as far as the program looks at it. *)
Record Error : Type := new_Error { message : jsstring }.

Inductive completion (A : Type) : Type :=
| Normal (a : A)
| Throw (e : Error).
Arguments Normal {A} a.
Arguments Throw {A} e.

Definition M (A : Type) : Type := state → completion A * state.

#[global] Instance M_ret : MRet M := λ A a st, (Normal a, st).

#[global] Instance M_bind : MBind M := λ A B f m st,
  match m st with
  | (Normal a, st') => f a st'
  | (Throw e, st') => (Throw e, st')
  end.

#[global] Instance M_throw : MThrow Error M := λ A e st, (Throw e, st).

(** [try { body } catch (error) { handler }] *)
Definition try_catch {A : Type} (body : M A) (handler : Error → M A) : M A :=
  λ st,
    match body st with
    | (Normal a, st') => (Normal a, st')
    | (Throw e, st') => handler e st'
    end.

(** [for (const x of xs) { acc = body(acc, x) }] *)
Fixpoint for_of {X A : Type} (xs : list X) (body : A → X → M A) (acc : A)
    : M A :=
  match xs with
  | [] => mret acc
  | x :: xs' => acc' ← body acc x; for_of xs' body acc'
  end.

Definition print (s : stream) (text : jsstring) : M unit :=
  λ st, (Normal (), State (disk st) (console st ++ [(s, text)])).

(** [console.log] and [console.error] of one string. *)
Definition console_log : jsstring → M unit := print stdout.
Definition console_error : jsstring → M unit := print stderr.

(** The exception of a recursion deeper than the call stack. *)
Definition RangeError : Error :=
  new_Error (js "Maximum call stack size exceeded").

(** ** The [fs] module

    The synchronous calls the program makes, on a disk without symbolic
    links. A path is looked up under its resolved form: the entry it names
    when the directories it goes through are there. The program gives these
    calls paths that [path.resolve] or [path.join] has put in normal form. *)

Module fs.

(** Where [p] lives on disk.  The empty path names nothing, whatever the
    working directory is: it is given the empty name in the root directory,
    a name no entry of a directory has. *)
Definition key (cwd p : jsstring) : list jsstring :=
  match p with
  | [] => [[]]
  | _ :: _ => path.resolvedSegments (path.resolve cwd [p])
  end.

Definition stat (cwd p : jsstring) : M (option node) :=
  λ st, (Normal (disk st !! key cwd p), st).

Definition errno (code syscall p : jsstring) : Error :=
  new_Error (code ++ js ", " ++ syscall ++ js " '" ++ p ++ js "'").

(** The error of a call on two paths. *)
Definition errno2 (code syscall p dest : jsstring) : Error :=
  new_Error (code ++ js ", " ++ syscall ++ js " '" ++ p ++ js "' -> '"
             ++ dest ++ js "'").

Definition ENOENT := js "ENOENT: no such file or directory".
Definition EISDIR := js "EISDIR: illegal operation on a directory".
Definition ENOTDIR := js "ENOTDIR: not a directory".
Definition EEXIST := js "EEXIST: file already exists".

(** The directories below the root on the way down to a path: every
    ancestor of the path, outermost first, then the path. *)
Fixpoint ancestors (above segs : list jsstring) : list (list jsstring) :=
  match segs with
  | [] => []
  | seg :: segs' => (above ++ [seg]) :: ancestors (above ++ [seg]) segs'
  end.

(** The directory an entry lies in; the root has none. *)
Definition parent (k : list jsstring) : option (list jsstring) :=
  match k with
  | [] => None
  | _ :: _ => Some (removelast k)
  end.

(** A regular file lies on the way down to [k], above it. *)
Definition through_file (σ : gmap (list jsstring) node)
    (k : list jsstring) : bool :=
  match parent k with
  | None => false
  | Some d =>
      existsb (λ a, match σ !! a with Some (File _) => true | _ => false end)
        ([] :: ancestors [] d)
  end.

(** The code of the error of a call on a path that names nothing: the path
    goes through a regular file, or an entry is missing. *)
Definition missing (σ : gmap (list jsstring) node) (k : list jsstring)
    : jsstring :=
  if through_file σ k then ENOTDIR else ENOENT.

Definition absent (k : list jsstring) : M jsstring :=
  λ st, (Normal (missing (disk st) k), st).

Definition existsSync (cwd p : jsstring) : M bool :=
  n ← stat cwd p;
  mret (match n with Some _ => true | None => false end).

(** [readFileSync(p, 'utf-8')] *)
Definition readFileSync (cwd p : jsstring) : M jsstring :=
  n ← stat cwd p;
  match n with
  | Some (File content) => mret content
  | Some Directory => mthrow (new_Error (EISDIR ++ js ", read"))
  | None => code ← absent (key cwd p); mthrow (errno code (js "open") p)
  end.

Record Stats : Type := { isDirectory : bool; isFile : bool }.

Definition lstatSync (cwd p : jsstring) : M Stats :=
  n ← stat cwd p;
  match n with
  | Some (File _) => mret {| isDirectory := false; isFile := true |}
  | Some Directory => mret {| isDirectory := true; isFile := false |}
  | None => code ← absent (key cwd p); mthrow (errno code (js "lstat") p)
  end.

(** [d] is [k] or one of its ancestors. *)
Fixpoint within (d k : list jsstring) : bool :=
  match d, k with
  | [], _ => true
  | x :: d', y :: k' => path.jsstring_eqb x y && within d' k'
  | _ :: _, [] => false
  end.

(** The name under which [k] is an entry of directory [d], if it is one. *)
Fixpoint entry_name (d k : list jsstring) : option jsstring :=
  match d, k with
  | [], [name] => Some name
  | x :: d', y :: k' => if path.jsstring_eqb x y then entry_name d' k' else None
  | _, _ => None
  end.

(** [readdirSync(p)].  Node lists the entries in the order the file system
    gives them; here it is the order of the map. *)
Definition readdirSync (cwd p : jsstring) : M (list jsstring) :=
  n ← stat cwd p;
  match n return M (list jsstring) with
  | Some Directory =>
      λ st, (Normal (omap (λ kv, entry_name (key cwd p) kv.1)
                       (map_to_list (disk st))), st)
  | Some (File _) => mthrow (errno ENOTDIR (js "scandir") p)
  | None => code ← absent (key cwd p); mthrow (errno code (js "scandir") p)
  end.

Definition mkdir_one (p : jsstring) (target a : list jsstring) : M unit :=
  λ st,
    match disk st !! a with
    | Some Directory => (Normal (), st)
    | Some (File _) =>
        (Throw (errno (if bool_decide (a = target) then EEXIST else ENOTDIR)
                  (js "mkdir") p), st)
    | None => (Normal (), State (<[a := Directory]> (disk st)) (console st))
    end.

(** [mkdirSync(p, { recursive: true })]: the root, every ancestor of the
    path and the path, outermost first. *)
Definition mkdirSync (cwd p : jsstring) : M unit :=
  match p with
  | [] => mthrow (errno ENOENT (js "mkdir") p)
  | _ :: _ =>
      for_of ([] :: ancestors [] (key cwd p))
        (λ _ a, mkdir_one p (key cwd p) a) ()
  end.

(** Opening the entry [k] for writing and giving it this content; [fail]
    makes the error of the call out of the code. *)
Definition write (fail : jsstring → Error) (k : list jsstring)
    (content : jsstring) : M unit :=
  λ st,
    match parent k with
    | None => (Throw (fail EISDIR), st)
    | Some d =>
        match disk st !! d with
        | None => (Throw (fail (missing (disk st) k)), st)
        | Some (File _) => (Throw (fail ENOTDIR), st)
        | Some Directory =>
            match disk st !! k with
            | Some Directory => (Throw (fail EISDIR), st)
            | _ =>
                (Normal (),
                 State (<[k := File content]> (disk st)) (console st))
            end
        end
    end.

(** [writeFileSync(p, content, 'utf-8')] *)
Definition writeFileSync (cwd p content : jsstring) : M unit :=
  match p with
  | [] => mthrow (errno ENOENT (js "open") p)
  | _ :: _ => write (λ code, errno code (js "open") p) (key cwd p) content
  end.

(** [copyFileSync(src, dest)]: whatever fails, the error is that of the one
    call, on the two paths. *)
Definition copyFileSync (cwd src dest : jsstring) : M unit :=
  n ← stat cwd src;
  match n with
  | Some (File content) =>
      match dest with
      | [] => mthrow (errno2 ENOENT (js "copyfile") src dest)
      | _ :: _ =>
          write (λ code, errno2 code (js "copyfile") src dest) (key cwd dest)
            content
      end
  | Some Directory => mthrow (errno2 EISDIR (js "copyfile") src dest)
  | None =>
      code ← absent (key cwd src);
      mthrow (errno2 code (js "copyfile") src dest)
  end.

(** [rmSync(p, { recursive: true, force: true })] *)
Definition rmSync (cwd p : jsstring) : M unit :=
  λ st,
    (Normal (),
     State (filter (λ kv, within (key cwd p) kv.1 = false) (disk st))
       (console st)).

(** [watch(p, { recursive: true }, listener)]: registering the listener
    fails when the path names nothing. The text of the error differs from
    one platform to the other, and so does what happens with a path that
    goes through a regular file, where some platforms do not throw. *)
Definition watch (cwd p : jsstring) : M unit :=
  n ← stat cwd p;
  match n with
  | Some _ => mret ()
  | None => code ← absent (key cwd p); mthrow (errno code (js "watch") p)
  end.

End fs.

(** ** The program: [index.js] *)

Section Program.

(** The working directory of the process. *)
Variable cwd : jsstring.

(** [String.prototype.toLowerCase]. *)
Variable toLowerCase : jsstring → jsstring.

(** [util.format] of a format string and one more argument, a string, as
    [console.error] applies it when it is called with the two: what the
    placeholders of the format string make of the argument, and how, is
    left to Node. *)
Variable util_format : jsstring → jsstring → jsstring.

(** Function to determine if a file is text or binary *)
Definition isTextFile (filePath : jsstring) (textExtensions : gset jsstring)
    : bool :=
  let ext := toLowerCase (path.extname filePath) in
  bool_decide (ext ∈ textExtensions).

(** [path.resolve(includeRoot, match[1])]; a group that took no part in the
    match is [undefined], which [path.resolve] rejects. *)
Definition TypeError : Error :=
  new_Error (js "The " ++ [34] ++ js "paths[1]" ++ [34]
             ++ js " argument must be of type string. Received undefined").

(** The body of the loop of [resolveIncludes], for one [line]; [recurse] is
    the nested call, [resolvedContent] the text gathered so far. *)
Definition resolveLine (recurse : jsstring → M jsstring)
    (includeRoot resolvedContent line : jsstring) : M jsstring :=
  if startsWith line (js "##include") then
    match String_match line re_include with
    | Some m =>
        match match_1 m with
        | Some m1 =>
            let includeFilePath := path.resolve cwd [includeRoot; m1] in
            found ← fs.existsSync cwd includeFilePath;
            if found : bool then
              included ← recurse includeFilePath;
              mret (resolvedContent ++ included ++ [LF])
            else
              console_error
                (js "Error: File not found - " ++ includeFilePath);;
              mret resolvedContent
        | None => mthrow TypeError
        end
    | None =>
        console_error (js "Error: Malformed include directive - " ++ line);;
        mret resolvedContent
    end
  else mret (resolvedContent ++ line ++ [LF]).

(** Function to process an include recursively. [stack] is the number of
    calls the call stack still has room for; [maxRecursion] is an integer,
    as [parseInt] gives for a numeric argument, and may be negative. *)
Fixpoint resolveIncludes_on (stack : nat) (filePath includeRoot : jsstring)
    (maxRecursion currentDepth : Z) : M jsstring :=
  match stack with
  | O => mthrow RangeError
  | S stack' =>
    if (currentDepth >? maxRecursion)%Z then
      mthrow (new_Error
        (js "Max recursion depth exceeded while processing includes in "
         ++ filePath))
    else
      try_catch
        (fileContent ← fs.readFileSync cwd filePath;
         let lines := String_split fileContent re_newline in
         for_of lines
           (resolveLine
              (λ includeFilePath,
                 resolveIncludes_on stack' includeFilePath includeRoot
                   maxRecursion (currentDepth + 1)%Z)
              includeRoot)
           [])
        (λ error,
           mthrow (new_Error
             (js "Error processing file " ++ filePath ++ js ": "
              ++ message error)))
  end.

(** The call with a stack deep enough for [maxRecursion]: the depth check
    stops the recursion at depth [maxRecursion + 1]. *)
Definition resolveIncludes (filePath includeRoot : jsstring)
    (maxRecursion currentDepth : Z) : M jsstring :=
  resolveIncludes_on (S (Z.to_nat (maxRecursion + 1 - currentDepth)))
    filePath includeRoot maxRecursion currentDepth.

(** Function to process a text file. It is declared [async] and has no
    [await]: its body runs to the end within the call, and what is thrown
    inside is caught by its own [try]. *)
Definition processTextFile (filePath outputDir includeRoot : jsstring)
    (maxRecursion : Z) (watchRoot : jsstring) : M unit :=
  try_catch
    (resolvedContent ← resolveIncludes filePath includeRoot maxRecursion 0;
     let relativePath := path.relative cwd watchRoot filePath in
     let outputFilePath := path.join [outputDir; relativePath] in
     fs.mkdirSync cwd (path.dirname outputFilePath);;
     fs.writeFileSync cwd outputFilePath resolvedContent;;
     console_log (js "Processed text file written to: " ++ outputFilePath))
    (λ error, console_error (message error)).

(** Function to copy a binary file to the output directory *)
Definition copyBinaryFile (filePath outputDir watchRoot : jsstring)
    : M unit :=
  try_catch
    (let relativePath := path.relative cwd watchRoot filePath in
     let outputFilePath := path.join [outputDir; relativePath] in
     fs.mkdirSync cwd (path.dirname outputFilePath);;
     fs.copyFileSync cwd filePath outputFilePath;;
     console_log (js "Copied binary file to: " ++ outputFilePath))
    (λ error,
       console_error
         (util_format (js "Error copying file " ++ filePath ++ js ":")
            (message error))).

(** The output-root test of the walk and of the watcher. *)
Definition inOutputDir (filePath outputDir : jsstring) : bool :=
  startsWith (path.resolve cwd [filePath]) (path.resolve cwd [outputDir]).

(** The body of the loop of [processDirectory], for the entry [file];
    [recurse] is the call for a sub-directory. *)
Definition processEntry (recurse : jsstring → M unit)
    (inputDir outputDir : jsstring) (textExtensions : gset jsstring)
    (includeRoot : jsstring) (maxRecursion : Z) (watchRoot : jsstring)
    (file : jsstring) : M unit :=
  let filePath := path.join [inputDir; file] in
  if inOutputDir filePath outputDir then mret ()
  else
    stats ← fs.lstatSync cwd filePath;
    if fs.isDirectory stats then recurse filePath
    else if isTextFile filePath textExtensions then
      processTextFile filePath outputDir includeRoot maxRecursion watchRoot
    else copyBinaryFile filePath outputDir watchRoot.

(** Function to process the entire input directory recursively *)
Fixpoint processDirectory (stack : nat) (inputDir outputDir : jsstring)
    (textExtensions : gset jsstring) (includeRoot : jsstring)
    (maxRecursion : Z) (watchRoot : jsstring) : M unit :=
  match stack with
  | O => mthrow RangeError
  | S stack' =>
      files ← fs.readdirSync cwd inputDir;
      for_of files
        (λ _ file,
           processEntry
             (λ filePath,
                processDirectory stack' filePath outputDir textExtensions
                  includeRoot maxRecursion watchRoot)
             inputDir outputDir textExtensions includeRoot maxRecursion
             watchRoot file)
        ()
  end.

(** The listener [watchDirectory] registers with [fs.watch]; [filename] is
    [None] when the notification carries no name. *)
Definition onChange (directory outputDir : jsstring)
    (textExtensions : gset jsstring) (includeRoot : jsstring)
    (maxRecursion : Z) (watchRoot : jsstring)
    (eventType : jsstring) (filename : option jsstring) : M unit :=
  console_log (eventType ++ js " " ++ default (js "null") filename);;
  match filename with
  | Some ((_ :: _) as filename) =>
      let filePath := path.join [directory; filename] in
      if inOutputDir filePath outputDir then mret ()
      else
        found ← fs.existsSync cwd filePath;
        if found : bool then
          stats ← fs.lstatSync cwd filePath;
          if fs.isFile stats then
            if isTextFile filePath textExtensions then
              console_log (js "Text file changed: " ++ filePath);;
              processTextFile filePath outputDir includeRoot maxRecursion
                watchRoot
            else
              console_log (js "Binary file changed: " ++ filePath);;
              copyBinaryFile filePath outputDir watchRoot
          else mret ()
        else mret ()
  | _ => mret ()
  end.

(** What the process is told while it watches: a change below the watched
    directory, or the end of the child process, with its exit code as it is
    printed. *)
Inductive event : Type :=
| change (eventType : jsstring) (filename : option jsstring)
| close (code : jsstring).

(** The notifications are handled in the order they come, up to the first
    [close], which stops the watcher. *)
Fixpoint deliver (directory outputDir : jsstring)
    (textExtensions : gset jsstring) (includeRoot : jsstring)
    (maxRecursion : Z) (watchRoot : jsstring) (events : list event)
    : M unit :=
  match events with
  | [] => mret ()
  | change eventType filename :: events' =>
      onChange directory outputDir textExtensions includeRoot maxRecursion
        watchRoot eventType filename;;
      deliver directory outputDir textExtensions includeRoot maxRecursion
        watchRoot events'
  | close code :: _ =>
      console_log
        (js "Child process exited with code " ++ code
         ++ js ". Stopping watcher.")
  end.

(** Function to watch files and directories recursively; [events] stands
    for the child process and the file system, as the source of what
    happens next, once the listeners are registered. *)
Definition watchDirectory (directory outputDir : jsstring)
    (textExtensions : gset jsstring) (includeRoot : jsstring)
    (maxRecursion : Z) (events : list event) (watchRoot : jsstring)
    : M unit :=
  fs.watch cwd directory;;
  console_log (js "Watching directory: " ++ directory);;
  deliver directory outputDir textExtensions includeRoot maxRecursion
    watchRoot events.

(** Function to remove and recreate the output directory *)
Definition resetOutputDirectory (outputDir : jsstring) (skipDelete : bool)
    : M unit :=
  if negb skipDelete then
    found ← fs.existsSync cwd outputDir;
    (if found : bool then
       fs.rmSync cwd outputDir;;
       console_log (js "Removed existing output directory: " ++ outputDir)
     else mret ());;
    fs.mkdirSync cwd outputDir;;
    console_log (js "Recreated output directory: " ++ outputDir)
  else
    console_log (js "Skipped deleting existing output directory: " ++ outputDir).

End Program.

(** ** The command line of [index.js] *)

Definition EQUALS : N := 61.
Definition COMMA : N := 44.

(** [String.prototype.split] with a separator of one character. *)
Fixpoint String_split_on (separator : N) (s : jsstring) : list jsstring :=
  match s with
  | [] => [[]]
  | c :: s' =>
      if c =? separator then [] :: String_split_on separator s'
      else match String_split_on separator s' with
           | piece :: pieces => (c :: piece) :: pieces
           | [] => [[c]]
           end
  end.

(** [String.prototype.trim]: white space and line terminators are taken off
    both ends. *)
Definition trim (s : jsstring) : jsstring :=
  rev (path.drop_while is_space (rev (path.drop_while is_space s))).

(** A Number, as far as [parseInt] gives them: [NaN], an integer a double
    holds exactly, or the double that approximates a larger integer. *)
Inductive number : Type :=
| NaN
| Integer (z : Z)
| Approximately (z : Z).

Definition is_digit (c : N) : bool := (48 <=? c) && (c <=? 57).

(** The value of the leading decimal digits of [s]. *)
Fixpoint digits_value (value : Z) (s : jsstring) : Z :=
  match s with
  | c :: s' =>
      if is_digit c then digits_value (10 * value + Z.of_N (c - 48)) s'
      else value
  | [] => value
  end.

(** [parseInt(string, 10)]: leading white space, a sign, then the digits;
    what follows the digits is not looked at. *)
Definition parseInt (string : jsstring) : number :=
  let inputString := path.drop_while is_space string in
  let '(sign, digits) :=
    match inputString with
    | c :: rest =>
        if c =? 45 then ((-1)%Z, rest)
        else if c =? 43 then (1%Z, rest)
        else (1%Z, inputString)
    | [] => (1%Z, inputString)
    end in
  match digits with
  | c :: _ =>
      if is_digit c then
        let mathInt := digits_value 0 digits in
        if (mathInt <=? 2 ^ 53)%Z then Integer (sign * mathInt)
        else Approximately (sign * mathInt)
      else NaN
  | [] => NaN
  end.

(** The [options] object of [parseArguments]; [None] is [null] for
    [includeRoot] and [undefined] for [childProcess]. *)
Module options.
Record t : Type := make {
  watch : jsstring;
  output : jsstring;
  textExtensions : gset jsstring;
  skipDelete : bool;
  childProcess : option jsstring;
  includeRoot : option jsstring;
  maxRecursion : number
}.
End options.

(** How a function that may call [process.exit] ends. *)
Inductive ending (A : Type) : Type :=
| Returns (a : A)
| Exits (code : Z).
Arguments Returns {A} a.
Arguments Exits {A} code.

(** Display usage information *)
Definition showUsage : M unit :=
  console_log (js "Usage: node index.js --watch=<inputDir> --output=<outputDir> [--textExtensions=<extensions>] [--skipDelete] [--childProcess=<command>] [--includeRoot=<directory>] [--maxRecursion=<depth>]");;
  console_log (js "  --watch         - Directory to watch for file changes (default: current directory)");;
  console_log (js "  --output        - Directory to save processed files (default: dist/ in inputDir)");;
  console_log (js "  --textExtensions - Additional comma-separated text file extensions (default: .txt,.html,.js,.css,.json,.md,.sql)");;
  console_log (js "  --skipDelete    - Skip deleting the output directory if it already exists");;
  console_log (js "  --childProcess  - Command to spawn a child process with the output directory as the working directory (default: sqlpage)");;
  console_log (js "  --includeRoot   - Root directory for includes (default: input directory)");;
  console_log (js "  --maxRecursion  - Maximum depth for resolving includes (default: 10)").

Section CommandLine.

(** The working directory of the process. *)
Variable cwd : jsstring.

(** [String.prototype.toLowerCase]. *)
Variable toLowerCase : jsstring → jsstring.

(** [path.resolve(undefined)] *)
Definition TypeError_paths : Error :=
  new_Error (js "The " ++ [34] ++ js "paths[0]" ++ [34]
             ++ js " argument must be of type string. Received undefined").

(** [undefined.split(',')] *)
Definition TypeError_split : Error :=
  new_Error (js "Cannot read properties of undefined (reading 'split')").

(** [path.resolve(arg.split('=')[1])] *)
Definition resolve_value (value : option jsstring) : M jsstring :=
  match value with
  | Some v => mret (path.resolve cwd [v])
  | None => mthrow TypeError_paths
  end.

(** The callback of [args.forEach] in [parseArguments]. *)
Definition parseArgument (o : options.t) (arg : jsstring)
    : M (ending options.t) :=
  let value := String_split_on EQUALS arg !! 1%nat in
  if startsWith arg (js "--watch=") then
    watch ← resolve_value value;
    mret (Returns
      (options.make watch (options.output o) (options.textExtensions o)
         (options.skipDelete o) (options.childProcess o)
         (options.includeRoot o) (options.maxRecursion o)))
  else if startsWith arg (js "--output=") then
    output ← resolve_value value;
    mret (Returns
      (options.make (options.watch o) output (options.textExtensions o)
         (options.skipDelete o) (options.childProcess o)
         (options.includeRoot o) (options.maxRecursion o)))
  else if startsWith arg (js "--textExtensions=") then
    match value with
    | Some v =>
        let extensions :=
          map (λ ext, toLowerCase (trim ext)) (String_split_on COMMA v) in
        mret (Returns
          (options.make (options.watch o) (options.output o)
             (foldl (λ set ext, {[ ext ]} ∪ set) (options.textExtensions o)
                extensions)
             (options.skipDelete o) (options.childProcess o)
             (options.includeRoot o) (options.maxRecursion o)))
    | None => mthrow TypeError_split
    end
  else if path.jsstring_eqb arg (js "--skipDelete") then
    mret (Returns
      (options.make (options.watch o) (options.output o)
         (options.textExtensions o) true (options.childProcess o)
         (options.includeRoot o) (options.maxRecursion o)))
  else if startsWith arg (js "--childProcess=") then
    mret (Returns
      (options.make (options.watch o) (options.output o)
         (options.textExtensions o) (options.skipDelete o) value
         (options.includeRoot o) (options.maxRecursion o)))
  else if startsWith arg (js "--includeRoot=") then
    includeRoot ← resolve_value value;
    mret (Returns
      (options.make (options.watch o) (options.output o)
         (options.textExtensions o) (options.skipDelete o)
         (options.childProcess o) (Some includeRoot)
         (options.maxRecursion o)))
  else if startsWith arg (js "--maxRecursion=") then
    mret (Returns
      (options.make (options.watch o) (options.output o)
         (options.textExtensions o) (options.skipDelete o)
         (options.childProcess o) (options.includeRoot o)
         (match value with Some v => parseInt v | None => NaN end)))
  else if path.jsstring_eqb arg (js "--help")
          || path.jsstring_eqb arg (js "-h") then
    showUsage;;
    mret (Exits 0)
  else mret (Returns o).

(** [args.forEach(...)], up to a call of [process.exit]. *)
Fixpoint forEach_argument (args : list jsstring) (o : options.t)
    : M (ending options.t) :=
  match args with
  | [] => mret (Returns o)
  | arg :: args' =>
      r ← parseArgument o arg;
      match r with
      | Returns o' => forEach_argument args' o'
      | Exits code => mret (Exits code)
      end
  end.

(** The [options] before the arguments are looked at. *)
Definition defaults : options.t :=
  options.make (path.resolve cwd [js "./"])
    (path.join [path.resolve cwd [js "./"]; js "dist"])
    (list_to_set [js ".txt"; js ".html"; js ".js"; js ".css"; js ".json";
                  js ".md"; js ".sql"])
    false (Some (js "sqlpage")) None (Integer 10).

(** Parse command-line arguments; [argv] is [process.argv]. *)
Definition parseArguments (argv : list jsstring) : M (ending options.t) :=
  let args := drop 2 argv in
  r ← forEach_argument args defaults;
  match r with
  | Returns o =>
      mret (Returns
        (match options.includeRoot o with
         | None | Some [] =>
             options.make (options.watch o) (options.output o)
               (options.textExtensions o) (options.skipDelete o)
               (options.childProcess o) (Some (options.watch o))
               (options.maxRecursion o)
         | Some (_ :: _) => o
         end))
  | Exits code => mret (Exits code)
  end.

End CommandLine.

(** * The vocabulary of the properties *)

(** Every line followed by the terminator the resolver writes. *)
Definition terminated (lines : list jsstring) : jsstring :=
  concat (map (λ line, line ++ [LF]) lines).

(** The content with every CRLF and every LF replaced by LF. *)
Fixpoint normalizeTerminators (s : jsstring) : jsstring :=
  match s with
  | [] => []
  | c :: s' =>
      match s' with
      | d :: _ =>
          if (c =? CR) && (d =? LF) then normalizeTerminators s'
          else c :: normalizeTerminators s'
      | [] => [c]
      end
  end.

(** The text between the first [<] of a line and the next [>], in the words
    of the specification. *)
Definition first_bracketed (line : jsstring) : option jsstring :=
  match path.drop_while (λ c, negb (c =? LT)) line with
  | _ :: after =>
      let text := path.take_while (λ c, negb (c =? GT)) after in
      if (length text <? length after)%nat then Some text else None
  | [] => None
  end.

(** [p] names a regular file with this content. *)
Definition file_at (cwd : jsstring) (σ : gmap (list jsstring) node)
    (p content : jsstring) : Prop :=
  σ !! fs.key cwd p = Some (File content).

(** A line that does not begin with the marker. *)
Definition plain (line : jsstring) : Prop :=
  startsWith line (js "##include") = false.

(** The expansion of a run of lines of a file that is itself being resolved
    at depth [currentDepth]. *)
Definition expandLines (cwd includeRoot : jsstring)
    (maxRecursion currentDepth : Z) (lines : list jsstring) : M jsstring :=
  for_of lines
    (resolveLine cwd
       (λ includeFilePath,
          resolveIncludes cwd includeFilePath includeRoot maxRecursion
            (currentDepth + 1)%Z)
       includeRoot)
    [].

(** A line that leads to no nested call: it does not begin with the marker,
    or it is no directive, or its target names nothing on disk. *)
Definition inert (cwd : jsstring) (σ : gmap (list jsstring) node)
    (includeRoot line : jsstring) : Prop :=
  startsWith line (js "##include") = false
  ∨ (startsWith line (js "##include") = true
     ∧ String_match line re_include = None)
  ∨ ∃ m t,
      startsWith line (js "##include") = true
      ∧ String_match line re_include = Some m
      ∧ match_1 m = Some t
      ∧ σ !! fs.key cwd (path.resolve cwd [includeRoot; t]) = None.

(** A linear chain of nested includes from [top] down to [bottom]:
    [includers] lists, outermost first, the files that each include the
    next file of the chain, by one directive among lines that lead to no
    nested call; [bottom] is a regular file that includes nothing. *)
Inductive chain (cwd : jsstring) (σ : gmap (list jsstring) node)
    (includeRoot : jsstring)
    : jsstring → list jsstring → jsstring → Prop :=
| chain_bottom (filePath content : jsstring) :
    file_at cwd σ filePath content →
    Forall (inert cwd σ includeRoot) (String_split content re_newline) →
    chain cwd σ includeRoot filePath [] filePath
| chain_include (filePath content : jsstring)
    (before after : list jsstring) (line : jsstring) (m : match_array)
    (t : jsstring) (includers : list jsstring) (bottom : jsstring) :
    file_at cwd σ filePath content →
    String_split content re_newline = before ++ line :: after →
    Forall (inert cwd σ includeRoot) before →
    Forall (inert cwd σ includeRoot) after →
    startsWith line (js "##include") = true →
    String_match line re_include = Some m →
    match_1 m = Some t →
    chain cwd σ includeRoot (path.resolve cwd [includeRoot; t]) includers
      bottom →
    chain cwd σ includeRoot filePath (filePath :: includers) bottom.

(** The message of the depth failure met in [bottom], as it comes out of the
    files that were being resolved, outermost first. *)
Fixpoint depth_exceeded_in (includers : list jsstring) (bottom : jsstring)
    : jsstring :=
  match includers with
  | [] =>
      js "Max recursion depth exceeded while processing includes in "
      ++ bottom
  | filePath :: includers' =>
      js "Error processing file " ++ filePath ++ js ": "
      ++ depth_exceeded_in includers' bottom
  end.

(** [g] is the target, present on disk, of a directive of the file [f]. *)
Definition includes (cwd : jsstring) (σ : gmap (list jsstring) node)
    (includeRoot : jsstring) (f g : jsstring) : Prop :=
  ∃ content line m t,
    file_at cwd σ f content
    ∧ line ∈ String_split content re_newline
    ∧ startsWith line (js "##include") = true
    ∧ String_match line re_include = Some m
    ∧ match_1 m = Some t
    ∧ g = path.resolve cwd [includeRoot; t]
    ∧ is_Some (σ !! fs.key cwd g).

(** Everything the directives lead to from [f] is a regular file. *)
Definition targets_are_files (cwd : jsstring)
    (σ : gmap (list jsstring) node) (includeRoot f : jsstring) : Prop :=
  ∀ g, rtc (includes cwd σ includeRoot) f g → ∃ content, file_at cwd σ g content.

(** The failure on the depth limit, whatever the files it went through. *)
Definition depth_exceeded (e : Error) : Prop :=
  ∃ includers bottom, message e = depth_exceeded_in includers bottom.

(** A way down from [f] along the directives: [includers] lists, outermost
    first, files that each include the next, from [f] on, and the last of
    them includes [bottom]; with no includer, [bottom] is [f]. *)
Inductive descent (cwd : jsstring) (σ : gmap (list jsstring) node)
    (includeRoot : jsstring)
    : jsstring → list jsstring → jsstring → Prop :=
| descent_here (f : jsstring) : descent cwd σ includeRoot f [] f
| descent_step (f g : jsstring) (includers : list jsstring)
    (bottom : jsstring) :
    includes cwd σ includeRoot f g →
    descent cwd σ includeRoot g includers bottom →
    descent cwd σ includeRoot f (f :: includers) bottom.

(** The failure on the depth limit met [levels] levels below [f]: the
    depth check failed in a file reached from [f] through that many nested
    includes, and the message names it under the names of the files that
    were being resolved. *)
Definition depth_exceeded_below (cwd : jsstring)
    (σ : gmap (list jsstring) node) (includeRoot f : jsstring)
    (levels : nat) (e : Error) : Prop :=
  ∃ includers bottom,
    descent cwd σ includeRoot f includers bottom
    ∧ length includers = levels
    ∧ message e = depth_exceeded_in includers bottom.

(** ** Scenarios *)

Module Scenario.

(** A tree [/w] with [a.html] and [b.html]; the process runs in [/w]. *)
Definition cwd : jsstring := js "/w".

(** [util.format] on a format string without placeholder, as those of the
    scenarios are: the argument follows after a space. *)
Definition util_format (first argument : jsstring) : jsstring :=
  first ++ js " " ++ argument.

Definition disk_of (entries : list (list jsstring * node))
    : gmap (list jsstring) node :=
  list_to_map (([], Directory) :: ([js "w"], Directory) :: entries).

(** [a.html] includes [b.html], which holds [Hello]. *)
Definition hello : state :=
  State (disk_of [([js "w"; js "a.html"], File (js "##include <b.html>"));
                  ([js "w"; js "b.html"], File (js "Hello"))]) [].

(** One line and its terminator. *)
Definition one_line : state :=
  State (disk_of [([js "w"; js "a.txt"], File (js "a" ++ [LF]))]) [].

(** [a.html] includes itself. *)
Definition selfish : state :=
  State (disk_of [([js "w"; js "a.html"], File (js "##include <a.html>"))])
    [].

(** [a.html] includes [b.html], which includes [c.html]. *)
Definition three : state :=
  State (disk_of [([js "w"; js "a.html"], File (js "##include <b.html>"));
                  ([js "w"; js "b.html"], File (js "##include <c.html>"));
                  ([js "w"; js "c.html"], File (js "end"))]) [].

(** [a.html] names the directory [sub], then itself. *)
Definition detour : state :=
  State (disk_of [([js "w"; js "sub"], Directory);
                  ([js "w"; js "a.html"],
                   File (js "##include <sub>" ++ [LF]
                         ++ js "##include <a.html>"))]) [].

(** An output directory [/w/dist] with a stale file, next to [/w/dist2]. *)
Definition stale : state :=
  State (disk_of [([js "w"; js "a.html"], File (js "new"));
                  ([js "w"; js "dist"], Directory);
                  ([js "w"; js "dist"; js "old.txt"], File (js "old"));
                  ([js "w"; js "dist2"], Directory);
                  ([js "w"; js "dist2"; js "x.html"], File (js "x"))]) [].

End Scenario.

(** * The vocabulary of the further properties *)

(** What a computation did to the state when it only printed diagnostics:
    the disk is as before and every line added to the console is on the
    error stream. *)
Definition only_diagnostics (st st' : state) : Prop :=
  disk st' = disk st
  ∧ ∃ out, console st' = console st ++ out ∧ Forall (λ l, l.1 = stderr) out.

(** Nothing on disk was removed or changed kind: a regular file is still a
    regular file, a directory still a directory. *)
Definition kinds_kept (σ σ' : gmap (list jsstring) node) : Prop :=
  ∀ k n, σ !! k = Some n →
    match n with
    | File _ => ∃ content, σ' !! k = Some (File content)
    | Directory => σ' !! k = Some Directory
    end.

(** Nothing has changed but on the way down to [k]: at [k] itself and at
    the directories above it. *)
Definition same_outside (k : list jsstring)
    (σ σ' : gmap (list jsstring) node) : Prop :=
  ∀ a, ¬ a `prefix_of` k → σ' !! a = σ !! a.

(** A computation that leaves the disk related by [Rel] to what it was,
    whether it returns or throws. *)
Definition respects (Rel : gmap (list jsstring) node
                          → gmap (list jsstring) node → Prop)
    {A : Type} (m : M A) : Prop :=
  ∀ st, Rel (disk st) (disk (m st).2).

(** A computation that removes nothing. *)
Definition keeps {A : Type} (m : M A) : Prop := respects kinds_kept m.

(** A name of a directory entry: not empty, without slash, and neither [.]
    nor [..]. *)
Definition is_segment (s : jsstring) : bool :=
  negb (path.jsstring_eqb s []) && negb (path.jsstring_eqb s [DOT])
  && negb (path.jsstring_eqb s [DOT; DOT])
  && forallb (λ c, negb (c =? SLASH)) s.

Definition segment (s : jsstring) : Prop := is_segment s = true.

(** The absolute path, in normal form, of the entry with these segments. *)
Definition absolute (segs : list jsstring) : jsstring :=
  SLASH :: path.join_segments segs.

(** The pieces between the slashes of [join_segments segs]. *)
Definition pieces (segs : list jsstring) : list jsstring :=
  match segs with
  | [] => [[]]
  | _ :: _ => segs
  end.

(** No regular file lies on the way down to the directory [k]. *)
Definition way_free (σ : gmap (list jsstring) node) (k : list jsstring)
    : Prop :=
  ∀ a c, a `prefix_of` k → σ !! a ≠ Some (File c).

(** The same, as a test over the directories from the root down to [k]. *)
Definition way_free_test (σ : gmap (list jsstring) node)
    (k : list jsstring) : bool :=
  forallb (λ a, match σ !! a with Some (File _) => false | _ => true end)
    ([] :: fs.ancestors [] k).

(** Every entry of the disk is reached through names. *)
Definition well_named (σ : gmap (list jsstring) node) : Prop :=
  map_Forall (λ k _, Forall segment k) σ.

(** No entry lies more than [depth] levels below the root. *)
Definition depth_within (depth : nat) (σ : gmap (list jsstring) node)
    : Prop :=
  map_Forall (λ k _, (length k ≤ depth)%nat) σ.

(** The disk as the walk finds it and keeps it, for the output root [O]:
    every entry is reached through names and lies within [depth] levels of
    the root or below the output root. *)
Definition tidy (O : list jsstring) (depth : nat)
    (σ : gmap (list jsstring) node) : Prop :=
  map_Forall
    (λ k _, Forall segment k ∧ ((length k ≤ depth)%nat ∨ O `prefix_of` k)) σ.

(** What the mirror does to the disk, for the output root [O]: nothing is
    removed or changes kind, and nothing changes but at the output root,
    below it, and at the directories above it. *)
Definition mirrored (O : list jsstring) (depth : nat)
    (σ σ' : gmap (list jsstring) node) : Prop :=
  kinds_kept σ σ'
  ∧ (∀ a, ¬ a `prefix_of` O → ¬ O `prefix_of` a → σ' !! a = σ !! a)
  ∧ (tidy O depth σ → tidy O depth σ').

#[global] Instance segment_dec (s : jsstring) : Decision (segment s).
Proof. unfold segment. apply _. Defined.

(** A notification as the watcher of a directory gives them: without a
    name, or with the relative path, made of names, of an entry below the
    directory. *)
Definition named_event (e : event) : Prop :=
  match e with
  | change _ (Some filename) =>
      ∃ R, Forall segment R ∧ filename = path.join_segments R
  | _ => True
  end.

(** What [showUsage] prints. *)
Definition usage : list (stream * jsstring) :=
  console (showUsage (State ∅ [])).2.

(** The two arguments that ask for the usage. *)
Definition is_help (arg : jsstring) : bool :=
  path.jsstring_eqb arg (js "--help") || path.jsstring_eqb arg (js "-h").

(** A text without [=]. *)
Definition no_equals (s : jsstring) : bool :=
  forallb (λ c, negb (c =? EQUALS)) s.

(** What may follow the value of an option: nothing, or a second [=] and
    anything. *)
Definition cut_off (rest : jsstring) : bool :=
  match rest with
  | [] => true
  | c :: _ => c =? EQUALS
  end.

(** The options after an argument that does not ask for the usage, field
    by field; [value] is [arg.split('=')[1]]. *)
Definition updated (cwd : jsstring) (toLowerCase : jsstring → jsstring)
    (o : options.t) (arg : jsstring) : options.t :=
  let value := default [] (String_split_on EQUALS arg !! 1%nat) in
  options.make
    (if startsWith arg (js "--watch=") then path.resolve cwd [value]
     else options.watch o)
    (if startsWith arg (js "--output=") then path.resolve cwd [value]
     else options.output o)
    (if startsWith arg (js "--textExtensions=") then
       foldl (λ set ext, {[ ext ]} ∪ set) (options.textExtensions o)
         (map (λ ext, toLowerCase (trim ext)) (String_split_on COMMA value))
     else options.textExtensions o)
    (if path.jsstring_eqb arg (js "--skipDelete") then true
     else options.skipDelete o)
    (if startsWith arg (js "--childProcess=") then Some value
     else options.childProcess o)
    (if startsWith arg (js "--includeRoot=") then
       Some (path.resolve cwd [value])
     else options.includeRoot o)
    (if startsWith arg (js "--maxRecursion=") then parseInt value
     else options.maxRecursion o).

(** [includeRoot] falls back on [watch]. *)
Definition completed (o : options.t) : options.t :=
  match options.includeRoot o with
  | None | Some [] =>
      options.make (options.watch o) (options.output o)
        (options.textExtensions o) (options.skipDelete o)
        (options.childProcess o) (Some (options.watch o))
        (options.maxRecursion o)
  | Some (_ :: _) => o
  end.

(** An argument [parseArguments] has a meaning for. *)
Definition recognised (arg : jsstring) : bool :=
  startsWith arg (js "--watch=") || startsWith arg (js "--output=")
  || startsWith arg (js "--textExtensions=")
  || path.jsstring_eqb arg (js "--skipDelete")
  || startsWith arg (js "--childProcess=")
  || startsWith arg (js "--includeRoot=")
  || startsWith arg (js "--maxRecursion=") || is_help arg.

(** A computation that does not look at the console and only adds to it. *)
Definition console_blind {A : Type} (m : M A) : Prop :=
  ∀ σ, ∃ r σ' out, ∀ c, m (State σ c) = (r, State σ' (c ++ out)).

Module Pages.

(** A tree [/w] where [page.html] holds the lines of [head.html] followed by
    those of [body.html], and [body.html] includes [b.html]. *)
Definition cwd : jsstring := js "/w".

Definition site : state :=
  State
    (Scenario.disk_of
       [([js "w"; js "page.html"],
         File (js "<h1>" ++ [LF] ++ js "##include <b.html>"));
        ([js "w"; js "head.html"], File (js "<h1>"));
        ([js "w"; js "body.html"], File (js "##include <b.html>"));
        ([js "w"; js "sub"], Directory);
        ([js "w"; js "sub"; js "copy.html"], File (js "##include <b.html>"));
        ([js "w"; js "b.html"], File (js "Hello"))]) [].

End Pages.

(** Every entry of [σ'] below [O] lies on the way to the image, below [O],
    of a regular file that [σ] holds below [W]. *)
Definition imaged (W O : list jsstring) (σ σ' : gmap (list jsstring) node)
    : Prop :=
  ∀ k, O `prefix_of` k → k ≠ O → is_Some (σ' !! k) →
    ∃ R name content,
      k `prefix_of` O ++ R ++ [name]
      ∧ σ !! (W ++ R ++ [name]) = Some (File content).

(** The regular files of [σ'] are regular files of [σ], with the same
    content. *)
Definition files_from (σ σ' : gmap (list jsstring) node) : Prop :=
  ∀ k content, σ' !! k = Some (File content) → σ !! k = Some (File content).

(** A property [J] of the disk that [processTextFile] and [copyBinaryFile]
    keep, where the walk calls them: for a regular file below the watched
    root [W], at or below the relative path [scope], that the output-root
    test
    does not skip. *)
Definition kept_by_files (cwd : jsstring) (toLowerCase : jsstring → jsstring)
    (util_format : jsstring → jsstring → jsstring)
    (W O : list jsstring) (textExtensions : gset jsstring)
    (includeRoot : jsstring) (maxRecursion : Z)
    (J : gmap (list jsstring) node → Prop) (scope : list jsstring) : Prop :=
  ∀ R name content st,
    Forall segment (R ++ [name]) →
    scope `prefix_of` R ++ [name] →
    disk st !! (W ++ R ++ [name]) = Some (File content) →
    inOutputDir cwd (absolute (W ++ R ++ [name])) (absolute O) = false →
    J (disk st) →
    J (disk
         ((if isTextFile toLowerCase (absolute (W ++ R ++ [name]))
               textExtensions
           then processTextFile cwd (absolute (W ++ R ++ [name]))
                  (absolute O) includeRoot maxRecursion (absolute W)
           else copyBinaryFile cwd util_format (absolute (W ++ R ++ [name]))
                  (absolute O) (absolute W)) st).2).



(** The regular files of [σ'], but the one at [K], are regular files of
    [σ], with the same content. *)
Definition files_from_but (K : list jsstring)
    (σ σ' : gmap (list jsstring) node) : Prop :=
  ∀ k content,
    k ≠ K → σ' !! k = Some (File content) → σ !! k = Some (File content).

(** The regular file [R/name] is below the watched root [W], reached
    through directories, and its image below the output root [O] can be
    written: no regular file lies on the way down to it and it is no
    directory. *)
Definition awaiting (W O R : list jsstring) (name content : jsstring)
    (σ : gmap (list jsstring) node) : Prop :=
  σ !! (W ++ R ++ [name]) = Some (File content)
  ∧ (∀ R', R' `prefix_of` R → σ !! (W ++ R') = Some Directory)
  ∧ way_free σ (O ++ R)
  ∧ σ !! (O ++ R ++ [name]) ≠ Some Directory.

(** * Properties *)

(** ** The library functions, on examples *)

Example split_lf :
  String_split (js "a" ++ [LF] ++ js "b") re_newline = [js "a"; js "b"].
Proof. reflexivity. Qed.

Example split_crlf :
  String_split (js "a" ++ [CR; LF] ++ js "b" ++ [LF]) re_newline
  = [js "a"; js "b"; []].
Proof. reflexivity. Qed.

Example split_lone_cr :
  String_split (js "a" ++ [CR] ++ js "b") re_newline = [js "a" ++ [CR] ++ js "b"].
Proof. reflexivity. Qed.

Example match_simple :
  match_1 <$> String_match (js "##include <b.html>") re_include
  = Some (Some (js "b.html")).
Proof. reflexivity. Qed.

Example match_greedy :
  match_1 <$> String_match (js "##include <a> <b>") re_include
  = Some (Some (js "a> <b")).
Proof. reflexivity. Qed.

Example match_no_space :
  String_match (js "##include<a>") re_include = None.
Proof. reflexivity. Qed.

Example resolve_rel :
  path.resolve (js "/home") [js "/w"; js "b.html"] = js "/w/b.html".
Proof. reflexivity. Qed.

Example resolve_abs :
  path.resolve (js "/home") [js "/w"; js "/etc/passwd"] = js "/etc/passwd".
Proof. reflexivity. Qed.

Example resolve_dots :
  path.resolve (js "/home") [js "/w/x"; js "../a/./b/"] = js "/w/a/b".
Proof. reflexivity. Qed.

Example resolve_cwd :
  path.resolve (js "/home/u") [js "dist"] = js "/home/u/dist".
Proof. reflexivity. Qed.

Example join_ex :
  path.join [js "/w/dist"; js "sub/a.html"] = js "/w/dist/sub/a.html".
Proof. reflexivity. Qed.

Example relative_ex :
  path.relative (js "/") (js "/w") (js "/w/sub/a.html") = js "sub/a.html".
Proof. reflexivity. Qed.

Example relative_up :
  path.relative (js "/") (js "/w/x/y") (js "/w/a") = js "../../a".
Proof. reflexivity. Qed.

Example dirname_ex :
  path.dirname (js "/w/dist/sub/a.html") = js "/w/dist/sub".
Proof. reflexivity. Qed.

Example dirname_root : path.dirname (js "/a") = js "/".
Proof. reflexivity. Qed.

Example dirname_rel : path.dirname (js "a") = js ".".
Proof. reflexivity. Qed.

Example extname_ex : path.extname (js "/w/a.tar.GZ") = js ".GZ".
Proof. reflexivity. Qed.

Example extname_dotfile : path.extname (js "/w/.bashrc") = js "".
Proof. reflexivity. Qed.

Example extname_none : path.extname (js "/w.d/makefile") = js "".
Proof. reflexivity. Qed.

(** ** The program, on examples *)

(** The walk over [/w] with output in [/w/dist]: both files are expanded
    and written. *)
Example walk_hello :
  let st' :=
    (processDirectory Scenario.cwd id Scenario.util_format 8 (js "/w")
      (js "/w/dist")
       {[ js ".html" ]} (js "/w") 10 (js "/w") Scenario.hello).2 in
  disk st' !! [js "w"; js "dist"; js "a.html"]
  = Some (File (js "Hello" ++ [LF; LF]))
  ∧ disk st' !! [js "w"; js "dist"; js "b.html"]
    = Some (File (js "Hello" ++ [LF]))
  ∧ console st'
    = [(stdout, js "Processed text file written to: /w/dist/b.html");
       (stdout, js "Processed text file written to: /w/dist/a.html")].
Proof. repeat split; vm_compute; reflexivity. Qed.

(** A file whose extension is not in the set is copied as it is. *)
Example walk_binary :
  let st' :=
    (processDirectory Scenario.cwd id Scenario.util_format 8 (js "/w")
      (js "/w/dist")
       {[ js ".txt" ]} (js "/w") 10 (js "/w") Scenario.hello).2 in
  disk st' !! [js "w"; js "dist"; js "a.html"]
  = Some (File (js "##include <b.html>")).
Proof. vm_compute. reflexivity. Qed.

(** The reset without [skipDelete] takes the stale file away. *)
Example reset_stale :
  let st' :=
    (resetOutputDirectory Scenario.cwd (js "/w/dist") false
       Scenario.stale).2 in
  disk st' !! [js "w"; js "dist"; js "old.txt"] = None
  ∧ disk st' !! [js "w"; js "dist"] = Some Directory
  ∧ disk st' !! [js "w"; js "dist2"; js "x.html"] = Some (File (js "x")).
Proof. repeat split; vm_compute; reflexivity. Qed.

(** A notification for a changed text file, then the end of the child. *)
Example watch_hello :
  console
    (watchDirectory Scenario.cwd id Scenario.util_format (js "/w")
      (js "/w/dist")
       {[ js ".html" ]} (js "/w") 10
       [change (js "change") (Some (js "b.html")); close (js "0");
        change (js "change") (Some (js "a.html"))]
       (js "/w") Scenario.hello).2
  = [(stdout, js "Watching directory: /w");
     (stdout, js "change b.html");
     (stdout, js "Text file changed: /w/b.html");
     (stdout, js "Processed text file written to: /w/dist/b.html");
     (stdout, js "Child process exited with code 0. Stopping watcher.")].
Proof. vm_compute. reflexivity. Qed.

(** ** The monad and the loop *)

Ltac unfold_monad :=
  unfold mbind, M_bind, mret, M_ret, mthrow, M_throw, try_catch,
    console_log, console_error, print in *.

Lemma bind_eq {A B : Type} (m : M A) (f : A → M B) (st : state) :
  (m ≫= f) st
  = match m st with
    | (Normal a, st') => f a st'
    | (Throw e, st') => (Throw e, st')
    end.
Proof. reflexivity. Qed.

Lemma for_of_app {X A : Type} (xs ys : list X) (body : A → X → M A)
    (acc : A) (st : state) :
  for_of (xs ++ ys) body acc st
  = (acc' ← for_of xs body acc; for_of ys body acc') st.
Proof.
  revert acc st. induction xs as [|x xs IH]; intros acc st; simpl.
  - reflexivity.
  - unfold_monad. destruct (body acc x st) as [[acc'|e] st']; auto.
Qed.

Lemma for_of_ext {X A : Type} (xs : list X) (body1 body2 : A → X → M A) :
  (∀ acc x st, body1 acc x st = body2 acc x st) →
  ∀ acc st, for_of xs body1 acc st = for_of xs body2 acc st.
Proof.
  intros Hbody. induction xs as [|x xs IH]; intros acc st; simpl.
  - reflexivity.
  - unfold_monad. rewrite Hbody.
    destruct (body2 acc x st) as [[acc'|e] st']; auto.
Qed.

(** A property of the state every turn of the loop keeps is kept by the
    loop. *)
Lemma for_of_invariant {X A : Type} (P : state → Prop) (xs : list X)
    (body : A → X → M A) :
  (∀ acc x st, P st → P (body acc x st).2) →
  ∀ acc st, P st → P (for_of xs body acc st).2.
Proof.
  intros Hbody. induction xs as [|x xs IH]; intros acc st HP; simpl.
  - exact HP.
  - unfold_monad. specialize (Hbody acc x st HP).
    destruct (body acc x st) as [[acc'|e] st']; simpl in *; auto.
Qed.

(** ** Strings *)

Lemma startsWith_app (p s : jsstring) : startsWith (p ++ s) p = true.
Proof.
  induction p as [|c p IH]; simpl; [reflexivity|].
  rewrite N.eqb_refl. exact IH.
Qed.

Lemma startsWith_prefix (s p : jsstring) :
  startsWith s p = true ↔ ∃ t, s = p ++ t.
Proof.
  revert s. induction p as [|c p IH]; intros s.
  - split; eauto.
  - destruct s as [|d s]; cbn [startsWith].
    + split; [discriminate|]. intros [t Ht]. discriminate.
    + destruct (N.eqb_spec c d) as [->|Hne].
      * rewrite IH. split; intros [t Ht]; exists t; simpl in *; congruence.
      * split; [discriminate|]. intros [t Ht]. simpl in Ht. congruence.
Qed.

(** ** The pattern [/\r?\n/] and [split] *)

Lemma match_here_newline (s : jsstring) :
  match_here re_newline s =
    match s with
    | c :: s' =>
        if c =? LF then Some (s', None)
        else if c =? CR then
          match s' with
          | d :: s'' => if d =? LF then Some (s'', None) else None
          | [] => None
          end
        else None
    | [] => None
    end.
Proof.
  unfold match_here, re_newline.
  cbn [run startsWith length skipn].
  destruct s as [|c s]; [reflexivity|].
  rewrite (N.eqb_sym CR c), (N.eqb_sym LF c).
  destruct (N.eqb_spec c LF) as [->|HLF]; [reflexivity|].
  destruct (N.eqb_spec c CR) as [->|HCR]; [|reflexivity].
  destruct s as [|d s]; [reflexivity|].
  cbn [skipn]. rewrite (N.eqb_sym LF d).
  destruct (N.eqb_spec d LF) as [->|]; reflexivity.
Qed.

Lemma split_from_newline (n : nat) :
  ∀ (s piece : jsstring), (length s ≤ n)%nat →
    terminated (split_from re_newline piece 0 s)
    = rev piece ++ normalizeTerminators s ++ [LF].
Proof.
  unfold terminated.
  induction n as [|n IH]; intros s piece Hlen.
  - destruct s; [|simpl in Hlen; lia]. simpl. rewrite app_nil_r. reflexivity.
  - destruct s as [|c s]; [simpl; rewrite app_nil_r; reflexivity|].
    simpl in Hlen.
    cbn [split_from]. rewrite match_here_newline.
    destruct (N.eqb_spec c LF) as [->|HLF].
    + replace (length (LF :: s) - length s)%nat with 1%nat by (simpl; lia).
      cbn [map concat]. rewrite (IH s []) by lia.
      rewrite <- !app_assoc. destruct s; reflexivity.
    + destruct (N.eqb_spec c CR) as [->|HCR].
      * destruct s as [|d s].
        { cbn. rewrite <- !app_assoc. reflexivity. }
        destruct (N.eqb_spec d LF) as [->|HdLF].
        { replace (length (CR :: LF :: s) - length s)%nat with 2%nat
            by (simpl; lia).
          cbn [map concat split_from]. simpl in Hlen.
          rewrite (IH s []) by lia.
          rewrite <- !app_assoc. destruct s; reflexivity. }
        rewrite (IH (d :: s) (CR :: piece)) by lia.
        cbn [normalizeTerminators rev].
        rewrite (proj2 (N.eqb_neq d LF)) by assumption.
        rewrite andb_false_r. rewrite <- !app_assoc. reflexivity.
      * rewrite (IH s (c :: piece)) by lia.
        cbn [normalizeTerminators rev].
        rewrite (proj2 (N.eqb_neq c CR)) by assumption.
        rewrite <- !app_assoc. destruct s; reflexivity.
Qed.

(** What the resolver writes for the lines of [content]: the content with
    its terminators normalised, and one terminator more. *)
Lemma terminated_split (content : jsstring) :
  terminated (String_split content re_newline)
  = normalizeTerminators content ++ [LF].
Proof.
  destruct content as [|c s]; [reflexivity|].
  unfold String_split.
  rewrite (split_from_newline (length (c :: s))) by lia. reflexivity.
Qed.

(** ** The pattern [/##include\s+<(.+)>/] and [match] *)

Section Greedy.
Context {R : Type}.

(** No way back: when the continuation refuses every shorter rest, so does
    the quantifier. *)
Lemma plus_greedy_refused (p : N → bool) (b : jsstring)
    (k : jsstring → option R) :
  (∀ b1 b2, b = b1 ++ b2 → b1 ≠ [] → k b2 = None) →
  plus_greedy p b k = None.
Proof.
  induction b as [|c b IH]; intros Hk; simpl; [reflexivity|].
  destruct (p c); [|reflexivity].
  rewrite IH.
  - apply (Hk [c] b); [reflexivity|discriminate].
  - intros b1 b2 -> Hb1. apply (Hk (c :: b1) b2); [reflexivity|discriminate].
Qed.

(** The quantifier gives back down to the longest prefix after which the
    continuation accepts. *)
Lemma plus_greedy_last (p : N → bool) (a b : jsstring)
    (k : jsstring → option R) (x : R) :
  Forall (λ c, p c = true) a → a ≠ [] →
  plus_greedy p b k = None → k b = Some x →
  plus_greedy p (a ++ b) k = Some x.
Proof.
  intros Ha Hne Hb Hk. induction Ha as [|c a Hc Ha IH]; [congruence|].
  simpl. rewrite Hc. destruct a as [|c' a].
  - simpl in *. rewrite Hb. exact Hk.
  - rewrite IH by discriminate. reflexivity.
Qed.

End Greedy.

(** A directive: the marker, white space, and between [<] and the last [>]
    of the line a text without line terminators. *)
Lemma match_here_include (ws t rest : jsstring) :
  Forall (λ c, is_space c = true) ws → ws ≠ [] →
  Forall (λ c, is_dot c = true) t → t ≠ [] →
  GT ∉ rest →
  match_here re_include
    (js "##include" ++ ws ++ LT :: t ++ GT :: rest)
  = Some (rest, Some t).
Proof.
  intros Hws Hws' Ht Ht' Hrest.
  unfold match_here, re_include.
  cbn [run]. rewrite startsWith_app, drop_app_length.
  apply plus_greedy_last; [assumption|assumption|reflexivity|].
  cbn [run].
  change (startsWith (LT :: t ++ GT :: rest) (js "<")) with true.
  cbn [js length String.length skipn].
  apply (plus_greedy_last is_dot t (GT :: rest)); [assumption|assumption| |].
  - apply plus_greedy_refused. intros b1 b2 Hb Hb1.
    destruct b1 as [|c b1]; [congruence|]. injection Hb as -> ->.
    destruct b2 as [|d b2]; [reflexivity|].
    cbn [startsWith js]. 
    destruct (N.eqb_spec (N_of_ascii ">") d) as [<-|]; [|reflexivity].
    exfalso. apply Hrest. apply elem_of_app. right. left.
  - cbn [startsWith js]. change (N_of_ascii ">" =? GT) with true.
    cbn [skipn length]. f_equal. f_equal. f_equal.
    rewrite !drop_0, length_app. cbn [length].
    replace (length t + S (length rest) - S (length rest))%nat
      with (length t) by lia.
    apply take_app_length.
Qed.

Lemma String_match_include (ws t rest : jsstring) :
  Forall (λ c, is_space c = true) ws → ws ≠ [] →
  Forall (λ c, is_dot c = true) t → t ≠ [] →
  GT ∉ rest →
  String_match (js "##include" ++ ws ++ LT :: t ++ GT :: rest) re_include
  = Some (MatchArray (js "##include" ++ ws ++ LT :: t ++ [GT]) (Some t)).
Proof.
  intros Hws Hws' Ht Ht' Hrest.
  destruct (js "##include" ++ ws ++ LT :: t ++ GT :: rest) as [|c l] eqn:E.
  { discriminate. }
  cbn [String_match]. rewrite <- E.
  rewrite match_here_include by assumption. f_equal. f_equal.
  replace (js "##include" ++ ws ++ LT :: t ++ GT :: rest)
    with ((js "##include" ++ ws ++ LT :: t ++ [GT]) ++ rest)
    by (rewrite <- !app_assoc; simpl; rewrite <- !app_assoc; reflexivity).
  rewrite length_app.
  replace (length (js "##include" ++ ws ++ LT :: t ++ [GT]) + length rest
           - length rest)%nat
    with (length (js "##include" ++ ws ++ LT :: t ++ [GT])) by lia.
  apply take_app_length.
Qed.

(** ** One line of the resolver *)

Section Resolver.

Variable cwd : jsstring.

(** A line that does not begin with the marker is copied. *)
Lemma resolveLine_plain (recurse : jsstring → M jsstring)
    (includeRoot acc line : jsstring) (st : state) :
  startsWith line (js "##include") = false →
  resolveLine cwd recurse includeRoot acc line st
  = (Normal (acc ++ line ++ [LF]), st).
Proof. intros H. unfold resolveLine. rewrite H. reflexivity. Qed.

Lemma resolveLine_malformed (recurse : jsstring → M jsstring)
    (includeRoot acc line : jsstring) (st : state) :
  startsWith line (js "##include") = true →
  String_match line re_include = None →
  resolveLine cwd recurse includeRoot acc line st
  = (Normal acc,
     State (disk st)
       (console st
        ++ [(stderr, js "Error: Malformed include directive - " ++ line)])).
Proof. intros H1 H2. unfold resolveLine. rewrite H1, H2. reflexivity. Qed.

Lemma resolveLine_missing (recurse : jsstring → M jsstring)
    (includeRoot acc line : jsstring) (m : match_array) (t : jsstring)
    (st : state) :
  startsWith line (js "##include") = true →
  String_match line re_include = Some m →
  match_1 m = Some t →
  disk st !! fs.key cwd (path.resolve cwd [includeRoot; t]) = None →
  resolveLine cwd recurse includeRoot acc line st
  = (Normal acc,
     State (disk st)
       (console st
        ++ [(stderr, js "Error: File not found - "
                     ++ path.resolve cwd [includeRoot; t])])).
Proof.
  intros H1 H2 H3 H4. unfold resolveLine. rewrite H1, H2, H3.
  unfold fs.existsSync, fs.stat. unfold_monad. rewrite H4. reflexivity.
Qed.

Lemma resolveLine_found (recurse : jsstring → M jsstring)
    (includeRoot acc line : jsstring) (m : match_array) (t : jsstring)
    (n : node) (st : state) :
  startsWith line (js "##include") = true →
  String_match line re_include = Some m →
  match_1 m = Some t →
  disk st !! fs.key cwd (path.resolve cwd [includeRoot; t]) = Some n →
  resolveLine cwd recurse includeRoot acc line st
  = (included ← recurse (path.resolve cwd [includeRoot; t]);
     mret (acc ++ included ++ [LF])) st.
Proof.
  intros H1 H2 H3 H4. unfold resolveLine. rewrite H1, H2, H3.
  unfold fs.existsSync, fs.stat. unfold_monad. rewrite H4. reflexivity.
Qed.

Lemma resolveLine_ext (r1 r2 : jsstring → M jsstring) :
  (∀ p st, r1 p st = r2 p st) →
  ∀ includeRoot acc line st,
    resolveLine cwd r1 includeRoot acc line st
    = resolveLine cwd r2 includeRoot acc line st.
Proof.
  intros Hr includeRoot acc line st. unfold resolveLine.
  destruct (startsWith line (js "##include")); [|reflexivity].
  destruct (String_match line re_include) as [m|]; [|reflexivity].
  destruct (match_1 m) as [t|]; [|reflexivity].
  unfold_monad.
  destruct (fs.existsSync cwd _ st) as [[[|]|e] st']; try reflexivity.
  rewrite Hr. reflexivity.
Qed.

(** A line touches the disk only through the nested call. *)
Lemma resolveLine_disk (recurse : jsstring → M jsstring) :
  (∀ p st, disk (recurse p st).2 = disk st) →
  ∀ includeRoot acc line st,
    disk (resolveLine cwd recurse includeRoot acc line st).2 = disk st.
Proof.
  intros Hr includeRoot acc line st. unfold resolveLine.
  destruct (startsWith line (js "##include")); [|reflexivity].
  destruct (String_match line re_include) as [m|]; [|reflexivity].
  destruct (match_1 m) as [t|]; [|reflexivity].
  unfold fs.existsSync, fs.stat. unfold_monad.
  destruct (disk st !! _); [|reflexivity].
  specialize (Hr (path.resolve cwd [includeRoot; t]) st).
  destruct (recurse _ st) as [[inc|e] st']; exact Hr.
Qed.

(** ** The recursion *)

(** The function, one call deep. *)
Lemma resolveIncludes_on_S (stack : nat) (filePath includeRoot : jsstring)
    (maxRecursion currentDepth : Z) :
  resolveIncludes_on cwd (S stack) filePath includeRoot maxRecursion
    currentDepth
  = if (currentDepth >? maxRecursion)%Z then
      mthrow (new_Error
        (js "Max recursion depth exceeded while processing includes in "
         ++ filePath))
    else
      try_catch
        (fileContent ← fs.readFileSync cwd filePath;
         for_of (String_split fileContent re_newline)
           (resolveLine cwd
              (λ includeFilePath,
                 resolveIncludes_on cwd stack includeFilePath includeRoot
                   maxRecursion (currentDepth + 1)%Z)
              includeRoot)
           [])
        (λ error,
           mthrow (new_Error
             (js "Error processing file " ++ filePath ++ js ": "
              ++ message error))).
Proof. reflexivity. Qed.

Lemma resolveIncludes_on_disk (includeRoot : jsstring) (maxRecursion : Z)
    (stack : nat) :
  ∀ filePath currentDepth st,
    disk (resolveIncludes_on cwd stack filePath includeRoot maxRecursion
            currentDepth st).2 = disk st.
Proof.
  induction stack as [|stack IH]; intros filePath d st; [reflexivity|].
  rewrite resolveIncludes_on_S.
  destruct (d >? maxRecursion)%Z; [reflexivity|].
  unfold try_catch, fs.readFileSync, fs.stat.
  unfold mbind at 1 2. unfold M_bind, mret, M_ret, mthrow, M_throw.
  destruct (disk st !! fs.key cwd filePath) as [[content|]|]; try reflexivity.
  match goal with |- context [for_of ?xs ?body ?acc st] =>
    pose proof (for_of_invariant (λ st', disk st' = disk st) xs body
      ltac:(intros acc' x st' <-; apply resolveLine_disk; intros; apply IH)
      acc st eq_refl) as Hloop;
    destruct (for_of xs body acc st) as [[out|e] st']
  end; exact Hloop.
Qed.

Lemma resolveIncludes_disk (filePath includeRoot : jsstring)
    (maxRecursion currentDepth : Z) (st : state) :
  disk (resolveIncludes cwd filePath includeRoot maxRecursion currentDepth
          st).2 = disk st.
Proof. apply resolveIncludes_on_disk. Qed.

(** The depth check is met before the stack [resolveIncludes] allows for
    is used up: more room changes nothing. *)
Lemma resolveIncludes_on_enough (includeRoot : jsstring) (maxRecursion : Z)
    (n : nat) :
  ∀ stack filePath currentDepth st,
    n = Z.to_nat (maxRecursion + 1 - currentDepth) →
    (S n ≤ stack)%nat →
    resolveIncludes_on cwd stack filePath includeRoot maxRecursion
      currentDepth st
    = resolveIncludes cwd filePath includeRoot maxRecursion currentDepth st.
Proof.
  unfold resolveIncludes.
  induction n as [|n IH]; intros stack filePath d st Hn Hstack;
    rewrite <- Hn; (destruct stack as [|stack]; [lia|]);
    rewrite !resolveIncludes_on_S.
  - replace (d >? maxRecursion)%Z with true by lia. reflexivity.
  - destruct (d >? maxRecursion)%Z eqn:Hd; [reflexivity|].
    unfold_monad.
    destruct (fs.readFileSync cwd filePath st) as [[content|e] st'];
      [|reflexivity].
    erewrite for_of_ext; [reflexivity|].
    intros acc x st''. apply resolveLine_ext. intros p st3.
    rewrite (IH stack p (d + 1)%Z st3) by lia.
    f_equal. lia.
Qed.

End Resolver.

Section Expansion.

Variable cwd : jsstring.

(** The text gathered so far is only ever appended to. *)
Lemma for_of_resolveLine_acc (recurse : jsstring → M jsstring)
    (includeRoot : jsstring) (lines : list jsstring) :
  ∀ acc st,
    for_of lines (resolveLine cwd recurse includeRoot) acc st
    = (out ← for_of lines (resolveLine cwd recurse includeRoot) [];
       mret (acc ++ out)) st.
Proof.
  induction lines as [|line lines IH]; intros acc st.
  - simpl. unfold_monad. rewrite app_nil_r. reflexivity.
  - cbn [for_of]. unfold mbind at 1 2 3. unfold M_bind.
    assert (Hline : resolveLine cwd recurse includeRoot acc line st
      = (out ← resolveLine cwd recurse includeRoot [] line; mret (acc ++ out))
          st).
    { unfold resolveLine.
      destruct (startsWith line (js "##include"));
        [|unfold_monad; reflexivity].
      destruct (String_match line re_include) as [m|];
        [|unfold_monad; rewrite app_nil_r; reflexivity].
      destruct (match_1 m) as [t|]; [|reflexivity].
      unfold_monad.
      destruct (fs.existsSync cwd _ st) as [[[|]|e] st']; try reflexivity.
      - destruct (recurse _ st') as [[inc|e] st'']; reflexivity.
      - rewrite app_nil_r. reflexivity. }
    rewrite Hline. unfold_monad.
    destruct (resolveLine cwd recurse includeRoot [] line st)
      as [[out1|e] st1]; [|reflexivity].
    rewrite (IH (acc ++ out1) st1), (IH out1 st1). unfold_monad.
    destruct (for_of lines (resolveLine cwd recurse includeRoot) [] st1)
      as [[out2|e] st2]; [|reflexivity].
    rewrite app_assoc. reflexivity.
Qed.

Lemma expandLines_app (includeRoot : jsstring) (maxRecursion d : Z)
    (xs ys : list jsstring) (st : state) :
  expandLines cwd includeRoot maxRecursion d (xs ++ ys) st
  = (a ← expandLines cwd includeRoot maxRecursion d xs;
     b ← expandLines cwd includeRoot maxRecursion d ys;
     mret (a ++ b)) st.
Proof.
  unfold expandLines. rewrite for_of_app, !bind_eq.
  destruct (@for_of jsstring jsstring xs _ [] st) as [[a|e] st1];
    [|reflexivity].
  apply for_of_resolveLine_acc.
Qed.

Lemma expandLines_cons (includeRoot : jsstring) (maxRecursion d : Z)
    (line : jsstring) (lines : list jsstring) (st : state) :
  expandLines cwd includeRoot maxRecursion d (line :: lines) st
  = (a ← expandLines cwd includeRoot maxRecursion d [line];
     b ← expandLines cwd includeRoot maxRecursion d lines;
     mret (a ++ b)) st.
Proof. apply (expandLines_app includeRoot maxRecursion d [line] lines). Qed.

(** Lines without the marker are written out, each with its terminator, and
    nothing is printed. *)
Lemma expandLines_plain (includeRoot : jsstring) (maxRecursion d : Z)
    (lines : list jsstring) (st : state) :
  Forall plain lines →
  expandLines cwd includeRoot maxRecursion d lines st
  = (Normal (terminated lines), st).
Proof.
  intros Hplain. induction Hplain as [|line lines Hline Hlines IH].
  - reflexivity.
  - rewrite expandLines_cons, bind_eq.
    unfold expandLines at 1. cbn [for_of]. rewrite bind_eq.
    rewrite resolveLine_plain by exact Hline.
    unfold mret at 1. unfold M_ret. rewrite bind_eq, IH. reflexivity.
Qed.

Lemma expandLines_disk (includeRoot : jsstring) (maxRecursion d : Z)
    (lines : list jsstring) (st : state) :
  disk (expandLines cwd includeRoot maxRecursion d lines st).2 = disk st.
Proof.
  unfold expandLines.
  apply (for_of_invariant (λ st', disk st' = disk st)); [|reflexivity].
  intros acc x st' <-. apply resolveLine_disk. intros.
  apply resolveIncludes_disk.
Qed.

(** Resolving a regular file within the depth: its lines are expanded, and
    an exception is wrapped. *)
Lemma resolveIncludes_file (filePath includeRoot content : jsstring)
    (maxRecursion d : Z) (st : state) :
  file_at cwd (disk st) filePath content →
  (d ≤ maxRecursion)%Z →
  resolveIncludes cwd filePath includeRoot maxRecursion d st
  = try_catch
      (expandLines cwd includeRoot maxRecursion d
         (String_split content re_newline))
      (λ error,
         mthrow (new_Error
           (js "Error processing file " ++ filePath ++ js ": "
            ++ message error))) st.
Proof.
  intros Hfile Hd. unfold resolveIncludes at 1.
  rewrite resolveIncludes_on_S.
  replace (d >? maxRecursion)%Z with false by lia.
  unfold try_catch, fs.readFileSync, fs.stat.
  unfold mbind at 1 2. unfold M_bind, mret, M_ret.
  rewrite Hfile. unfold expandLines.
  erewrite for_of_ext; [reflexivity|].
  intros acc x st'. apply resolveLine_ext. intros p st''.
  apply (resolveIncludes_on_enough cwd includeRoot maxRecursion
           (Z.to_nat (maxRecursion + 1 - (d + 1)))); lia.
Qed.

(** A file without marker lines, within the depth. *)
Lemma resolveIncludes_plain (filePath includeRoot content : jsstring)
    (maxRecursion d : Z) (st : state) :
  file_at cwd (disk st) filePath content →
  Forall plain (String_split content re_newline) →
  (d ≤ maxRecursion)%Z →
  resolveIncludes cwd filePath includeRoot maxRecursion d st
  = (Normal (normalizeTerminators content ++ [LF]), st).
Proof.
  intros Hfile Hplain Hd.
  rewrite (resolveIncludes_file _ _ content) by assumption.
  unfold try_catch. rewrite expandLines_plain by assumption.
  rewrite terminated_split. reflexivity.
Qed.

(** Past the depth, nothing is read. *)
Lemma resolveIncludes_too_deep (filePath includeRoot : jsstring)
    (maxRecursion d : Z) (st : state) :
  (d > maxRecursion)%Z →
  resolveIncludes cwd filePath includeRoot maxRecursion d st
  = (Throw (new_Error
       (js "Max recursion depth exceeded while processing includes in "
        ++ filePath)), st).
Proof.
  intros Hd. unfold resolveIncludes. rewrite resolveIncludes_on_S.
  replace (d >? maxRecursion)%Z with true by lia. reflexivity.
Qed.

End Expansion.

(** ** The claims *)

(** C2, as amended. A regular file none of whose lines begins with the
    marker, resolved within the depth limit, comes back as its lines, in
    order and unchanged, each followed by LF: that is its content with every
    CRLF and LF replaced by LF, and one LF more at the end. Nothing is
    printed and the disk is not touched. *)
Theorem C2_plain_file (cwd : jsstring) (st : state)
    (filePath includeRoot content : jsstring) (maxRecursion : Z) :
  file_at cwd (disk st) filePath content →
  Forall plain (String_split content re_newline) →
  (0 ≤ maxRecursion)%Z →
  resolveIncludes cwd filePath includeRoot maxRecursion 0 st
  = (Normal (terminated (String_split content re_newline)), st)
  ∧ terminated (String_split content re_newline)
    = normalizeTerminators content ++ [LF].
Proof.
  intros Hfile Hplain Hmax. split; [|apply terminated_split].
  rewrite terminated_split. apply resolveIncludes_plain; assumption.
Qed.

Lemma C2_plain_file_witness :
  resolveIncludes Scenario.cwd (js "/w/a.txt") (js "/w") 10 0
    Scenario.one_line
  = (Normal (js "a" ++ [LF; LF]), Scenario.one_line).
Proof.
  apply (C2_plain_file Scenario.cwd Scenario.one_line (js "/w/a.txt")
           (js "/w") (js "a" ++ [LF]) 10).
  - reflexivity.
  - repeat constructor.
  - lia.
Defined.

(** The claim C2 as written fails: the file holding [a] and one LF comes
    back with two, which is not its content with the terminators
    normalised. *)
Lemma C2_counterexample :
  file_at Scenario.cwd (disk Scenario.one_line) (js "/w/a.txt") (js "a" ++ [LF])
  ∧ Forall plain (String_split (js "a" ++ [LF]) re_newline)
  ∧ (resolveIncludes Scenario.cwd (js "/w/a.txt") (js "/w") 10 0
       Scenario.one_line).1
    = Normal (js "a" ++ [LF; LF])
  ∧ (resolveIncludes Scenario.cwd (js "/w/a.txt") (js "/w") 10 0
       Scenario.one_line).1
    ≠ Normal (normalizeTerminators (js "a" ++ [LF])).
Proof.
  split; [reflexivity|]. split; [repeat constructor|].
  split; [vm_compute; reflexivity|].
  vm_compute. discriminate.
Qed.

(** C1, as amended. A directive line of a file resolved at depth
    [currentDepth], whose target is a regular file without marker lines, is
    replaced, provided [currentDepth + 1] is within the depth limit, by the
    expansion of the target and one LF: the target's lines, each followed by
    LF (its content with the terminators normalised, and one LF), and then
    one LF more. What the lines before and after the directive expand to
    goes before and after, unchanged. *)
Theorem C1_directive_splice (cwd : jsstring) (st st1 st2 : state)
    (filePath includeRoot content : jsstring) (maxRecursion currentDepth : Z)
    (before after : list jsstring) (line : jsstring) (m : match_array)
    (t target out1 out2 : jsstring) :
  file_at cwd (disk st) filePath content →
  String_split content re_newline = before ++ line :: after →
  startsWith line (js "##include") = true →
  String_match line re_include = Some m →
  match_1 m = Some t →
  file_at cwd (disk st) (path.resolve cwd [includeRoot; t]) target →
  Forall plain (String_split target re_newline) →
  (currentDepth + 1 ≤ maxRecursion)%Z →
  expandLines cwd includeRoot maxRecursion currentDepth before st
  = (Normal out1, st1) →
  expandLines cwd includeRoot maxRecursion currentDepth after st1
  = (Normal out2, st2) →
  resolveIncludes cwd filePath includeRoot maxRecursion currentDepth st
  = (Normal (out1 ++ (normalizeTerminators target ++ [LF]) ++ [LF] ++ out2),
     st2).
Proof.
  intros Hfile Hlines Hmarker Hmatch Ht Htarget Hplain Hdepth Hbefore Hafter.
  rewrite (resolveIncludes_file cwd _ _ content) by (assumption || lia).
  unfold try_catch.
  rewrite Hlines, expandLines_app, bind_eq, Hbefore.
  rewrite bind_eq, expandLines_cons, !bind_eq.
  assert (Hdisk : disk st1 = disk st).
  { rewrite <- (expandLines_disk cwd includeRoot maxRecursion currentDepth
                  before st). rewrite Hbefore. reflexivity. }
  assert (Htarget1 : file_at cwd (disk st1)
                       (path.resolve cwd [includeRoot; t]) target).
  { unfold file_at. rewrite Hdisk. exact Htarget. }
  unfold expandLines at 1. cbn [for_of]. rewrite bind_eq.
  rewrite (resolveLine_found cwd _ includeRoot [] line m t (File target))
    by assumption.
  rewrite bind_eq.
  rewrite (resolveIncludes_plain cwd _ includeRoot target) by assumption.
  unfold mret at 1 2. unfold M_ret. rewrite bind_eq, Hafter.
  unfold mret, M_ret. cbn [app]. rewrite <- !app_assoc. reflexivity.
Qed.

Lemma C1_directive_splice_witness :
  resolveIncludes Scenario.cwd (js "/w/a.html") (js "/w") 10 0 Scenario.hello
  = (Normal (js "Hello" ++ [LF; LF]), Scenario.hello).
Proof.
  apply (C1_directive_splice Scenario.cwd Scenario.hello Scenario.hello
           Scenario.hello (js "/w/a.html") (js "/w")
           (js "##include <b.html>") 10 0 [] [] (js "##include <b.html>")
           (MatchArray (js "##include <b.html>") (Some (js "b.html")))
           (js "b.html") (js "Hello") [] []);
    try reflexivity.
  - repeat constructor.
  - lia.
Defined.

(** The claim C1 as written fails on its own scenario: with the include
    root the watched root, [a.html] holding the one line
    [##include <b.html>] and [b.html] holding [Hello], the output [a.html]
    is [Hello] and two terminators, not one. *)
Lemma C1_counterexample :
  let st' :=
    (processTextFile Scenario.cwd (js "/w/a.html") (js "/w/dist") (js "/w")
       10 (js "/w") Scenario.hello).2 in
  disk st' !! [js "w"; js "dist"; js "a.html"]
  = Some (File (js "Hello" ++ [LF; LF]))
  ∧ disk st' !! [js "w"; js "dist"; js "a.html"]
    ≠ Some (File (js "Hello" ++ [LF])).
Proof.
  split; [vm_compute; reflexivity|]. vm_compute. discriminate.
Qed.

(** C3, as amended. On a line made of the marker, one or more white-space
    characters, [<], a non-empty text without line terminator, [>] and a
    rest without [>], the target the resolver extracts is the text between
    that [<] and the last [>] of the line (so it may itself hold [<] and
    [>]); the file looked for and resolved in its place is the target
    resolved against the include root by [path.resolve], which takes an
    absolute target as it is. A line that does not begin with the marker is
    never treated as a directive: it is copied, and nothing is looked up or
    printed. *)
Theorem C3_directive_target (cwd : jsstring) (ws t rest : jsstring) :
  Forall (λ c, is_space c = true) ws → ws ≠ [] →
  Forall (λ c, is_dot c = true) t → t ≠ [] →
  GT ∉ rest →
  let line := js "##include" ++ ws ++ LT :: t ++ GT :: rest in
  (match_1 <$> String_match line re_include = Some (Some t))
  ∧ (∀ recurse includeRoot acc st,
       resolveLine cwd recurse includeRoot acc line st
       = (found ← fs.existsSync cwd (path.resolve cwd [includeRoot; t]);
          if found : bool then
            included ← recurse (path.resolve cwd [includeRoot; t]);
            mret (acc ++ included ++ [LF])
          else
            console_error
              (js "Error: File not found - "
               ++ path.resolve cwd [includeRoot; t]);;
            mret acc) st)
  ∧ (∀ includeRoot,
       path.isAbsolute t = true →
       path.resolve cwd [includeRoot; t] = path.resolve cwd [t])
  ∧ (∀ other recurse includeRoot acc st,
       startsWith other (js "##include") = false →
       resolveLine cwd recurse includeRoot acc other st
       = (Normal (acc ++ other ++ [LF]), st)).
Proof.
  intros Hws Hws' Ht Ht' Hrest line.
  assert (Hmatch : String_match line re_include
    = Some (MatchArray (js "##include" ++ ws ++ LT :: t ++ [GT]) (Some t)))
    by (apply String_match_include; assumption).
  split; [rewrite Hmatch; reflexivity|].
  split; [|split].
  - intros recurse includeRoot acc st. unfold resolveLine.
    unfold line at 1. rewrite startsWith_app. fold line. rewrite Hmatch.
    reflexivity.
  - intros includeRoot Habs. unfold path.resolve. cbn [rev app].
    destruct t as [|c t']; [congruence|].
    cbn [path.resolve_loop]. rewrite Habs. reflexivity.
  - intros other recurse includeRoot acc st Hother.
    apply resolveLine_plain. exact Hother.
Qed.

Lemma C3_directive_target_witness :
  match_1 <$> String_match (js "##include <a> <b>") re_include
  = Some (Some (js "a> <b")).
Proof.
  apply (C3_directive_target Scenario.cwd (js " ") (js "a> <b") []).
  - repeat constructor.
  - discriminate.
  - repeat constructor.
  - discriminate.
  - apply not_elem_of_nil.
Defined.

(** The claim C3 as written fails: the line [##include <a> <b>] begins with
    the marker and has a [<] and a later [>]; the text between its first [<]
    and the next [>] is [a], the target the resolver extracts is [a> <b].
    And on [##include<a>], which lacks the white space, no target is
    extracted at all. *)
Lemma C3_counterexample :
  let line := js "##include <a> <b>" in
  startsWith line (js "##include") = true
  ∧ first_bracketed line = Some (js "a")
  ∧ match_1 <$> String_match line re_include = Some (Some (js "a> <b"))
  ∧ match_1 <$> String_match line re_include
    ≠ Some (first_bracketed line)
  ∧ first_bracketed (js "##include<a>") = Some (js "a")
  ∧ String_match (js "##include<a>") re_include = None.
Proof.
  repeat split; try reflexivity. vm_compute. discriminate.
Qed.

(** ** Lines that leave nothing in the output *)

Section Dropped.

Variable cwd : jsstring.

(** A line whose turn of the loop only prints [text] is dropped from the
    expansion of its file; the lines before and after are expanded as they
    would be without it. *)
Lemma resolveIncludes_dropped_line (filePath includeRoot content : jsstring)
    (maxRecursion d : Z) (before after : list jsstring)
    (line text : jsstring) (st : state) :
  (∀ st', disk st' = disk st →
     expandLines cwd includeRoot maxRecursion d [line] st'
     = (Normal [],
        State (disk st') (console st' ++ [(stderr, text)]))) →
  file_at cwd (disk st) filePath content →
  String_split content re_newline = before ++ line :: after →
  (d ≤ maxRecursion)%Z →
  resolveIncludes cwd filePath includeRoot maxRecursion d st
  = try_catch
      (a ← expandLines cwd includeRoot maxRecursion d before;
       console_error text;;
       b ← expandLines cwd includeRoot maxRecursion d after;
       mret (a ++ b))
      (λ error,
         mthrow (new_Error
           (js "Error processing file " ++ filePath ++ js ": "
            ++ message error))) st.
Proof.
  intros Hline Hfile Hlines Hd.
  rewrite (resolveIncludes_file cwd _ _ content) by assumption.
  unfold try_catch. rewrite Hlines, expandLines_app, !bind_eq.
  pose proof (expandLines_disk cwd includeRoot maxRecursion d before st)
    as Hdisk.
  destruct (expandLines cwd includeRoot maxRecursion d before st)
    as [[a|e] st1]; [|reflexivity].
  simpl in Hdisk.
  rewrite bind_eq, expandLines_cons, !bind_eq, (Hline st1 Hdisk).
  unfold console_error, print. rewrite !bind_eq.
  destruct (expandLines cwd includeRoot maxRecursion d after _)
    as [[b|e] st2]; reflexivity.
Qed.

End Dropped.

(** C7. A line that begins with the marker and does not match the pattern
    of a directive: the diagnostic is printed on the error stream, the text
    gathered so far is left as it is, and the loop goes on with the lines
    that follow. In the expansion of a file, the lines before and after are
    expanded as usual and the line leaves nothing between them. *)
Theorem C7_malformed_directive (cwd : jsstring) (line : jsstring) :
  startsWith line (js "##include") = true →
  String_match line re_include = None →
  let text := js "Error: Malformed include directive - " ++ line in
  (∀ recurse includeRoot acc st,
     resolveLine cwd recurse includeRoot acc line st
     = (Normal acc, State (disk st) (console st ++ [(stderr, text)])))
  ∧ (∀ recurse includeRoot acc rest st,
       for_of (line :: rest) (resolveLine cwd recurse includeRoot) acc st
       = for_of rest (resolveLine cwd recurse includeRoot) acc
           (State (disk st) (console st ++ [(stderr, text)])))
  ∧ (∀ filePath includeRoot content maxRecursion currentDepth before after
       st,
       file_at cwd (disk st) filePath content →
       String_split content re_newline = before ++ line :: after →
       (currentDepth ≤ maxRecursion)%Z →
       resolveIncludes cwd filePath includeRoot maxRecursion currentDepth st
       = try_catch
           (a ← expandLines cwd includeRoot maxRecursion currentDepth before;
            console_error text;;
            b ← expandLines cwd includeRoot maxRecursion currentDepth after;
            mret (a ++ b))
           (λ error,
              mthrow (new_Error
                (js "Error processing file " ++ filePath ++ js ": "
                 ++ message error))) st).
Proof.
  intros Hmarker Hmatch text.
  assert (Hline : ∀ recurse includeRoot acc st,
    resolveLine cwd recurse includeRoot acc line st
    = (Normal acc, State (disk st) (console st ++ [(stderr, text)])))
    by (intros; apply resolveLine_malformed; assumption).
  split; [exact Hline|]. split.
  - intros recurse includeRoot acc rest st. cbn [for_of].
    rewrite bind_eq, Hline. reflexivity.
  - intros filePath includeRoot content maxRecursion d before after st
      Hfile Hlines Hd.
    apply (resolveIncludes_dropped_line cwd _ _ content _ _ before after line);
      try assumption.
    intros st' _. unfold expandLines. cbn [for_of].
    rewrite bind_eq, Hline. reflexivity.
Qed.

Lemma C7_malformed_directive_witness :
  resolveLine Scenario.cwd (λ _, mret []) (js "/w") (js "kept")
    (js "##include b.html") Scenario.hello
  = (Normal (js "kept"),
     State (disk Scenario.hello)
       [(stderr,
         js "Error: Malformed include directive - ##include b.html")]).
Proof.
  apply (C7_malformed_directive Scenario.cwd (js "##include b.html"));
    reflexivity.
Defined.

(** C8. A directive whose target, resolved against the include root, names
    nothing on disk: the diagnostic is printed on the error stream, nothing
    is put in the place of the line, and the loop goes on with the lines
    that follow; the expansion of the file is that of the lines before and
    of the lines after. *)
Theorem C8_missing_target (cwd : jsstring) (line : jsstring)
    (m : match_array) (t includeRoot : jsstring) :
  startsWith line (js "##include") = true →
  String_match line re_include = Some m →
  match_1 m = Some t →
  let includeFilePath := path.resolve cwd [includeRoot; t] in
  let text := js "Error: File not found - " ++ includeFilePath in
  (∀ recurse acc st,
     disk st !! fs.key cwd includeFilePath = None →
     resolveLine cwd recurse includeRoot acc line st
     = (Normal acc, State (disk st) (console st ++ [(stderr, text)])))
  ∧ (∀ recurse acc rest st,
       disk st !! fs.key cwd includeFilePath = None →
       for_of (line :: rest) (resolveLine cwd recurse includeRoot) acc st
       = for_of rest (resolveLine cwd recurse includeRoot) acc
           (State (disk st) (console st ++ [(stderr, text)])))
  ∧ (∀ filePath content maxRecursion currentDepth before after st,
       disk st !! fs.key cwd includeFilePath = None →
       file_at cwd (disk st) filePath content →
       String_split content re_newline = before ++ line :: after →
       (currentDepth ≤ maxRecursion)%Z →
       resolveIncludes cwd filePath includeRoot maxRecursion currentDepth st
       = try_catch
           (a ← expandLines cwd includeRoot maxRecursion currentDepth before;
            console_error text;;
            b ← expandLines cwd includeRoot maxRecursion currentDepth after;
            mret (a ++ b))
           (λ error,
              mthrow (new_Error
                (js "Error processing file " ++ filePath ++ js ": "
                 ++ message error))) st).
Proof.
  intros Hmarker Hmatch Ht includeFilePath text.
  assert (Hline : ∀ recurse acc st,
    disk st !! fs.key cwd includeFilePath = None →
    resolveLine cwd recurse includeRoot acc line st
    = (Normal acc, State (disk st) (console st ++ [(stderr, text)])))
    by (intros; apply (resolveLine_missing cwd _ _ _ _ m t); assumption).
  split; [exact Hline|]. split.
  - intros recurse acc rest st Hmissing. cbn [for_of].
    rewrite bind_eq, Hline by assumption. reflexivity.
  - intros filePath content maxRecursion d before after st Hmissing
      Hfile Hlines Hd.
    apply (resolveIncludes_dropped_line cwd _ _ content _ _ before after line);
      try assumption.
    intros st' Hdisk. unfold expandLines. cbn [for_of].
    rewrite bind_eq, Hline by (rewrite Hdisk; assumption). reflexivity.
Qed.

Lemma C8_missing_target_witness :
  resolveLine Scenario.cwd (λ _, mret []) (js "/w") (js "kept")
    (js "##include <c.html>") Scenario.hello
  = (Normal (js "kept"),
     State (disk Scenario.hello)
       [(stderr, js "Error: File not found - /w/c.html")]).
Proof.
  apply (C8_missing_target Scenario.cwd (js "##include <c.html>")
           (MatchArray (js "##include <c.html>") (Some (js "c.html")))
           (js "c.html") (js "/w"));
    reflexivity.
Defined.

(** A failed expansion, seen from [processTextFile]. *)
Lemma processTextFile_failed (cwd : jsstring)
    (filePath outputDir includeRoot watchRoot : jsstring) (maxRecursion : Z)
    (e : Error) (st st1 : state) :
  resolveIncludes cwd filePath includeRoot maxRecursion 0 st
  = (Throw e, st1) →
  processTextFile cwd filePath outputDir includeRoot maxRecursion watchRoot st
  = (Normal (), State (disk st) (console st1 ++ [(stderr, message e)])).
Proof.
  intros Hfail.
  assert (Hdisk : disk st1 = disk st).
  { rewrite <- (resolveIncludes_disk cwd filePath includeRoot maxRecursion 0
                  st). rewrite Hfail. reflexivity. }
  unfold processTextFile, try_catch. rewrite bind_eq, Hfail.
  unfold console_error, print. rewrite Hdisk. reflexivity.
Qed.

(** C5. When the expansion of a text file fails (on the depth limit, or
    otherwise), [processTextFile] writes nothing: the disk is left as it
    was, so the output file is not created and an older one is not touched.
    The exception is caught, its message printed on the error stream, and
    the call returns normally, so that whatever comes next runs: the walk
    goes on with the entries that follow, the watcher with the
    notifications that follow. *)
Theorem C5_failed_expansion_writes_nothing (cwd : jsstring)
    (toLowerCase : jsstring → jsstring)
    (util_format : jsstring → jsstring → jsstring)
    (outputDir includeRoot watchRoot : jsstring) (maxRecursion : Z)
    (textExtensions : gset jsstring) :
  (∀ filePath e st st1,
     resolveIncludes cwd filePath includeRoot maxRecursion 0 st
     = (Throw e, st1) →
     let st' := State (disk st) (console st1 ++ [(stderr, message e)]) in
     processTextFile cwd filePath outputDir includeRoot maxRecursion
       watchRoot st
     = (Normal (), st')
     ∧ ∀ (A : Type) (next : M A),
         (processTextFile cwd filePath outputDir includeRoot maxRecursion
            watchRoot;; next) st
         = next st')
  ∧ (∀ recurse (inputDir file : jsstring) later content e st st1,
       let filePath := path.join [inputDir; file] in
       inOutputDir cwd filePath outputDir = false →
       file_at cwd (disk st) filePath content →
       isTextFile toLowerCase filePath textExtensions = true →
       resolveIncludes cwd filePath includeRoot maxRecursion 0 st
       = (Throw e, st1) →
       for_of (file :: later)
         (λ _ file,
            processEntry cwd toLowerCase util_format recurse inputDir outputDir
              textExtensions includeRoot maxRecursion watchRoot file) () st
       = for_of later
           (λ _ file,
              processEntry cwd toLowerCase util_format recurse inputDir
                outputDir
                textExtensions includeRoot maxRecursion watchRoot file) ()
           (State (disk st) (console st1 ++ [(stderr, message e)])))
  ∧ (∀ (directory eventType : jsstring) (c : N) (filename : jsstring) later
       content e st st1,
       let filePath := path.join [directory; c :: filename] in
       let told :=
         State (disk st)
           (console st
            ++ [(stdout, eventType ++ js " " ++ c :: filename);
                (stdout, js "Text file changed: " ++ filePath)]) in
       inOutputDir cwd filePath outputDir = false →
       file_at cwd (disk st) filePath content →
       isTextFile toLowerCase filePath textExtensions = true →
       resolveIncludes cwd filePath includeRoot maxRecursion 0 told
       = (Throw e, st1) →
       deliver cwd toLowerCase util_format directory outputDir textExtensions
         includeRoot maxRecursion watchRoot
         (change eventType (Some (c :: filename)) :: later) st
       = deliver cwd toLowerCase util_format directory outputDir textExtensions
           includeRoot maxRecursion watchRoot later
           (State (disk st) (console st1 ++ [(stderr, message e)]))).
Proof.
  split; [|split].
  - intros filePath e st st1 Hfail st'.
    pose proof (processTextFile_failed cwd filePath outputDir includeRoot
                  watchRoot maxRecursion e st st1 Hfail) as Hrun.
    split; [exact Hrun|].
    intros A next. rewrite bind_eq, Hrun. reflexivity.
  - intros recurse inputDir file later content e st st1 filePath
      Hout Hfile Htext Hfail.
    cbn [for_of]. rewrite bind_eq. unfold processEntry at 1.
    pose proof (processTextFile_failed cwd filePath outputDir includeRoot
                  watchRoot maxRecursion e st st1 Hfail) as Hrun.
    subst filePath. rewrite Hout.
    unfold fs.lstatSync, fs.stat. rewrite !bind_eq.
    unfold file_at in Hfile. rewrite Hfile.
    unfold mret at 1. unfold M_ret. cbn [fs.isDirectory].
    rewrite Htext, Hrun. reflexivity.
  - intros directory eventType c filename later content e st st1 filePath
      told Hout Hfile Htext Hfail.
    cbn [deliver]. rewrite bind_eq. unfold onChange.
    unfold fs.existsSync, fs.lstatSync, fs.stat, console_log, print.
    unfold mbind, M_bind, mret, M_ret. cbn [disk console default].
    pose proof (processTextFile_failed cwd filePath outputDir includeRoot
                  watchRoot maxRecursion e told st1 Hfail) as Hrun.
    unfold file_at in Hfile. subst filePath told. unfold jsstring in *.
    rewrite Hout. cbn beta iota. cbn [disk console]. rewrite Hfile.
    cbn beta iota. cbn [disk console]. rewrite Hfile.
    cbn beta iota. cbn [fs.isFile]. rewrite Htext.
    cbn beta iota. cbn [disk console from_option]. unfold id.
    rewrite <- (app_assoc (console st)). cbn [app].
    match goal with
    | |- (let (_, _) := ?run in _) = _ =>
        replace run
          with (Normal (),
                State (disk st) (console st1 ++ [(stderr, message e)]))
          by (symmetry; exact Hrun)
    end.
    reflexivity.
Qed.

Lemma C5_failed_expansion_writes_nothing_witness :
  processTextFile Scenario.cwd (js "/w/a.html") (js "/w/dist") (js "/w") 1
    (js "/w") Scenario.selfish
  = (Normal (),
     State (disk Scenario.selfish)
       [(stderr,
         js "Error processing file /w/a.html: Error processing file /w/a.html: Max recursion depth exceeded while processing includes in /w/a.html")]).
Proof.
  destruct (C5_failed_expansion_writes_nothing Scenario.cwd id
              Scenario.util_format
              (js "/w/dist") (js "/w") (js "/w") 1 {[ js ".html" ]})
    as [Hdirect _].
  apply (Hdirect (js "/w/a.html")
           (new_Error (js "Error processing file /w/a.html: Error processing file /w/a.html: Max recursion depth exceeded while processing includes in /w/a.html"))
           Scenario.selfish Scenario.selfish).
  vm_compute. reflexivity.
Defined.

(** ** Chains of includes *)

Section Chains.

Variable cwd : jsstring.

Lemma chain_top_is_file (σ : gmap (list jsstring) node)
    (includeRoot top bottom : jsstring) (includers : list jsstring) :
  chain cwd σ includeRoot top includers bottom →
  ∃ content, file_at cwd σ top content.
Proof. intros H. destruct H; eauto. Qed.

(** Lines that lead to no nested call are expanded with success, whatever
    they print. *)
Lemma expandLines_inert (includeRoot : jsstring) (maxRecursion d : Z)
    (lines : list jsstring) :
  ∀ st,
    Forall (inert cwd (disk st) includeRoot) lines →
    ∃ out st',
      expandLines cwd includeRoot maxRecursion d lines st = (Normal out, st')
      ∧ disk st' = disk st.
Proof.
  induction lines as [|line lines IH]; intros st Hinert.
  - exists [], st. split; reflexivity.
  - apply Forall_cons in Hinert as [Hline Hlines].
    assert (Hstep : ∃ out1 st1,
      expandLines cwd includeRoot maxRecursion d [line] st
      = (Normal out1, st1) ∧ disk st1 = disk st).
    { unfold expandLines. cbn [for_of]. rewrite bind_eq.
      destruct Hline as [Hplain|[[Hmarker Hnone]|(m & t & Hmarker & Hmatch
                                                   & Ht & Hmissing)]].
      - rewrite resolveLine_plain by assumption. eexists _, _.
        split; reflexivity.
      - rewrite resolveLine_malformed by assumption. eexists _, _.
        split; reflexivity.
      - rewrite (resolveLine_missing cwd _ _ _ _ m t) by assumption.
        eexists _, _. split; reflexivity. }
    destruct Hstep as (out1 & st1 & Hrun1 & Hdisk1).
    destruct (IH st1) as (out2 & st2 & Hrun2 & Hdisk2).
    { rewrite Hdisk1. exact Hlines. }
    exists (out1 ++ out2), st2. split; [|congruence].
    rewrite expandLines_cons, bind_eq, Hrun1, bind_eq, Hrun2. reflexivity.
Qed.

Lemma chain_resolve (σ : gmap (list jsstring) node)
    (includeRoot : jsstring) (maxRecursion : Z)
    (top bottom : jsstring) (includers : list jsstring) :
  chain cwd σ includeRoot top includers bottom →
  ∀ (d : Z) (st : state),
    disk st = σ →
    ((d + Z.of_nat (length includers) ≤ maxRecursion)%Z →
     ∃ out st',
       resolveIncludes cwd top includeRoot maxRecursion d st
       = (Normal out, st')
       ∧ disk st' = σ)
    ∧ ((d + Z.of_nat (length includers) = maxRecursion + 1)%Z →
       ∃ st',
         resolveIncludes cwd top includeRoot maxRecursion d st
         = (Throw (new_Error (depth_exceeded_in includers bottom)), st')
         ∧ disk st' = σ).
Proof.
  intros Hchain.
  induction Hchain as
    [filePath content Hfile Hinert
    |filePath content before after line m t includers bottom Hfile Hlines
       Hbefore Hafter Hmarker Hmatch Ht Hchain IH]; intros d st Hst.
  - cbn [length depth_exceeded_in]. split; intros Hd.
    + rewrite (resolveIncludes_file cwd _ _ content)
        by (rewrite ?Hst; assumption || lia).
      unfold try_catch.
      destruct (expandLines_inert includeRoot maxRecursion d
                  (String_split content re_newline) st)
        as (out & st' & Hrun & Hdisk).
      { rewrite Hst. exact Hinert. }
      rewrite Hrun. exists out, st'. split; [reflexivity|congruence].
    + exists st. split; [|exact Hst]. apply resolveIncludes_too_deep. lia.
  - destruct (chain_top_is_file _ _ _ _ _ Hchain) as [target Htarget].
    cbn [length depth_exceeded_in].
    destruct (expandLines_inert includeRoot maxRecursion d before st)
      as (out1 & st1 & Hrun1 & Hdisk1).
    { rewrite Hst. exact Hbefore. }
    assert (Hst1 : disk st1 = σ) by congruence.
    assert (Hstep : ∀ r st2,
      resolveIncludes cwd (path.resolve cwd [includeRoot; t]) includeRoot
        maxRecursion (d + 1)%Z st1 = (r, st2) →
      (d ≤ maxRecursion)%Z →
      resolveIncludes cwd filePath includeRoot maxRecursion d st
      = match r with
        | Normal included =>
            try_catch
              (b ← expandLines cwd includeRoot maxRecursion d after;
               mret (out1 ++ (included ++ [LF]) ++ b))
              (λ error,
                 mthrow (new_Error
                   (js "Error processing file " ++ filePath ++ js ": "
                    ++ message error))) st2
        | Throw e =>
            (Throw (new_Error (js "Error processing file " ++ filePath
                               ++ js ": " ++ message e)), st2)
        end).
    { intros r st2 Hr Hd.
      rewrite (resolveIncludes_file cwd _ _ content)
        by (rewrite ?Hst; assumption).
      unfold try_catch.
      rewrite Hlines, expandLines_app, bind_eq, Hrun1.
      rewrite bind_eq, expandLines_cons, !bind_eq.
      unfold expandLines at 1. cbn [for_of]. rewrite bind_eq.
      rewrite (resolveLine_found cwd _ includeRoot [] line m t (File target))
        by (rewrite ?Hst1; assumption).
      rewrite bind_eq, Hr. destruct r as [included|e]; [|reflexivity].
      unfold mret at 1 2. unfold M_ret. unfold try_catch. rewrite !bind_eq.
      destruct (expandLines cwd includeRoot maxRecursion d after st2)
        as [[b|e] st3]; reflexivity. }
    destruct (IH (d + 1)%Z st1 Hst1) as [IHok IHfail]. split; intros Hd.
    + destruct IHok as (included & st2 & Hincluded & Hst2); [lia|].
      rewrite (Hstep _ _ Hincluded) by lia.
      destruct (expandLines_inert includeRoot maxRecursion d after st2)
        as (out2 & st3 & Hrun2 & Hdisk2).
      { rewrite Hst2. exact Hafter. }
      unfold try_catch. rewrite bind_eq, Hrun2. eexists _, st3.
      split; [reflexivity|congruence].
    + destruct IHfail as (st2 & Hfailed & Hst2); [lia|].
      rewrite (Hstep _ _ Hfailed) by lia. exists st2.
      split; [reflexivity|exact Hst2].
Qed.

End Chains.

(** C4. The top-level file is resolved at depth 0 and a nested include at
    the depth of its includer plus one. For a linear chain of [N] nested
    includes, the expansion of the top file succeeds when [N] is at most
    [maxRecursion]; when [N] is [maxRecursion + 1] it fails, and the
    message, under the names of the files that were being resolved, is the
    depth failure that names the file at the bottom of the chain, the one
    reached past the limit. *)
Theorem C4_chain_depth (cwd : jsstring) (st : state)
    (includeRoot : jsstring) (maxRecursion : Z) (top bottom : jsstring)
    (includers : list jsstring) (N : nat) :
  chain cwd (disk st) includeRoot top includers bottom →
  N = length includers →
  ((Z.of_nat N ≤ maxRecursion)%Z →
   ∃ out st',
     resolveIncludes cwd top includeRoot maxRecursion 0 st
     = (Normal out, st'))
  ∧ ((Z.of_nat N = maxRecursion + 1)%Z →
     ∃ st',
       resolveIncludes cwd top includeRoot maxRecursion 0 st
       = (Throw (new_Error (depth_exceeded_in includers bottom)), st')).
Proof.
  intros Hchain ->.
  destruct (chain_resolve cwd (disk st) includeRoot maxRecursion top bottom
              includers Hchain 0 st eq_refl) as [Hok Hfail].
  split; intros HN.
  - destruct Hok as (out & st' & Hrun & _); [lia|]. eauto.
  - destruct Hfail as (st' & Hrun & _); [lia|]. eauto.
Qed.

Lemma C4_chain_depth_witness :
  (∃ out st',
     resolveIncludes Scenario.cwd (js "/w/a.html") (js "/w") 2 0
       Scenario.three
     = (Normal out, st'))
  ∧ ∃ st',
      resolveIncludes Scenario.cwd (js "/w/a.html") (js "/w") 1 0
        Scenario.three
      = (Throw (new_Error (js "Error processing file /w/a.html: Error processing file /w/b.html: Max recursion depth exceeded while processing includes in /w/c.html")),
         st').
Proof.
  assert (Hchain :
    chain Scenario.cwd (disk Scenario.three) (js "/w") (js "/w/a.html")
      [js "/w/a.html"; js "/w/b.html"] (js "/w/c.html")).
  { apply (chain_include _ _ _ (js "/w/a.html") (js "##include <b.html>")
             [] [] (js "##include <b.html>")
             (MatchArray (js "##include <b.html>") (Some (js "b.html")))
             (js "b.html")); try reflexivity; try constructor.
    apply (chain_include _ _ _ (js "/w/b.html") (js "##include <c.html>")
             [] [] (js "##include <c.html>")
             (MatchArray (js "##include <c.html>") (Some (js "c.html")))
             (js "c.html")); try reflexivity; try constructor.
    apply (chain_bottom _ _ _ (js "/w/c.html") (js "end"));
      [reflexivity|].
    repeat constructor. }
  split.
  - apply (C4_chain_depth Scenario.cwd Scenario.three (js "/w") 2
             (js "/w/a.html") (js "/w/c.html")
             [js "/w/a.html"; js "/w/b.html"] 2 Hchain eq_refl).
    simpl. lia.
  - apply (C4_chain_depth Scenario.cwd Scenario.three (js "/w") 1
             (js "/w/a.html") (js "/w/c.html")
             [js "/w/a.html"; js "/w/b.html"] 2 Hchain eq_refl).
    reflexivity.
Defined.

(** ** Files that include themselves *)

Lemma plus_greedy_Some {R : Type} (p : N → bool) (s : jsstring)
    (k : jsstring → option R) (x : R) :
  plus_greedy p s k = Some x → ∃ s', k s' = Some x.
Proof.
  induction s as [|c s IH]; simpl; [discriminate|].
  destruct (p c); [|discriminate].
  destruct (plus_greedy p s k) as [y|] eqn:E.
  - intros [= ->]. apply IH. reflexivity.
  - eauto.
Qed.

(** The group of the directive pattern takes part in every match. *)
Lemma match_here_include_group (s rest : jsstring) (cap : option jsstring) :
  match_here re_include s = Some (rest, cap) → is_Some cap.
Proof.
  unfold match_here, re_include. cbn [run].
  destruct (startsWith s (js "##include")); [|discriminate].
  intros H. apply plus_greedy_Some in H as [s1 H].
  destruct (startsWith s1 (js "<")); [|discriminate].
  apply plus_greedy_Some in H as [s2 H].
  destruct (startsWith s2 (js ">")); [|discriminate].
  injection H as _ <-. eauto.
Qed.

Lemma String_match_include_group (line : jsstring) (m : match_array) :
  String_match line re_include = Some m → is_Some (match_1 m).
Proof.
  induction line as [|c line IH]; cbn [String_match].
  - destruct (match_here re_include []) as [[rest cap]|] eqn:E;
      [|discriminate].
    intros [= <-]. apply (match_here_include_group _ _ _ E).
  - destruct (match_here re_include (c :: line)) as [[rest cap]|] eqn:E.
    + intros [= <-]. apply (match_here_include_group _ _ _ E).
    + exact IH.
Qed.

Section Cycles.

Variable cwd : jsstring.
Variable includeRoot : jsstring.
Variable maxRecursion : Z.

Lemma targets_are_files_step (σ : gmap (list jsstring) node)
    (f g : jsstring) :
  targets_are_files cwd σ includeRoot f →
  includes cwd σ includeRoot f g →
  targets_are_files cwd σ includeRoot g.
Proof.
  intros Hf Hfg h Hgh. apply Hf. eapply rtc_l; eassumption.
Qed.

(** The loop over lines of [f] fails only as a nested call fails. *)
Lemma for_of_failure (recurse : jsstring → M jsstring)
    (P : Error → Prop) (σ : gmap (list jsstring) node)
    (f content : jsstring) :
  file_at cwd σ f content →
  (∀ p st, disk (recurse p st).2 = disk st) →
  (∀ g st e st',
     disk st = σ → includes cwd σ includeRoot f g →
     recurse g st = (Throw e, st') → P e) →
  ∀ lines acc st e st',
    lines ⊆ String_split content re_newline →
    disk st = σ →
    for_of lines (resolveLine cwd recurse includeRoot) acc st
    = (Throw e, st') →
    P e.
Proof.
  intros Hfile Hdisk Hrec lines.
  induction lines as [|line lines IH]; intros acc st e st' Hsub Hst;
    cbn [for_of]; [discriminate|].
  rewrite bind_eq.
  pose proof (resolveLine_disk cwd recurse Hdisk includeRoot acc line st)
    as Hstep.
  destruct (resolveLine cwd recurse includeRoot acc line st)
    as [[acc'|e1] st1] eqn:Hline.
  - apply IH; [set_solver|]. simpl in Hstep. congruence.
  - intros [= <- <-]. revert Hline. unfold resolveLine.
    destruct (startsWith line (js "##include")) eqn:Hmarker;
      [|discriminate].
    destruct (String_match line re_include) as [m|] eqn:Hmatch;
      [|discriminate].
    destruct (String_match_include_group _ _ Hmatch) as [t Ht]. rewrite Ht.
    unfold fs.existsSync, fs.stat. rewrite !bind_eq.
    destruct (disk st !! fs.key cwd (path.resolve cwd [includeRoot; t]))
      as [n|] eqn:Hfound; [|discriminate].
    unfold mret at 1. unfold M_ret. rewrite bind_eq.
    destruct (recurse (path.resolve cwd [includeRoot; t]) st)
      as [[included|e2] st2] eqn:Hnested; [discriminate|].
    intros [= <- <-]. apply (Hrec _ _ _ _ Hst) in Hnested; [assumption|].
    exists content, line, m, t.
    repeat split; try assumption; [set_solver|].
    rewrite <- Hst, Hfound. eauto.
Qed.

(** When every target is a regular file, nothing fails but the depth
    check, and it fails in the call one level past the limit: as many
    levels below the file as there are from its depth to the limit, and one
    more. *)
Lemma only_depth_failures (n : nat) :
  ∀ f d st e st',
    n = Z.to_nat (maxRecursion + 1 - d) →
    targets_are_files cwd (disk st) includeRoot f →
    resolveIncludes cwd f includeRoot maxRecursion d st = (Throw e, st') →
    depth_exceeded_below cwd (disk st) includeRoot f n e.
Proof.
  induction n as [|n IH]; intros f d st e st' Hn Hfiles.
  - rewrite resolveIncludes_too_deep by lia. intros [= <- _].
    exists [], f. split; [constructor|]. split; reflexivity.
  - destruct (Hfiles f (rtc_refl _ _)) as [content Hfile].
    rewrite (resolveIncludes_file cwd _ _ content) by (assumption || lia).
    unfold try_catch.
    destruct (expandLines cwd includeRoot maxRecursion d
                (String_split content re_newline) st)
      as [[out|e0] st0] eqn:Hloop; [discriminate|].
    intros [= <- _].
    unfold expandLines in Hloop.
    apply (for_of_failure _
             (λ e1, ∃ g, includes cwd (disk st) includeRoot f g
                         ∧ depth_exceeded_below cwd (disk st) includeRoot g
                             n e1)
             (disk st) f content Hfile)
      in Hloop; try done.
    + destruct Hloop as (g & Hfg & includers & bottom & Hway & Hlen & He).
      exists (f :: includers), bottom. split; [|split].
      * econstructor; eassumption.
      * cbn [length]. rewrite Hlen. reflexivity.
      * cbn [message depth_exceeded_in]. rewrite He. reflexivity.
    + intros. apply resolveIncludes_disk.
    + intros g st1 e1 st1' Hst1 Hincl Hnested. exists g.
      split; [exact Hincl|]. rewrite <- Hst1.
      apply (IH g (d + 1)%Z st1 e1 st1'); [lia| |assumption].
      rewrite Hst1. eapply targets_are_files_step; eassumption.
Qed.

(** A successful expansion has gone through every include. *)
Lemma success_step (f g : jsstring) (d : Z) (st st' : state)
    (out : jsstring) :
  includes cwd (disk st) includeRoot f g →
  resolveIncludes cwd f includeRoot maxRecursion d st = (Normal out, st') →
  ∃ st1 out1 st2,
    disk st1 = disk st
    ∧ resolveIncludes cwd g includeRoot maxRecursion (d + 1)%Z st1
      = (Normal out1, st2).
Proof.
  intros (content & line & m & t & Hfile & Hline & Hmarker & Hmatch & Ht
          & -> & Hfound) Hok.
  destruct (Z_gt_le_dec d maxRecursion) as [Hd|Hd].
  { rewrite resolveIncludes_too_deep in Hok by assumption. discriminate. }
  rewrite (resolveIncludes_file cwd _ _ content) in Hok by assumption.
  unfold try_catch in Hok.
  apply list_elem_of_split in Hline as (before & after & Hlines).
  rewrite Hlines, expandLines_app, bind_eq in Hok.
  pose proof (expandLines_disk cwd includeRoot maxRecursion d before st)
    as Hdisk.
  destruct (expandLines cwd includeRoot maxRecursion d before st)
    as [[a|e] st1]; [|discriminate].
  simpl in Hdisk.
  rewrite bind_eq, expandLines_cons, bind_eq in Hok.
  unfold expandLines at 1 in Hok. cbn [for_of] in Hok.
  rewrite bind_eq in Hok.
  destruct Hfound as [n Hfound]. rewrite <- Hdisk in Hfound.
  rewrite (resolveLine_found cwd _ includeRoot [] line m t n) in Hok
    by assumption.
  rewrite bind_eq in Hok.
  destruct (resolveIncludes cwd (path.resolve cwd [includeRoot; t])
              includeRoot maxRecursion (d + 1)%Z st1)
    as [[out1|e] st2] eqn:Hnested; [|discriminate].
  eauto.
Qed.

Lemma success_follows (f g : jsstring) (σ : gmap (list jsstring) node) :
  tc (includes cwd σ includeRoot) f g →
  ∀ d st st' out,
    disk st = σ →
    resolveIncludes cwd f includeRoot maxRecursion d st = (Normal out, st') →
    ∃ d' st1 out1 st2,
      (d < d')%Z ∧ disk st1 = σ
      ∧ resolveIncludes cwd g includeRoot maxRecursion d' st1
        = (Normal out1, st2).
Proof.
  induction 1 as [f g Hfg|f h g Hfh Hhg IH]; intros d st st' out Hst Hok.
  - rewrite <- Hst in Hfg.
    destruct (success_step _ _ _ _ _ _ Hfg Hok) as (st1 & out1 & st2 & H1 & H2).
    exists (d + 1)%Z, st1, out1, st2. repeat split; [lia|congruence|done].
  - rewrite <- Hst in Hfh.
    destruct (success_step _ _ _ _ _ _ Hfh Hok) as (st1 & out1 & st2 & H1 & H2).
    destruct (IH (d + 1)%Z st1 st2 out1 ltac:(congruence) H2)
      as (d' & st3 & out3 & st4 & Hd' & H3 & H4).
    exists d', st3, out3, st4. repeat split; [lia|done|done].
Qed.

(** A file on a cycle of includes is never expanded with success. *)
Lemma cycle_never_succeeds (n : nat) (f : jsstring)
    (σ : gmap (list jsstring) node) :
  tc (includes cwd σ includeRoot) f f →
  ∀ d st st' out,
    (Z.to_nat (maxRecursion + 1 - d) ≤ n)%nat →
    disk st = σ →
    resolveIncludes cwd f includeRoot maxRecursion d st ≠ (Normal out, st').
Proof.
  intros Hcycle.
  induction n as [|n IH]; intros d st st' out Hn Hst Hok.
  - rewrite resolveIncludes_too_deep in Hok by lia. discriminate.
  - destruct (Z_gt_le_dec d maxRecursion) as [Hd|Hd].
    { rewrite resolveIncludes_too_deep in Hok by assumption. discriminate. }
    destruct (success_follows f f σ Hcycle d st st' out Hst Hok)
      as (d' & st1 & out1 & st2 & Hd' & Hst1 & Hok1).
    apply (IH d' st1 st2 out1); [lia|assumption|assumption].
Qed.

End Cycles.

(** C6, as amended. The expansion of a file that includes itself, directly
    or through a chain of files, ends, within [maxRecursion + 2] nested
    calls (a deeper call stack changes nothing), and never with success: it
    fails, and when every target the directives lead to is a regular file,
    what fails is the depth check, one level past [maxRecursion]: in a file
    reached through [maxRecursion + 1] nested includes, whose name the
    message gives under the names of the [maxRecursion + 1] files that
    were being resolved, the top-level file first. *)
Theorem C6_self_include_fails (cwd : jsstring) (st : state)
    (filePath includeRoot : jsstring) (maxRecursion : Z) :
  tc (includes cwd (disk st) includeRoot) filePath filePath →
  (∀ stack,
     (S (Z.to_nat (maxRecursion + 1)) ≤ stack)%nat →
     resolveIncludes_on cwd stack filePath includeRoot maxRecursion 0 st
     = resolveIncludes cwd filePath includeRoot maxRecursion 0 st)
  ∧ ∃ e st',
      resolveIncludes cwd filePath includeRoot maxRecursion 0 st
      = (Throw e, st')
      ∧ (targets_are_files cwd (disk st) includeRoot filePath →
         depth_exceeded_below cwd (disk st) includeRoot filePath
           (Z.to_nat (maxRecursion + 1)) e).
Proof.
  intros Hcycle. split.
  - intros stack Hstack.
    apply (resolveIncludes_on_enough cwd includeRoot maxRecursion
             (Z.to_nat (maxRecursion + 1 - 0))); [reflexivity|].
    replace (maxRecursion + 1 - 0)%Z with (maxRecursion + 1)%Z by lia.
    exact Hstack.
  - destruct (resolveIncludes cwd filePath includeRoot maxRecursion 0 st)
      as [[out|e] st'] eqn:Hrun.
    + exfalso.
      apply (cycle_never_succeeds cwd includeRoot maxRecursion
               (Z.to_nat (maxRecursion + 1 - 0)) filePath (disk st) Hcycle
               0%Z st st' out); [lia|reflexivity|exact Hrun].
    + exists e, st'. split; [reflexivity|]. intros Hfiles.
      apply (only_depth_failures cwd includeRoot maxRecursion
               (Z.to_nat (maxRecursion + 1)) filePath 0%Z st e st');
        [f_equal; lia|assumption|assumption].
Qed.

Lemma selfish_includes_only_itself (g : jsstring) :
  includes Scenario.cwd (disk Scenario.selfish) (js "/w") (js "/w/a.html") g →
  g = js "/w/a.html".
Proof.
  intros (content & line & m & t & Hfile & Hline & _ & Hmatch & Ht & -> & _).
  unfold file_at in Hfile. vm_compute in Hfile.
  injection Hfile as <-.
  apply list_elem_of_singleton in Hline as ->.
  vm_compute in Hmatch. injection Hmatch as <-.
  injection Ht as <-. reflexivity.
Qed.

Lemma selfish_targets_are_files :
  targets_are_files Scenario.cwd (disk Scenario.selfish) (js "/w")
    (js "/w/a.html").
Proof.
  intros g Hreach.
  assert (g = js "/w/a.html") as ->.
  { revert g Hreach.
    apply (rtc_ind_r (λ g, g = js "/w/a.html")); [reflexivity|].
    intros g h _ Hgh ->. exact (selfish_includes_only_itself h Hgh). }
  eexists. reflexivity.
Qed.

Lemma C6_self_include_fails_witness :
  ∃ e st',
    resolveIncludes Scenario.cwd (js "/w/a.html") (js "/w") 1 0
      Scenario.selfish
    = (Throw e, st')
    ∧ depth_exceeded_below Scenario.cwd (disk Scenario.selfish) (js "/w")
        (js "/w/a.html") 2 e.
Proof.
  assert (Hself :
    includes Scenario.cwd (disk Scenario.selfish) (js "/w") (js "/w/a.html")
      (js "/w/a.html")).
  { exists (js "##include <a.html>"), (js "##include <a.html>"),
      (MatchArray (js "##include <a.html>") (Some (js "a.html"))),
      (js "a.html").
    repeat split; try reflexivity.
    - apply list_elem_of_here.
    - eexists. reflexivity. }
  destruct (C6_self_include_fails Scenario.cwd Scenario.selfish
              (js "/w/a.html") (js "/w") 1 (tc_once _ _ _ Hself))
    as [_ (e & st' & Hrun & Hdepth)].
  exists e, st'. split; [exact Hrun|].
  apply Hdepth, selfish_targets_are_files.
Defined.

(** Every depth failure says [Max]. *)
Lemma depth_exceeded_in_M (includers : list jsstring) (bottom : jsstring) :
  N_of_ascii "M" ∈ depth_exceeded_in includers bottom.
Proof.
  induction includers as [|f includers IH]; cbn [depth_exceeded_in].
  - apply elem_of_app. left. apply list_elem_of_here.
  - rewrite !elem_of_app. auto.
Qed.

(** The claim C6 as written fails: [a.html] names the directory [sub] and
    then itself. It includes itself, and its expansion fails, but on reading
    [sub] at depth 1, not on the depth limit. *)
Lemma C6_counterexample :
  tc (includes Scenario.cwd (disk Scenario.detour) (js "/w"))
    (js "/w/a.html") (js "/w/a.html")
  ∧ ∃ e,
      (resolveIncludes Scenario.cwd (js "/w/a.html") (js "/w") 10 0
         Scenario.detour).1
      = Throw e
      ∧ message e
        = js "Error processing file /w/a.html: Error processing file /w/sub: EISDIR: illegal operation on a directory, read"
      ∧ ¬ depth_exceeded e.
Proof.
  split.
  - apply tc_once.
    exists (js "##include <sub>" ++ [LF] ++ js "##include <a.html>"),
      (js "##include <a.html>"),
      (MatchArray (js "##include <a.html>") (Some (js "a.html"))),
      (js "a.html").
    repeat split; try reflexivity.
    + apply list_elem_of_further, list_elem_of_here.
    + eexists. reflexivity.
  - eexists. split; [vm_compute; reflexivity|]. split; [reflexivity|].
    intros (includers & bottom & He).
    pose proof (depth_exceeded_in_M includers bottom) as HM.
    rewrite <- He in HM. revert HM.
    apply (bool_decide_eq_false_1 _). vm_compute. reflexivity.
Qed.

(** ** Paths in normal form *)

Lemma segment_inv (s : jsstring) :
  segment s →
  s ≠ [] ∧ s ≠ [DOT] ∧ s ≠ [DOT; DOT]
  ∧ forallb (λ c, negb (c =? SLASH)) s = true.
Proof.
  unfold segment, is_segment, path.jsstring_eqb.
  rewrite !andb_true_iff, !negb_true_iff, !bool_decide_eq_false. tauto.
Qed.

Lemma segments_slash (p : jsstring) :
  path.segments (SLASH :: p) = [] :: path.segments p.
Proof. reflexivity. Qed.

Lemma segments_one (s : jsstring) :
  forallb (λ c, negb (c =? SLASH)) s = true → path.segments s = [s].
Proof.
  induction s as [|c s IH]; [reflexivity|].
  cbn [forallb]. rewrite andb_true_iff, negb_true_iff. intros [Hc Hs].
  cbn [path.segments]. rewrite Hc, (IH Hs). reflexivity.
Qed.

Lemma segments_app (s p : jsstring) :
  forallb (λ c, negb (c =? SLASH)) s = true →
  path.segments (s ++ SLASH :: p) = s :: path.segments p.
Proof.
  induction s as [|c s IH]; [reflexivity|].
  cbn [forallb]. rewrite andb_true_iff, negb_true_iff. intros [Hc Hs].
  cbn [app path.segments]. rewrite Hc, (IH Hs). reflexivity.
Qed.

Lemma segments_join (segs : list jsstring) :
  Forall segment segs →
  path.segments (path.join_segments segs) = pieces segs
  ∧ ∀ p, path.segments (path.join_segments segs ++ SLASH :: p)
         = pieces segs ++ path.segments p.
Proof.
  induction 1 as [|s segs Hs Hsegs IH]; [split; reflexivity|].
  apply segment_inv in Hs as (_ & _ & _ & Hs).
  destruct segs as [|s2 segs].
  - cbn [path.join_segments pieces]. split.
    + apply segments_one, Hs.
    + intros p. apply segments_app, Hs.
  - destruct IH as [IH1 IH2].
    change (path.join_segments (s :: s2 :: segs))
      with (s ++ SLASH :: path.join_segments (s2 :: segs)).
    cbn [pieces] in *. split.
    + rewrite segments_app by exact Hs. rewrite IH1. reflexivity.
    + intros p. rewrite <- app_assoc. cbn [app].
      rewrite segments_app by exact Hs. rewrite IH2. reflexivity.
Qed.

Lemma push_segment_empty (b : bool) (res : list jsstring) :
  path.push_segment b res [] = res.
Proof. reflexivity. Qed.

Lemma push_segment_segment (b : bool) (res : list jsstring) (s : jsstring) :
  segment s → path.push_segment b res s = s :: res.
Proof.
  intros (H1 & H2 & H3 & _)%segment_inv.
  unfold path.push_segment, path.jsstring_eqb.
  rewrite !bool_decide_eq_false_2 by assumption. reflexivity.
Qed.

Lemma fold_push_pieces (b : bool) (l : list jsstring) :
  Forall (λ s, s = [] ∨ segment s) l →
  ∀ res,
    fold_left (path.push_segment b) l res
    = rev (filter (λ s, s ≠ []) l) ++ res.
Proof.
  induction 1 as [|s l Hs Hl IH]; intros res; [reflexivity|].
  cbn [fold_left]. rewrite IH. destruct Hs as [->|Hs].
  - rewrite push_segment_empty. rewrite filter_cons_False by auto.
    reflexivity.
  - rewrite push_segment_segment by exact Hs.
    apply segment_inv in Hs as (Hne & _).
    rewrite filter_cons_True by exact Hne.
    cbn [rev]. rewrite <- app_assoc. reflexivity.
Qed.

Lemma pieces_pieces (segs : list jsstring) :
  Forall segment segs → Forall (λ s, s = [] ∨ segment s) (pieces segs).
Proof.
  intros H. destruct segs; cbn [pieces].
  - repeat constructor.
  - eapply Forall_impl; [exact H|]. auto.
Qed.

Lemma filter_segments (segs : list jsstring) :
  Forall segment segs → filter (λ s, s ≠ []) segs = segs.
Proof.
  induction 1 as [|s segs Hs Hsegs IH]; [reflexivity|].
  apply segment_inv in Hs as (Hne & _).
  rewrite filter_cons_True by exact Hne. f_equal. exact IH.
Qed.

Lemma filter_pieces (segs : list jsstring) :
  Forall segment segs → filter (λ s, s ≠ []) (pieces segs) = segs.
Proof.
  intros H. destruct segs; [reflexivity|]. apply filter_segments, H.
Qed.

(** What [normalizeString] makes of a string whose pieces are empty or
    names. *)
Lemma normalizeSegments_pieces (p : jsstring) (b : bool) :
  Forall (λ s, s = [] ∨ segment s) (path.segments p) →
  path.normalizeSegments p b = filter (λ s, s ≠ []) (path.segments p).
Proof.
  intros H. unfold path.normalizeSegments.
  rewrite fold_push_pieces by exact H. rewrite app_nil_r. apply rev_involutive.
Qed.

Lemma join_segments_nonempty (segs : list jsstring) :
  Forall segment segs → segs ≠ [] → path.join_segments segs ≠ [].
Proof.
  intros H Hne. destruct H as [|s segs Hs Hsegs]; [congruence|].
  apply segment_inv in Hs as (Hs & _).
  destruct s as [|c s]; [congruence|]. destruct segs; discriminate.
Qed.

Lemma join_segments_app (xs ys : list jsstring) :
  xs ≠ [] → ys ≠ [] →
  path.join_segments (xs ++ ys)
  = path.join_segments xs ++ SLASH :: path.join_segments ys.
Proof.
  intros Hx Hy. induction xs as [|x xs IH]; [congruence|].
  destruct xs as [|x2 xs].
  - destruct ys; [congruence|]. reflexivity.
  - change (path.join_segments ((x :: x2 :: xs) ++ ys))
      with (x ++ SLASH :: path.join_segments ((x2 :: xs) ++ ys)).
    rewrite IH by discriminate.
    change (path.join_segments (x :: x2 :: xs))
      with (x ++ SLASH :: path.join_segments (x2 :: xs)).
    rewrite <- app_assoc. reflexivity.
Qed.

Lemma segments_absolute (segs : list jsstring) :
  Forall segment segs →
  path.segments (absolute segs) = [] :: pieces segs
  ∧ ∀ p, path.segments (absolute segs ++ SLASH :: p)
         = [] :: pieces segs ++ path.segments p.
Proof.
  intros H. destruct (segments_join segs H) as [H1 H2].
  unfold absolute. split.
  - rewrite segments_slash, H1. reflexivity.
  - intros p. cbn [app]. rewrite segments_slash, H2. reflexivity.
Qed.

(** A path that ends with a name does not end with a slash. *)
Lemma endsWithSlash_segment (q s : jsstring) :
  segment s → path.endsWithSlash (q ++ s) = false.
Proof.
  intros (Hne & _ & _ & Hs)%segment_inv. unfold path.endsWithSlash.
  destruct s as [|c s] using rev_ind; [congruence|].
  rewrite app_assoc, last_snoc.
  rewrite forallb_app in Hs. cbn [forallb] in Hs.
  rewrite !andb_true_iff, negb_true_iff in Hs. tauto.
Qed.

Lemma join_segments_snoc (segs : list jsstring) (s : jsstring) :
  ∃ q, path.join_segments (segs ++ [s]) = q ++ s.
Proof.
  destruct segs as [|x segs].
  - exists []. reflexivity.
  - exists (path.join_segments (x :: segs) ++ [SLASH]).
    rewrite join_segments_app by discriminate.
    rewrite <- app_assoc. reflexivity.
Qed.

Lemma endsWithSlash_absolute (segs : list jsstring) (q : jsstring) :
  Forall segment segs → segs ≠ [] →
  path.endsWithSlash (q ++ path.join_segments segs) = false.
Proof.
  intros H Hne. destruct segs as [|x segs] using rev_ind; [congruence|].
  apply Forall_app in H as [_ Hx]. apply Forall_inv in Hx.
  destruct (join_segments_snoc segs x) as [q' ->].
  rewrite app_assoc. apply endsWithSlash_segment, Hx.
Qed.

Section Normal.

Variable cwd : jsstring.

(** [path.resolve] leaves an absolute path in normal form as it is. *)
Lemma resolve_absolute (segs : list jsstring) :
  Forall segment segs → path.resolve cwd [absolute segs] = absolute segs.
Proof.
  intros H. unfold path.resolve.
  assert (Hloop : path.resolve_loop (rev [absolute segs] ++ [cwd]) []
                  = (absolute segs ++ [SLASH], true)) by reflexivity.
  rewrite Hloop. cbn [negb]. unfold path.normalizeString.
  destruct (segments_absolute segs H) as [_ Hp].
  rewrite normalizeSegments_pieces; rewrite Hp.
  - cbn [filter]. rewrite filter_cons_False by auto.
    rewrite filter_app, filter_pieces by exact H.
    cbn. rewrite app_nil_r. reflexivity.
  - constructor; [auto|]. apply Forall_app. split.
    + apply pieces_pieces, H.
    + repeat constructor.
Qed.

Lemma resolvedSegments_absolute (segs : list jsstring) :
  Forall segment segs → path.resolvedSegments (absolute segs) = segs.
Proof.
  intros H. unfold path.resolvedSegments.
  destruct (segments_absolute segs H) as [-> _].
  rewrite filter_cons_False by auto. apply filter_pieces, H.
Qed.

(** Where an absolute path in normal form lives on disk. *)
Lemma key_absolute (segs : list jsstring) :
  Forall segment segs → fs.key cwd (absolute segs) = segs.
Proof.
  intros H. unfold fs.key. rewrite resolve_absolute by exact H.
  apply resolvedSegments_absolute, H.
Qed.

(** The calls that make and write, on such a path. *)
Lemma mkdirSync_absolute (segs : list jsstring) :
  Forall segment segs →
  fs.mkdirSync cwd (absolute segs)
  = for_of ([] :: fs.ancestors [] segs)
      (λ _ a, fs.mkdir_one (absolute segs) segs a) ().
Proof.
  intros H. unfold fs.mkdirSync. rewrite key_absolute by exact H.
  reflexivity.
Qed.

Lemma writeFileSync_absolute (segs : list jsstring) (content : jsstring) :
  Forall segment segs →
  fs.writeFileSync cwd (absolute segs) content
  = fs.write (λ code, fs.errno code (js "open") (absolute segs)) segs
      content.
Proof.
  intros H. unfold fs.writeFileSync. rewrite key_absolute by exact H.
  reflexivity.
Qed.

Lemma copyFileSync_absolute (src : jsstring) (segs : list jsstring)
    (content : jsstring) (st : state) :
  Forall segment segs →
  disk st !! fs.key cwd src = Some (File content) →
  fs.copyFileSync cwd src (absolute segs) st
  = fs.write (λ code, fs.errno2 code (js "copyfile") src (absolute segs))
      segs content st.
Proof.
  intros H Hsrc. unfold fs.copyFileSync, fs.stat. rewrite bind_eq, Hsrc.
  rewrite key_absolute by exact H. reflexivity.
Qed.

End Normal.

(** ** The output directory *)

Lemma within_prefix (d k : list jsstring) :
  fs.within d k = true ↔ d `prefix_of` k.
Proof.
  revert k. induction d as [|x d IH]; intros k; cbn [fs.within].
  - split; [intros _; apply prefix_nil|reflexivity].
  - destruct k as [|y k].
    + split; [discriminate|]. intros H. apply prefix_nil_inv in H.
      discriminate.
    + unfold path.jsstring_eqb. rewrite andb_true_iff, bool_decide_eq_true, IH.
      split.
      * intros [-> H]. apply prefix_cons. exact H.
      * intros H. split; [eapply prefix_cons_inv_1|eapply prefix_cons_inv_2];
          exact H.
Qed.

Lemma ancestors_prefix (above segs a : list jsstring) :
  a ∈ fs.ancestors above segs → ∃ p, a = above ++ p ∧ p `prefix_of` segs.
Proof.
  revert above. induction segs as [|seg segs IH]; intros above;
    cbn [fs.ancestors].
  - intros H. apply elem_of_nil in H. contradiction.
  - intros [->|H]%elem_of_cons.
    + exists [seg]. split; [reflexivity|]. apply prefix_cons, prefix_nil.
    + apply IH in H as (p & -> & Hp). exists (seg :: p).
      rewrite <- app_assoc. split; [reflexivity|]. apply prefix_cons, Hp.
Qed.

Lemma ancestors_last (above segs : list jsstring) :
  segs ≠ [] → above ++ segs ∈ fs.ancestors above segs.
Proof.
  revert above. induction segs as [|seg segs IH]; intros above Hne;
    [congruence|].
  cbn [fs.ancestors]. destruct segs as [|seg' segs].
  - apply list_elem_of_here.
  - apply list_elem_of_further.
    replace (above ++ seg :: seg' :: segs)
      with ((above ++ [seg]) ++ seg' :: segs)
      by (rewrite <- app_assoc; reflexivity).
    apply IH. discriminate.
Qed.

(** The directories [mkdirSync] goes through are the path and its
    ancestors. *)
Lemma mkdir_path_prefix (k a : list jsstring) :
  a ∈ [] :: fs.ancestors [] k → a `prefix_of` k.
Proof.
  intros [->|H]%elem_of_cons; [apply prefix_nil|].
  apply ancestors_prefix in H as (p & -> & Hp). exact Hp.
Qed.

Lemma mkdir_path_self (k : list jsstring) : k ∈ [] :: fs.ancestors [] k.
Proof.
  destruct k as [|seg k]; [apply list_elem_of_here|].
  apply list_elem_of_further. apply (ancestors_last [] (seg :: k)).
  discriminate.
Qed.

Lemma ancestors_all (segs : list jsstring) :
  ∀ above p,
    p `prefix_of` segs → p ≠ [] → above ++ p ∈ fs.ancestors above segs.
Proof.
  induction segs as [|seg segs IH]; intros above p Hp Hne.
  - apply prefix_nil_inv in Hp. congruence.
  - destruct p as [|x p]; [congruence|].
    pose proof (prefix_cons_inv_1 _ _ _ _ Hp) as ->.
    apply prefix_cons_inv_2 in Hp. cbn [fs.ancestors].
    destruct p as [|y p].
    + apply list_elem_of_here.
    + apply list_elem_of_further.
      replace (above ++ seg :: y :: p) with ((above ++ [seg]) ++ y :: p)
        by (rewrite <- app_assoc; reflexivity).
      apply IH; [exact Hp|discriminate].
Qed.

Lemma mkdir_path_all (k a : list jsstring) :
  a `prefix_of` k → a ∈ [] :: fs.ancestors [] k.
Proof.
  intros Ha. destruct a as [|x a]; [apply list_elem_of_here|].
  apply list_elem_of_further. apply (ancestors_all k [] (x :: a) Ha).
  discriminate.
Qed.

Lemma not_prefix_snoc (k : list jsstring) (name : jsstring) :
  ¬ (k ++ [name]) `prefix_of` k.
Proof.
  intros H%prefix_length. rewrite length_app in H. cbn [length] in H. lia.
Qed.

Lemma prefix_snoc_cases (a k : list jsstring) (name : jsstring) :
  a `prefix_of` k ++ [name] → a `prefix_of` k ∨ a = k ++ [name].
Proof.
  intros [rest Hrest]. destruct rest as [|x rest] using rev_ind.
  - right. rewrite app_nil_r in Hrest. congruence.
  - left. rewrite app_assoc in Hrest. apply app_inj_tail in Hrest as [-> _].
    apply prefix_app_r. reflexivity.
Qed.

Lemma way_free_tested (σ : gmap (list jsstring) node) (k : list jsstring) :
  way_free_test σ k = true → way_free σ k.
Proof.
  unfold way_free_test. rewrite forallb_forall. intros Htest a c Ha Hfile.
  specialize (Htest a). rewrite Hfile in Htest.
  assert (false = true); [|discriminate]. apply Htest.
  apply list_elem_of_In, mkdir_path_all, Ha.
Qed.

(** The paths that go through a regular file. *)
Lemma through_file_spec (σ : gmap (list jsstring) node)
    (k : list jsstring) :
  fs.through_file σ k = true
  ↔ ∃ a c, a `prefix_of` k ∧ a ≠ k ∧ σ !! a = Some (File c).
Proof.
  unfold fs.through_file, fs.parent.
  destruct k as [|x k' _] using rev_ind.
  { split; [discriminate|]. intros (a & c & Ha%prefix_nil_inv & Hne & _).
    contradiction. }
  replace (match k' ++ [x] with [] => None | _ :: _ => Some
    (removelast (k' ++ [x])) end) with (Some k')
    by (rewrite removelast_last; destruct k'; reflexivity).
  rewrite existsb_exists. split.
  - intros (a & Ha & Hfile). apply list_elem_of_In, mkdir_path_prefix in Ha.
    destruct (σ !! a) as [[c|]|] eqn:Hlook; try discriminate.
    exists a, c. split; [apply prefix_app_r, Ha|]. split; [|exact Hlook].
    intros ->. exact (not_prefix_snoc _ _ Ha).
  - intros (a & c & Ha & Hne & Hlook). exists a. split.
    + apply list_elem_of_In, mkdir_path_all.
      destruct (prefix_snoc_cases _ _ _ Ha); [assumption|contradiction].
    + rewrite Hlook. reflexivity.
Qed.

(** The code of the error for a path that names nothing. *)
Lemma missing_ENOENT (σ : gmap (list jsstring) node) (k : list jsstring) :
  (∀ a c, a `prefix_of` k → σ !! a ≠ Some (File c)) →
  fs.missing σ k = fs.ENOENT.
Proof.
  intros Hfree. unfold fs.missing.
  destruct (fs.through_file σ k) eqn:Hthrough; [|reflexivity].
  apply through_file_spec in Hthrough as (a & c & Ha & _ & Hlook).
  destruct (Hfree a c Ha Hlook).
Qed.

Lemma missing_ENOTDIR (σ : gmap (list jsstring) node)
    (k a : list jsstring) (c : jsstring) :
  σ !! k = None → a `prefix_of` k → σ !! a = Some (File c) →
  fs.missing σ k = fs.ENOTDIR.
Proof.
  intros Hk Ha Hlook. unfold fs.missing.
  replace (fs.through_file σ k) with true; [reflexivity|].
  symmetry. apply through_file_spec. exists a, c.
  split; [exact Ha|]. split; [congruence|exact Hlook].
Qed.

(** The empty path names nothing, on a disk whose entries have names. *)
Lemma empty_path_names_nothing (cwd : jsstring)
    (σ : gmap (list jsstring) node) :
  well_named σ → σ !! [] = Some Directory →
  σ !! fs.key cwd [] = None ∧ fs.missing σ (fs.key cwd []) = fs.ENOENT.
Proof.
  intros Hnamed Hroot. change (fs.key cwd []) with [[] : jsstring].
  assert (Hkey : σ !! [[] : jsstring] = None).
  { destruct (σ !! [[] : jsstring]) as [n|] eqn:Hlook; [|reflexivity].
    apply Hnamed in Hlook. apply Forall_cons in Hlook as [Hs _].
    discriminate Hs. }
  split; [exact Hkey|]. apply missing_ENOENT. intros a c Ha.
  destruct a as [|x a]; [rewrite Hroot; discriminate|].
  pose proof (prefix_cons_inv_1 _ _ _ _ Ha) as ->.
  apply prefix_cons_inv_2, prefix_nil_inv in Ha as ->.
  rewrite Hkey. discriminate.
Qed.

(** Where no regular file is in the way, every directory of the list is
    there afterwards, and nothing else has changed. *)
Lemma mkdir_loop (p : jsstring) (target : list jsstring)
    (dirs : list (list jsstring)) :
  ∀ (σ : gmap (list jsstring) node) (out : list (stream * jsstring)),
    (∀ a c, a ∈ dirs → σ !! a ≠ Some (File c)) →
    ∃ σ',
      for_of dirs (λ _ a, fs.mkdir_one p target a) () (State σ out)
      = (Normal (), State σ' out)
      ∧ (∀ k, k ∈ dirs → σ' !! k = Some Directory)
      ∧ (∀ k, k ∉ dirs → σ' !! k = σ !! k).
Proof.
  induction dirs as [|a dirs IH]; intros σ out Hfree.
  - exists σ. split; [reflexivity|]. split; [|reflexivity].
    intros k Hk. apply elem_of_nil in Hk. contradiction.
  - cbn [for_of]. rewrite bind_eq. unfold fs.mkdir_one at 1. cbn [disk console].
    assert (Hstep : ∃ σa,
      match σ !! a with
      | Some Directory => (Normal (), State σ out)
      | Some (File _) =>
          (Throw (fs.errno (if bool_decide (a = target) then fs.EEXIST
                            else fs.ENOTDIR) (js "mkdir") p), State σ out)
      | None => (Normal (), State (<[a:=Directory]> σ) out)
      end = (Normal (), State σa out)
      ∧ σa !! a = Some Directory
      ∧ ∀ k, k ≠ a → σa !! k = σ !! k).
    { destruct (σ !! a) as [[c|]|] eqn:Ha.
      - exfalso. apply (Hfree a c); [apply list_elem_of_here|exact Ha].
      - exists σ. auto.
      - exists (<[a:=Directory]> σ). split; [reflexivity|]. split.
        + apply lookup_insert_eq.
        + intros k Hk. apply lookup_insert_ne. congruence. }
    destruct Hstep as (σa & -> & Ha & Hother).
    destruct (IH σa out) as (σ' & Hrun & Hdirs & Hrest).
    { intros a' c Ha'. destruct (decide (a' = a)) as [->|Hne].
      - rewrite Ha. discriminate.
      - rewrite Hother by assumption. apply Hfree.
        apply list_elem_of_further, Ha'. }
    exists σ'. split; [exact Hrun|]. split.
    + intros k [->|Hk]%elem_of_cons; [|apply Hdirs, Hk].
      destruct (decide (a ∈ dirs)) as [Hin|Hout]; [apply Hdirs, Hin|].
      rewrite Hrest by assumption. exact Ha.
    + intros k Hk. rewrite not_elem_of_cons in Hk. destruct Hk as [Hne Hk].
      rewrite Hrest by assumption. apply Hother, Hne.
Qed.

(** Making the output directory where nothing lies below it and no regular
    file is above it. *)
Lemma recreate_output (cwd outputDir : jsstring)
    (σ : gmap (list jsstring) node) (out : list (stream * jsstring)) :
  let key := fs.key cwd outputDir in
  outputDir ≠ [] →
  (∀ k, key `prefix_of` k → σ !! k = None) →
  (∀ a c, a `prefix_of` key → a ≠ key → σ !! a ≠ Some (File c)) →
  ∃ σ',
    (fs.mkdirSync cwd outputDir;;
     console_log (js "Recreated output directory: " ++ outputDir))
      (State σ out)
    = (Normal (),
       State σ'
         (out ++ [(stdout, js "Recreated output directory: " ++ outputDir)]))
    ∧ (∀ a, a `prefix_of` key → σ' !! a = Some Directory)
    ∧ (∀ k, ¬ k `prefix_of` key → σ' !! k = σ !! k).
Proof.
  intros key Hpath Hbelow Hfree.
  destruct (mkdir_loop outputDir key ([] :: fs.ancestors [] key) σ out)
    as (σ' & Hrun & Hdirs & Hrest).
  { intros a c Ha. apply mkdir_path_prefix in Ha.
    destruct (decide (a = key)) as [->|Hne].
    - rewrite Hbelow by reflexivity. discriminate.
    - apply Hfree; assumption. }
  exists σ'. split; [|split].
  - rewrite bind_eq. unfold fs.mkdirSync.
    destruct outputDir as [|c outputDir]; [congruence|].
    fold key. rewrite Hrun. reflexivity.
  - intros a Ha. apply Hdirs, mkdir_path_all, Ha.
  - intros k Hk. apply Hrest. intros Hin. apply mkdir_path_prefix in Hin.
    contradiction.
Qed.

(** The reset, told on the place of the output directory on disk. *)
Lemma reset_on_key (cwd outputDir : jsstring) (st : state) :
  let key := fs.key cwd outputDir in
  outputDir ≠ [] →
  (disk st !! key = None → ∀ k, key `prefix_of` k → disk st !! k = None) →
  (∀ a c, a `prefix_of` key → a ≠ key → disk st !! a ≠ Some (File c)) →
  ∃ st',
    resetOutputDirectory cwd outputDir false st = (Normal (), st')
    ∧ disk st' !! key = Some Directory
    ∧ (∀ a, a `prefix_of` key → disk st' !! a = Some Directory)
    ∧ (∀ k, key `prefix_of` k → k ≠ key → disk st' !! k = None)
    ∧ (∀ k, ¬ key `prefix_of` k → ¬ k `prefix_of` key →
         disk st' !! k = disk st !! k).
Proof.
  intros key Hpath Habsent Hfree.
  unfold resetOutputDirectory. cbn [negb].
  destruct (disk st !! key) as [n|] eqn:Hkey.
  - (* the directory is there: it is removed first *)
    set (σ1 := filter (λ kv, fs.within key kv.1 = false) (disk st)).
    set (out1 := console st
           ++ [(stdout,
                js "Removed existing output directory: " ++ outputDir)]).
    assert (Hbelow : ∀ k, key `prefix_of` k → σ1 !! k = None).
    { intros k Hk. apply map_lookup_filter_None. right.
      intros n' _. cbn. apply within_prefix in Hk. rewrite Hk. discriminate. }
    assert (Helse : ∀ k, ¬ key `prefix_of` k → σ1 !! k = disk st !! k).
    { intros k Hk. destruct (disk st !! k) as [n'|] eqn:Hlook.
      - apply map_lookup_filter_Some. split; [exact Hlook|]. cbn.
        destruct (fs.within key k) eqn:Hw; [|reflexivity].
        apply within_prefix in Hw. contradiction.
      - apply map_lookup_filter_None. left. exact Hlook. }
    destruct (recreate_output cwd outputDir σ1 out1 Hpath Hbelow)
      as (σ' & Hrun & Hdirs & Hrest).
    { intros a c Ha Hne. rewrite Helse; [apply Hfree; assumption|].
      intros Hka. apply Hne. apply (anti_symm prefix); assumption. }
    exists (State σ' (out1 ++ [(stdout, js "Recreated output directory: "
                                       ++ outputDir)])).
    split; [|split; [apply Hdirs; reflexivity|split; [exact Hdirs|split]]];
      cbn [disk].
    + rewrite bind_eq. unfold fs.existsSync, fs.stat. rewrite bind_eq.
      fold key. rewrite Hkey. unfold mret at 1. unfold M_ret.
      rewrite bind_eq.
      change ((fs.rmSync cwd outputDir;;
               console_log
                 (js "Removed existing output directory: " ++ outputDir)) st)
        with (Normal (), State σ1 out1).
      exact Hrun.
    + intros k Hk Hne. rewrite Hrest; [apply Hbelow, Hk|].
      intros Hkk. apply Hne. apply (anti_symm prefix); assumption.
    + intros k Hk1 Hk2. rewrite Hrest by assumption. apply Helse, Hk1.
  - (* the directory is not there *)
    destruct (recreate_output cwd outputDir (disk st) (console st) Hpath
                (Habsent eq_refl) Hfree)
      as (σ' & Hrun & Hdirs & Hrest).
    exists (State σ' (console st
                      ++ [(stdout, js "Recreated output directory: "
                                   ++ outputDir)])).
    split; [|split; [apply Hdirs; reflexivity|split; [exact Hdirs|split]]];
      cbn [disk].
    + rewrite bind_eq. unfold fs.existsSync, fs.stat. rewrite bind_eq.
      fold key. rewrite Hkey. unfold mret at 1 2. unfold M_ret.
      rewrite bind_eq. destruct st as [σ out]. exact Hrun.
    + intros k Hk Hne. rewrite Hrest; [apply Habsent; [reflexivity|exact Hk]|].
      intros Hkk. apply Hne. apply (anti_symm prefix); assumption.
    + intros k Hk1 Hk2. apply Hrest, Hk2.
Qed.

(** C9, as amended. With [skipDelete], the reset changes nothing on disk: an
    output directory that is there is left as it is with all it holds, and
    one that is not there is not created; one line is printed. Without
    [skipDelete], for an output directory given by its absolute path, other
    than the root, on a disk where nothing lies below a directory that is
    not there and no regular file is among the ancestors of the output
    directory, the output directory is removed with all it holds if it is
    there, and made again with its ancestors: afterwards it is a directory,
    every ancestor of it down from the root is a directory, nothing lies
    below it, and what is neither below it nor above it is as before. *)
Theorem C9_reset_output (cwd outputDir : jsstring) (st : state) :
  resetOutputDirectory cwd outputDir true st
  = (Normal (),
     State (disk st)
       (console st
        ++ [(stdout,
             js "Skipped deleting existing output directory: "
             ++ outputDir)]))
  ∧ (∀ O,
       Forall segment O → O ≠ [] → outputDir = absolute O →
       (disk st !! O = None → ∀ k, O `prefix_of` k → disk st !! k = None) →
       (∀ a c, a `prefix_of` O → a ≠ O → disk st !! a ≠ Some (File c)) →
       ∃ st',
         resetOutputDirectory cwd outputDir false st = (Normal (), st')
         ∧ disk st' !! O = Some Directory
         ∧ (∀ a, a `prefix_of` O → disk st' !! a = Some Directory)
         ∧ (∀ k, O `prefix_of` k → k ≠ O → disk st' !! k = None)
         ∧ (∀ k, ¬ O `prefix_of` k → ¬ k `prefix_of` O →
              disk st' !! k = disk st !! k)).
Proof.
  split; [reflexivity|]. intros O HO _ -> Habsent Hfree.
  pose proof (reset_on_key cwd (absolute O) st) as Hreset.
  cbv zeta in Hreset. rewrite key_absolute in Hreset by exact HO.
  apply Hreset; [discriminate|exact Habsent|exact Hfree].
Qed.

(** The ancestors of [/w/dist], for the scenarios. *)
Lemma above_dist (a : list jsstring) :
  a `prefix_of` [js "w"; js "dist"] →
  a = [] ∨ a = [js "w"] ∨ a = [js "w"; js "dist"].
Proof.
  intros Hprefix.
  destruct a as [|x a]; [auto|].
  pose proof (prefix_cons_inv_1 _ _ _ _ Hprefix) as ->.
  apply prefix_cons_inv_2 in Hprefix.
  destruct a as [|y a]; [auto|].
  pose proof (prefix_cons_inv_1 _ _ _ _ Hprefix) as ->.
  apply prefix_cons_inv_2, prefix_nil_inv in Hprefix as ->. auto.
Qed.

Lemma C9_reset_output_witness :
  (∃ st',
     resetOutputDirectory Scenario.cwd (js "/w/dist") false Scenario.stale
     = (Normal (), st')
     ∧ disk st' !! [js "w"; js "dist"] = Some Directory
     ∧ disk st' !! [js "w"; js "dist"; js "old.txt"] = None
     ∧ disk st' !! [js "w"; js "a.html"] = Some (File (js "new")))
  ∧ ∃ st',
      resetOutputDirectory Scenario.cwd (js "/out/dist") false Scenario.hello
      = (Normal (), st')
      ∧ disk st' !! [js "out"] = Some Directory
      ∧ disk st' !! [js "out"; js "dist"] = Some Directory.
Proof.
  split.
  - destruct (C9_reset_output Scenario.cwd (js "/w/dist") Scenario.stale)
      as [_ Hreset].
    destruct (Hreset [js "w"; js "dist"])
      as (st' & Hrun & Hdir & Hdirs & Hbelow & Hrest).
    + apply (bool_decide_eq_true_1 _). vm_compute. reflexivity.
    + discriminate.
    + reflexivity.
    + intros Habsent. vm_compute in Habsent. discriminate.
    + intros a c Hprefix Hne.
      destruct (above_dist a Hprefix) as [->|[->| ->]];
        [vm_compute; discriminate|vm_compute; discriminate|congruence].
    + exists st'. split; [exact Hrun|]. split; [exact Hdir|]. split.
      * apply Hbelow; [|discriminate]. exists [js "old.txt"]. reflexivity.
      * rewrite Hrest; [reflexivity| |].
        -- intros [rest Hk]. discriminate.
        -- intros [rest Hk]. discriminate.
  - destruct (C9_reset_output Scenario.cwd (js "/out/dist") Scenario.hello)
      as [_ Hreset].
    destruct (Hreset [js "out"; js "dist"])
      as (st' & Hrun & Hdir & Hdirs & _).
    + apply (bool_decide_eq_true_1 _). vm_compute. reflexivity.
    + discriminate.
    + reflexivity.
    + intros _ k [rest ->].
      apply (not_elem_of_list_to_map_1 (M := gmap (list jsstring))).
      vm_compute. intros H.
      repeat (apply elem_of_cons in H as [H|H]; [discriminate|]).
      apply elem_of_nil in H. exact H.
    + intros a c Hprefix Hne.
      destruct a as [|x a]; [vm_compute; discriminate|].
      pose proof (prefix_cons_inv_1 _ _ _ _ Hprefix) as ->.
      apply prefix_cons_inv_2 in Hprefix.
      destruct a as [|y a]; [vm_compute; discriminate|].
      pose proof (prefix_cons_inv_1 _ _ _ _ Hprefix) as ->.
      apply prefix_cons_inv_2, prefix_nil_inv in Hprefix as ->.
      congruence.
    + exists st'. split; [exact Hrun|]. split; [|exact Hdir].
      apply Hdirs. exists [js "dist"]. reflexivity.
Defined.

(** The claim C9 as written fails: with [skipDelete] and no output directory
    on disk, there is none after the reset either. *)
Lemma C9_counterexample :
  let st' :=
    (resetOutputDirectory Scenario.cwd (js "/w/dist") true Scenario.hello).2
  in
  (fs.existsSync Scenario.cwd (js "/w/dist") Scenario.hello).1 = Normal false
  ∧ (fs.existsSync Scenario.cwd (js "/w/dist") st').1 = Normal false.
Proof. split; vm_compute; reflexivity. Qed.

(** ** The output-root skip *)

(** C10. The test that keeps the walk and the watcher out of the output
    directory compares strings: it holds exactly when the resolved path of
    the entry begins with the resolved path of the output directory. An
    entry for which it holds is passed over by the walk, which goes on as if
    the entry were not listed, and by the watcher, which prints the
    notification, does nothing more for it and goes on with the next. That
    is so for [/w/dist2] beside the output directory [/w/dist], which does
    not lie within it. *)
Theorem C10_output_prefix_skip (cwd : jsstring)
    (toLowerCase : jsstring → jsstring)
    (util_format : jsstring → jsstring → jsstring) (outputDir : jsstring) :
  (∀ filePath,
     inOutputDir cwd filePath outputDir = true
     ↔ ∃ rest,
         path.resolve cwd [filePath] = path.resolve cwd [outputDir] ++ rest)
  ∧ (∀ recurse inputDir textExtensions includeRoot maxRecursion watchRoot
       file st,
       inOutputDir cwd (path.join [inputDir; file]) outputDir = true →
       processEntry cwd toLowerCase util_format recurse inputDir outputDir
         textExtensions includeRoot maxRecursion watchRoot file st
       = (Normal (), st))
  ∧ (∀ recurse inputDir textExtensions includeRoot maxRecursion watchRoot
       file earlier later st,
       inOutputDir cwd (path.join [inputDir; file]) outputDir = true →
       for_of (earlier ++ file :: later)
         (λ _ file,
            processEntry cwd toLowerCase util_format recurse inputDir outputDir
              textExtensions includeRoot maxRecursion watchRoot file) () st
       = for_of (earlier ++ later)
           (λ _ file,
              processEntry cwd toLowerCase util_format recurse inputDir
                outputDir
                textExtensions includeRoot maxRecursion watchRoot file) () st)
  ∧ (∀ (directory : jsstring) textExtensions includeRoot maxRecursion
       watchRoot (eventType : jsstring) (c : N) (filename : jsstring) st,
       inOutputDir cwd (path.join [directory; c :: filename]) outputDir
       = true →
       onChange cwd toLowerCase util_format directory outputDir textExtensions
         includeRoot maxRecursion watchRoot eventType (Some (c :: filename))
         st
       = (Normal (),
          State (disk st)
            (console st
             ++ [(stdout, eventType ++ js " " ++ c :: filename)]))
       ∧ ∀ later,
           deliver cwd toLowerCase util_format directory outputDir
             textExtensions includeRoot maxRecursion watchRoot
             (change eventType (Some (c :: filename)) :: later) st
           = deliver cwd toLowerCase util_format directory outputDir
               textExtensions includeRoot maxRecursion watchRoot later
               (State (disk st)
                  (console st
                   ++ [(stdout, eventType ++ js " " ++ c :: filename)])))
  ∧ (inOutputDir cwd (js "/w/dist2") (js "/w/dist") = true
     ∧ fs.within (fs.key cwd (js "/w/dist")) (fs.key cwd (js "/w/dist2"))
       = false).
Proof.
  assert (Hentry : ∀ recurse inputDir textExtensions includeRoot maxRecursion
            watchRoot file st,
    inOutputDir cwd (path.join [inputDir; file]) outputDir = true →
    processEntry cwd toLowerCase util_format recurse inputDir outputDir
      textExtensions
      includeRoot maxRecursion watchRoot file st = (Normal (), st)).
  { intros recurse inputDir textExtensions includeRoot maxRecursion watchRoot
      file st Hskip.
    unfold processEntry. rewrite Hskip. reflexivity. }
  split; [|split; [exact Hentry|split; [|split]]].
  - intros filePath. unfold inOutputDir. apply startsWith_prefix.
  - intros recurse inputDir textExtensions includeRoot maxRecursion watchRoot
      file earlier later st Hskip.
    rewrite !for_of_app, !bind_eq.
    destruct (for_of earlier _ () st) as [[[]|e] st1]; [|reflexivity].
    cbn [for_of]. rewrite bind_eq, Hentry by exact Hskip. reflexivity.
  - intros directory textExtensions includeRoot maxRecursion watchRoot
      eventType c filename st Hskip.
    assert (Hrun :
      onChange cwd toLowerCase util_format directory outputDir textExtensions
        includeRoot maxRecursion watchRoot eventType (Some (c :: filename))
        st
      = (Normal (),
         State (disk st)
           (console st
            ++ [(stdout, eventType ++ js " " ++ c :: filename)]))).
    { unfold onChange. rewrite bind_eq. unfold console_log at 1, print.
      match goal with
      | |- context [inOutputDir ?a ?b ?c] =>
          replace (inOutputDir a b c) with true by (symmetry; exact Hskip)
      end.
      reflexivity. }
    split; [exact Hrun|].
    intros later. cbn [deliver]. rewrite bind_eq, Hrun. reflexivity.
  - split; vm_compute; reflexivity.
Qed.

Lemma C10_output_prefix_skip_witness :
  processEntry Scenario.cwd id Scenario.util_format (λ _, mthrow RangeError)
    (js "/w")
    (js "/w/dist") {[ js ".html" ]} (js "/w") 10 (js "/w") (js "dist2")
    Scenario.stale
  = (Normal (), Scenario.stale).
Proof.
  apply (C10_output_prefix_skip Scenario.cwd id Scenario.util_format
    (js "/w/dist")).
  vm_compute. reflexivity.
Defined.

(** * Further properties *)

(** ** Loops and relations between states *)

(** A reflexive and transitive relation every turn of the loop keeps between
    the state before and the state after holds of the loop. *)
Lemma for_of_steps {X A : Type} (R : state → state → Prop)
    (xs : list X) (body : A → X → M A) :
  (∀ st, R st st) →
  (∀ st1 st2 st3, R st1 st2 → R st2 st3 → R st1 st3) →
  (∀ acc x st, R st (body acc x st).2) →
  ∀ acc st, R st (for_of xs body acc st).2.
Proof.
  intros Hrefl Htrans Hbody. induction xs as [|x xs IH]; intros acc st.
  - apply Hrefl.
  - cbn [for_of]. rewrite bind_eq. specialize (Hbody acc x st).
    destruct (body acc x st) as [[acc'|e] st']; [|exact Hbody].
    eapply Htrans; [exact Hbody|apply IH].
Qed.

Lemma only_diagnostics_refl (st : state) : only_diagnostics st st.
Proof.
  split; [reflexivity|]. exists []. rewrite app_nil_r. split; [reflexivity|].
  constructor.
Qed.

Lemma only_diagnostics_trans (st1 st2 st3 : state) :
  only_diagnostics st1 st2 → only_diagnostics st2 st3 →
  only_diagnostics st1 st3.
Proof.
  intros [Hd1 (o1 & Hc1 & Ho1)] [Hd2 (o2 & Hc2 & Ho2)]. split.
  - congruence.
  - exists (o1 ++ o2). rewrite Hc2, Hc1, <- app_assoc. split; [reflexivity|].
    apply Forall_app; split; assumption.
Qed.

Lemma only_diagnostics_error (st : state) (text : jsstring) :
  only_diagnostics st (State (disk st) (console st ++ [(stderr, text)])).
Proof.
  split; [reflexivity|]. exists [(stderr, text)]. split; [reflexivity|].
  repeat constructor.
Qed.

Section ReadOnly.

Variable cwd : jsstring.

Lemma resolveLine_only_diagnostics (recurse : jsstring → M jsstring) :
  (∀ p st, only_diagnostics st (recurse p st).2) →
  ∀ includeRoot acc line st,
    only_diagnostics st (resolveLine cwd recurse includeRoot acc line st).2.
Proof.
  intros Hr includeRoot acc line st. unfold resolveLine.
  destruct (startsWith line (js "##include"));
    [|apply only_diagnostics_refl].
  destruct (String_match line re_include) as [m|];
    [|apply only_diagnostics_error].
  destruct (match_1 m) as [t|]; [|apply only_diagnostics_refl].
  unfold fs.existsSync, fs.stat. unfold_monad.
  destruct (disk st !! _); [|apply only_diagnostics_error].
  specialize (Hr (path.resolve cwd [includeRoot; t]) st).
  destruct (recurse _ st) as [[inc|e] st']; exact Hr.
Qed.

Lemma resolveIncludes_on_only_diagnostics (includeRoot : jsstring)
    (maxRecursion : Z) (stack : nat) :
  ∀ filePath currentDepth st,
    only_diagnostics st
      (resolveIncludes_on cwd stack filePath includeRoot maxRecursion
         currentDepth st).2.
Proof.
  induction stack as [|stack IH]; intros filePath d st;
    [apply only_diagnostics_refl|].
  rewrite resolveIncludes_on_S.
  destruct (d >? maxRecursion)%Z; [apply only_diagnostics_refl|].
  unfold try_catch, fs.readFileSync, fs.stat.
  unfold mbind at 1 2. unfold M_bind, mret, M_ret, mthrow, M_throw.
  destruct (disk st !! fs.key cwd filePath) as [[content|]|];
    try apply only_diagnostics_refl.
  match goal with |- context [for_of ?xs ?body ?acc st] =>
    pose proof (for_of_steps only_diagnostics xs body
      only_diagnostics_refl only_diagnostics_trans
      ltac:(intros acc' x st'; apply resolveLine_only_diagnostics;
            intros; apply IH)
      acc st) as Hloop;
    destruct (for_of xs body acc st) as [[out|e] st']
  end; exact Hloop.
Qed.

End ReadOnly.

(** X1. [resolveIncludes] is read-only: whatever the file, the include root,
    the limit and the depth, and whether it returns or throws, the disk is
    afterwards as it was, what had been printed is still there, and every
    line it added is a diagnostic on the error stream. *)
Theorem X1_resolveIncludes_read_only (cwd : jsstring)
    (filePath includeRoot : jsstring) (maxRecursion currentDepth : Z)
    (st : state) :
  let st' :=
    (resolveIncludes cwd filePath includeRoot maxRecursion currentDepth st).2
  in
  disk st' = disk st
  ∧ ∃ out, console st' = console st ++ out ∧ Forall (λ l, l.1 = stderr) out.
Proof. apply resolveIncludes_on_only_diagnostics. Qed.

(** ** The resolver, one call deep, whatever the file *)

Section Unfolded.

Variable cwd : jsstring.

Lemma resolveIncludes_unfold (filePath includeRoot : jsstring)
    (maxRecursion d : Z) (st : state) :
  resolveIncludes cwd filePath includeRoot maxRecursion d st
  = (if (d >? maxRecursion)%Z then
       mthrow (new_Error
         (js "Max recursion depth exceeded while processing includes in "
          ++ filePath))
     else
       try_catch
         (fileContent ← fs.readFileSync cwd filePath;
          expandLines cwd includeRoot maxRecursion d
            (String_split fileContent re_newline))
         (λ error,
            mthrow (new_Error
              (js "Error processing file " ++ filePath ++ js ": "
               ++ message error)))) st.
Proof.
  unfold resolveIncludes at 1. rewrite resolveIncludes_on_S.
  destruct (d >? maxRecursion)%Z eqn:Hd; [reflexivity|].
  unfold try_catch. rewrite !bind_eq.
  destruct (fs.readFileSync cwd filePath st) as [[content|e] st1];
    [|reflexivity].
  unfold expandLines.
  erewrite for_of_ext; [reflexivity|].
  intros acc x st'. apply resolveLine_ext. intros p st''.
  apply (resolveIncludes_on_enough cwd includeRoot maxRecursion
           (Z.to_nat (maxRecursion + 1 - (d + 1)))); lia.
Qed.

(** A loop that succeeds with one body succeeds alike with a body that
    succeeds wherever the first does. *)
Lemma for_of_success {X A : Type} (xs : list X) (body1 body2 : A → X → M A) :
  (∀ acc x st acc' st',
     body1 acc x st = (Normal acc', st') →
     body2 acc x st = (Normal acc', st')) →
  ∀ acc st r st',
    for_of xs body1 acc st = (Normal r, st') →
    for_of xs body2 acc st = (Normal r, st').
Proof.
  intros Hbody. induction xs as [|x xs IH]; intros acc st r st'; cbn [for_of].
  - auto.
  - rewrite !bind_eq.
    destruct (body1 acc x st) as [[acc1|e] st1] eqn:H1; [|discriminate].
    rewrite (Hbody _ _ _ _ _ H1). apply IH.
Qed.

Lemma resolveLine_success (r1 r2 : jsstring → M jsstring) :
  (∀ p st out st',
     r1 p st = (Normal out, st') → r2 p st = (Normal out, st')) →
  ∀ includeRoot acc line st acc' st',
    resolveLine cwd r1 includeRoot acc line st = (Normal acc', st') →
    resolveLine cwd r2 includeRoot acc line st = (Normal acc', st').
Proof.
  intros Hr includeRoot acc line st acc' st'. unfold resolveLine.
  destruct (startsWith line (js "##include")); [|auto].
  destruct (String_match line re_include) as [m|]; [|auto].
  destruct (match_1 m) as [t|]; [|auto].
  rewrite !bind_eq.
  destruct (fs.existsSync cwd _ st) as [[[|]|e] st1]; auto.
  rewrite !bind_eq.
  destruct (r1 _ st1) as [[inc|e] st2] eqn:H1; [|discriminate].
  rewrite (Hr _ _ _ _ H1). auto.
Qed.

(** Raising the limit keeps every success. *)
Lemma resolveIncludes_limit (includeRoot : jsstring)
    (maxRecursion maxRecursion' : Z) (n : nat) :
  (maxRecursion ≤ maxRecursion')%Z →
  ∀ filePath d st out st',
    n = Z.to_nat (maxRecursion + 1 - d) →
    resolveIncludes cwd filePath includeRoot maxRecursion d st
    = (Normal out, st') →
    resolveIncludes cwd filePath includeRoot maxRecursion' d st
    = (Normal out, st').
Proof.
  intros Hle. induction n as [|n IH]; intros filePath d st out st' Hn;
    rewrite !resolveIncludes_unfold.
  - replace (d >? maxRecursion)%Z with true by lia. discriminate.
  - destruct (d >? maxRecursion)%Z eqn:Hd; [discriminate|].
    replace (d >? maxRecursion')%Z with false by lia.
    unfold try_catch. rewrite !bind_eq.
    destruct (fs.readFileSync cwd filePath st) as [[content|e] st1];
      [|discriminate].
    unfold expandLines.
    destruct (for_of (String_split content re_newline)
                (resolveLine cwd
                   (λ p, resolveIncludes cwd p includeRoot maxRecursion
                           (d + 1)%Z) includeRoot) [] st1)
      as [[r|e] st2] eqn:Hloop; [|discriminate].
    intros H. injection H as <- <-.
    erewrite for_of_success; [reflexivity| |exact Hloop].
    intros acc x st3 acc' st4. apply resolveLine_success.
    intros p st5 o st6. apply IH. lia.
Qed.

(** Only the distance to the limit matters. *)
Lemma resolveIncludes_on_shift (includeRoot : jsstring) (maxRecursion k : Z)
    (stack : nat) :
  ∀ filePath d st,
    resolveIncludes_on cwd stack filePath includeRoot (maxRecursion + k)
      (d + k) st
    = resolveIncludes_on cwd stack filePath includeRoot maxRecursion d st.
Proof.
  induction stack as [|stack IH]; intros filePath d st; [reflexivity|].
  rewrite !resolveIncludes_on_S.
  replace (d + k >? maxRecursion + k)%Z with (d >? maxRecursion)%Z by lia.
  destruct (d >? maxRecursion)%Z; [reflexivity|].
  unfold try_catch. rewrite !bind_eq.
  destruct (fs.readFileSync cwd filePath st) as [[content|e] st1];
    [|reflexivity].
  erewrite for_of_ext; [reflexivity|].
  intros acc x st'. apply resolveLine_ext. intros p st''.
  replace (d + k + 1)%Z with (d + 1 + k)%Z by lia. apply IH.
Qed.

End Unfolded.

(** X2. Within the limit, a path that cannot be read makes
    [resolveIncludes] throw the error of the read, wrapped once with the
    name of the file. For an absolute path in normal form, as every target
    of a directive is: ENOENT where the path names nothing because an entry
    is missing, ENOTDIR where it goes through a regular file, EISDIR where
    it names a directory. For the empty path, on a disk whose entries have
    names: ENOENT. Nothing is printed and nothing changes. *)
Theorem X2_resolveIncludes_unreadable (cwd : jsstring)
    (includeRoot : jsstring) (maxRecursion currentDepth : Z) (st : state) :
  (currentDepth ≤ maxRecursion)%Z →
  (∀ segs,
     Forall segment segs →
     let filePath := absolute segs in
     (disk st !! segs = None → way_free (disk st) segs →
      resolveIncludes cwd filePath includeRoot maxRecursion currentDepth st
      = (Throw (new_Error
           (js "Error processing file " ++ filePath
            ++ js ": ENOENT: no such file or directory, open '" ++ filePath
            ++ js "'")), st))
     ∧ (disk st !! segs = None →
        (∃ a c, a `prefix_of` segs ∧ disk st !! a = Some (File c)) →
        resolveIncludes cwd filePath includeRoot maxRecursion currentDepth st
        = (Throw (new_Error
             (js "Error processing file " ++ filePath
              ++ js ": ENOTDIR: not a directory, open '" ++ filePath
              ++ js "'")), st))
     ∧ (disk st !! segs = Some Directory →
        resolveIncludes cwd filePath includeRoot maxRecursion currentDepth st
        = (Throw (new_Error
             (js "Error processing file " ++ filePath
              ++ js ": EISDIR: illegal operation on a directory, read")),
           st)))
  ∧ (well_named (disk st) → disk st !! [] = Some Directory →
     resolveIncludes cwd [] includeRoot maxRecursion currentDepth st
     = (Throw (new_Error
          (js "Error processing file : ENOENT: no such file or directory, open ''")),
        st)).
Proof.
  intros Hd.
  assert (Hmissing : ∀ filePath code,
    disk st !! fs.key cwd filePath = None →
    fs.missing (disk st) (fs.key cwd filePath) = code →
    resolveIncludes cwd filePath includeRoot maxRecursion currentDepth st
    = (Throw (new_Error
         (js "Error processing file " ++ filePath ++ js ": " ++ code
          ++ js ", open '" ++ filePath ++ js "'")), st)).
  { intros filePath code Hkey <-. rewrite resolveIncludes_unfold.
    replace (currentDepth >? maxRecursion)%Z with false by lia.
    unfold try_catch, fs.readFileSync, fs.stat. rewrite !bind_eq.
    unfold mret at 1. unfold M_ret. rewrite Hkey. reflexivity. }
  split.
  - intros segs Hsegs filePath. subst filePath.
    pose proof (key_absolute cwd segs Hsegs) as Hk.
    split; [|split].
    + intros Hkey Hfree. apply (Hmissing _ fs.ENOENT); rewrite Hk.
      * exact Hkey.
      * apply missing_ENOENT, Hfree.
    + intros Hkey (a & c & Ha & Hlook).
      apply (Hmissing _ fs.ENOTDIR); rewrite Hk.
      * exact Hkey.
      * apply (missing_ENOTDIR _ _ a c); assumption.
    + intros Hkey. rewrite resolveIncludes_unfold.
      replace (currentDepth >? maxRecursion)%Z with false by lia.
      unfold try_catch, fs.readFileSync, fs.stat. rewrite !bind_eq.
      unfold mret at 1. unfold M_ret. rewrite Hk, Hkey. reflexivity.
  - intros Hnamed Hroot.
    destruct (empty_path_names_nothing cwd (disk st) Hnamed Hroot)
      as [Hkey Hcode].
    apply (Hmissing [] fs.ENOENT Hkey Hcode).
Qed.

Lemma X2_resolveIncludes_unreadable_witness :
  resolveIncludes Scenario.cwd (js "/w/none.html") (js "/w") 10 0
    Scenario.detour
  = (Throw (new_Error
       (js "Error processing file /w/none.html: ENOENT: no such file or directory, open '/w/none.html'")),
     Scenario.detour)
  ∧ resolveIncludes Scenario.cwd (js "/w/a.html/x") (js "/w") 10 0
      Scenario.detour
    = (Throw (new_Error
         (js "Error processing file /w/a.html/x: ENOTDIR: not a directory, open '/w/a.html/x'")),
       Scenario.detour)
  ∧ resolveIncludes Scenario.cwd (js "/w/sub") (js "/w") 10 0
      Scenario.detour
    = (Throw (new_Error
         (js "Error processing file /w/sub: EISDIR: illegal operation on a directory, read")),
       Scenario.detour)
  ∧ resolveIncludes Scenario.cwd [] (js "/w") 10 0 Scenario.detour
    = (Throw (new_Error
         (js "Error processing file : ENOENT: no such file or directory, open ''")),
       Scenario.detour).
Proof.
  destruct (X2_resolveIncludes_unreadable Scenario.cwd (js "/w") 10 0
              Scenario.detour) as [Hpath Hempty]; [lia|].
  split; [|split; [|split]].
  - apply (Hpath [js "w"; js "none.html"]).
    + apply (bool_decide_eq_true_1 _). vm_compute. reflexivity.
    + reflexivity.
    + apply way_free_tested. vm_compute. reflexivity.
  - apply (Hpath [js "w"; js "a.html"; js "x"]).
    + apply (bool_decide_eq_true_1 _). vm_compute. reflexivity.
    + reflexivity.
    + exists [js "w"; js "a.html"], (js "##include <sub>" ++ [LF]
                                      ++ js "##include <a.html>").
      split; [exists [js "x"]|]; reflexivity.
  - apply (Hpath [js "w"; js "sub"]).
    + apply (bool_decide_eq_true_1 _). vm_compute. reflexivity.
    + reflexivity.
  - apply Hempty; [|reflexivity].
    apply (bool_decide_eq_true_1 _). vm_compute. reflexivity.
Defined.

(** X3. Raising the limit changes no success: an expansion that returns a
    text under [maxRecursion] returns the same text, with the same
    diagnostics, under every larger limit. *)
Theorem X3_resolveIncludes_limit_monotone (cwd : jsstring)
    (filePath includeRoot : jsstring) (maxRecursion maxRecursion' d : Z)
    (st st' : state) (out : jsstring) :
  (maxRecursion ≤ maxRecursion')%Z →
  resolveIncludes cwd filePath includeRoot maxRecursion d st
  = (Normal out, st') →
  resolveIncludes cwd filePath includeRoot maxRecursion' d st
  = (Normal out, st').
Proof.
  intros Hle. eapply resolveIncludes_limit; [exact Hle|reflexivity].
Qed.

Lemma X3_resolveIncludes_limit_monotone_witness :
  resolveIncludes Scenario.cwd (js "/w/a.html") (js "/w") 25 0 Scenario.three
  = (Normal (js "end" ++ [LF; LF; LF]), Scenario.three).
Proof.
  apply (X3_resolveIncludes_limit_monotone Scenario.cwd (js "/w/a.html")
           (js "/w") 2 25 0 Scenario.three); [lia|].
  vm_compute. reflexivity.
Defined.

(** X4. Only the distance to the limit matters: a nested call at depth [d]
    under the limit [maxRecursion] behaves, result, exception and
    diagnostics, as a top-level call under the limit [maxRecursion - d]. *)
Theorem X4_resolveIncludes_remaining_depth (cwd : jsstring)
    (filePath includeRoot : jsstring) (maxRecursion d : Z) (st : state) :
  resolveIncludes cwd filePath includeRoot maxRecursion d st
  = resolveIncludes cwd filePath includeRoot (maxRecursion - d) 0 st.
Proof.
  unfold resolveIncludes.
  replace (maxRecursion - d + 1 - 0)%Z with (maxRecursion + 1 - d)%Z by lia.
  rewrite <- (resolveIncludes_on_shift cwd includeRoot (maxRecursion - d) d).
  replace (maxRecursion - d + d)%Z with maxRecursion by lia.
  reflexivity.
Qed.

(** X5. The expansion of a file depends on its content, not on where the
    file lies: two regular files with the same content, resolved within the
    limit against the same include root, both succeed with the same text
    and diagnostics, or both fail, with the same message after the prefix
    that names the file. *)
Theorem X5_resolveIncludes_location (cwd : jsstring)
    (f1 f2 includeRoot content : jsstring) (maxRecursion d : Z)
    (st : state) :
  file_at cwd (disk st) f1 content →
  file_at cwd (disk st) f2 content →
  (d ≤ maxRecursion)%Z →
  match resolveIncludes cwd f1 includeRoot maxRecursion d st,
        resolveIncludes cwd f2 includeRoot maxRecursion d st with
  | (Normal out1, st1), (Normal out2, st2) => out1 = out2 ∧ st1 = st2
  | (Throw e1, st1), (Throw e2, st2) =>
      st1 = st2
      ∧ ∃ text,
          message e1 = js "Error processing file " ++ f1 ++ js ": " ++ text
          ∧ message e2 = js "Error processing file " ++ f2 ++ js ": " ++ text
  | _, _ => False
  end.
Proof.
  intros H1 H2 Hd.
  rewrite (resolveIncludes_file cwd f1 includeRoot content) by assumption.
  rewrite (resolveIncludes_file cwd f2 includeRoot content) by assumption.
  unfold try_catch.
  destruct (expandLines cwd includeRoot maxRecursion d _ st)
    as [[out|e] st1].
  - split; reflexivity.
  - split; [reflexivity|]. exists (message e). split; reflexivity.
Qed.

Lemma X5_resolveIncludes_location_witness :
  match resolveIncludes Pages.cwd (js "/w/body.html") (js "/w") 10 0
          Pages.site,
        resolveIncludes Pages.cwd (js "/w/sub/copy.html") (js "/w") 10 0
          Pages.site with
  | (Normal out1, st1), (Normal out2, st2) => out1 = out2 ∧ st1 = st2
  | (Throw e1, st1), (Throw e2, st2) =>
      st1 = st2
      ∧ ∃ text,
          message e1
          = js "Error processing file " ++ js "/w/body.html" ++ js ": "
            ++ text
          ∧ message e2
            = js "Error processing file " ++ js "/w/sub/copy.html"
              ++ js ": " ++ text
  | _, _ => False
  end.
Proof.
  apply (X5_resolveIncludes_location Pages.cwd (js "/w/body.html")
           (js "/w/sub/copy.html") (js "/w") (js "##include <b.html>") 10 0
           Pages.site); [vm_compute; reflexivity..|lia].
Defined.

(** ** Nothing is removed *)

Lemma kinds_kept_refl (σ : gmap (list jsstring) node) : kinds_kept σ σ.
Proof. intros k [c|] Hk; eauto. Qed.

Lemma kinds_kept_trans (σ1 σ2 σ3 : gmap (list jsstring) node) :
  kinds_kept σ1 σ2 → kinds_kept σ2 σ3 → kinds_kept σ1 σ3.
Proof.
  intros H12 H23 k [c|] Hk.
  - destruct (H12 k _ Hk) as [c' Hk']. apply (H23 k _ Hk').
  - apply (H23 k Directory), (H12 k Directory), Hk.
Qed.

Lemma kinds_kept_mkdir (σ : gmap (list jsstring) node) (a : list jsstring) :
  σ !! a = None → kinds_kept σ (<[a := Directory]> σ).
Proof.
  intros Ha k n Hk. assert (a ≠ k) by congruence.
  rewrite lookup_insert_ne by assumption. rewrite Hk.
  destruct n; eauto.
Qed.

Lemma kinds_kept_write (σ : gmap (list jsstring) node) (k : list jsstring)
    (content : jsstring) :
  σ !! k ≠ Some Directory → kinds_kept σ (<[k := File content]> σ).
Proof.
  intros Hk k' n Hk'. destruct (decide (k = k')) as [<-|Hne].
  - rewrite lookup_insert_eq. destruct n; [eauto|congruence].
  - rewrite lookup_insert_ne by assumption. rewrite Hk'. destruct n; eauto.
Qed.

Lemma same_outside_refl (k : list jsstring)
    (σ : gmap (list jsstring) node) : same_outside k σ σ.
Proof. intros a _. reflexivity. Qed.

Lemma same_outside_trans (k : list jsstring)
    (σ1 σ2 σ3 : gmap (list jsstring) node) :
  same_outside k σ1 σ2 → same_outside k σ2 σ3 → same_outside k σ1 σ3.
Proof. intros H12 H23 a Ha. rewrite H23, H12 by exact Ha. reflexivity. Qed.

Section Respects.

Variable Rel : gmap (list jsstring) node → gmap (list jsstring) node → Prop.
Hypothesis Rel_refl : ∀ σ, Rel σ σ.
Hypothesis Rel_trans : ∀ σ1 σ2 σ3, Rel σ1 σ2 → Rel σ2 σ3 → Rel σ1 σ3.

Lemma respects_ret {A : Type} (a : A) : respects Rel (mret a).
Proof. intros st. apply Rel_refl. Qed.

Lemma respects_throw {A : Type} (e : Error) : respects Rel (mthrow e : M A).
Proof. intros st. apply Rel_refl. Qed.

Lemma respects_bind {A B : Type} (m : M A) (f : A → M B) :
  respects Rel m → (∀ a, respects Rel (f a)) → respects Rel (m ≫= f).
Proof.
  intros Hm Hf st. rewrite bind_eq. specialize (Hm st).
  destruct (m st) as [[a|e] st1]; [|exact Hm].
  eapply Rel_trans; [exact Hm|apply Hf].
Qed.

Lemma respects_try_catch {A : Type} (body : M A) (handler : Error → M A) :
  respects Rel body → (∀ e, respects Rel (handler e)) →
  respects Rel (try_catch body handler).
Proof.
  intros Hm Hf st. unfold try_catch. specialize (Hm st).
  destruct (body st) as [[a|e] st1]; [exact Hm|].
  eapply Rel_trans; [exact Hm|apply Hf].
Qed.

Lemma respects_for_of {X A : Type} (xs : list X) (body : A → X → M A) :
  (∀ acc x, x ∈ xs → respects Rel (body acc x)) →
  ∀ acc, respects Rel (for_of xs body acc).
Proof.
  induction xs as [|x xs IH]; intros Hbody acc; cbn [for_of].
  - apply respects_ret.
  - apply respects_bind; [apply Hbody, list_elem_of_here|].
    intros acc'. apply IH. intros acc'' y Hy.
    apply Hbody, list_elem_of_further, Hy.
Qed.

Lemma respects_print (s : stream) (text : jsstring) :
  respects Rel (print s text).
Proof. intros st. apply Rel_refl. Qed.

Lemma respects_read_only {A : Type} (m : M A) :
  (∀ st, disk (m st).2 = disk st) → respects Rel m.
Proof. intros H st. rewrite H. apply Rel_refl. Qed.

Variable cwd : jsstring.
Variable util_format : jsstring → jsstring → jsstring.

(** The two functions that write, given what their two writing calls
    respect. *)
Lemma respects_writeFileSync (p content : jsstring) :
  (∀ fail, respects Rel (fs.write fail (fs.key cwd p) content)) →
  respects Rel (fs.writeFileSync cwd p content).
Proof.
  intros Hwrite. unfold fs.writeFileSync.
  destruct p; [apply respects_throw|apply Hwrite].
Qed.

Lemma respects_copyFileSync (src dest : jsstring) :
  (∀ fail content, respects Rel (fs.write fail (fs.key cwd dest) content)) →
  respects Rel (fs.copyFileSync cwd src dest).
Proof.
  intros Hwrite. unfold fs.copyFileSync.
  apply respects_bind; [apply respects_read_only; reflexivity|].
  intros [[c|]|].
  - destruct dest; [apply respects_throw|apply Hwrite].
  - apply respects_throw.
  - apply respects_bind; [apply respects_read_only; reflexivity|].
    intros code. apply respects_throw.
Qed.

Lemma respects_processTextFile (filePath outputDir includeRoot : jsstring)
    (maxRecursion : Z) (watchRoot : jsstring) :
  let outputFilePath :=
    path.join [outputDir; path.relative cwd watchRoot filePath] in
  respects Rel (fs.mkdirSync cwd (path.dirname outputFilePath)) →
  (∀ fail content,
     respects Rel (fs.write fail (fs.key cwd outputFilePath) content)) →
  respects Rel
    (processTextFile cwd filePath outputDir includeRoot maxRecursion
       watchRoot).
Proof.
  intros outputFilePath Hmkdir Hwrite.
  apply respects_try_catch; [|intros e; apply respects_print].
  apply respects_bind.
  - apply respects_read_only. intros st. apply resolveIncludes_disk.
  - intros out. apply respects_bind; [exact Hmkdir|]. intros _.
    apply respects_bind; [|intros _; apply respects_print].
    apply respects_writeFileSync. intros fail. apply Hwrite.
Qed.

Lemma respects_copyBinaryFile (filePath outputDir watchRoot : jsstring) :
  let outputFilePath :=
    path.join [outputDir; path.relative cwd watchRoot filePath] in
  respects Rel (fs.mkdirSync cwd (path.dirname outputFilePath)) →
  (∀ fail content,
     respects Rel (fs.write fail (fs.key cwd outputFilePath) content)) →
  respects Rel (copyBinaryFile cwd util_format filePath outputDir watchRoot).
Proof.
  intros outputFilePath Hmkdir Hwrite.
  apply respects_try_catch; [|intros e; apply respects_print].
  apply respects_bind; [exact Hmkdir|]. intros _.
  apply respects_bind; [|intros _; apply respects_print].
  apply respects_copyFileSync, Hwrite.
Qed.

End Respects.

Lemma keeps_ret {A : Type} (a : A) : keeps (mret a).
Proof. apply respects_ret, kinds_kept_refl. Qed.

Lemma keeps_throw {A : Type} (e : Error) : keeps (mthrow e : M A).
Proof. apply respects_throw, kinds_kept_refl. Qed.

Lemma keeps_bind {A B : Type} (m : M A) (f : A → M B) :
  keeps m → (∀ a, keeps (f a)) → keeps (m ≫= f).
Proof. apply respects_bind, kinds_kept_trans. Qed.

Lemma keeps_for_of {X A : Type} (xs : list X) (body : A → X → M A)
    (acc : A) :
  (∀ acc x, keeps (body acc x)) → keeps (for_of xs body acc).
Proof.
  intros Hbody.
  apply (respects_for_of _ kinds_kept_refl kinds_kept_trans).
  intros acc' x _. apply Hbody.
Qed.

Lemma keeps_print (s : stream) (text : jsstring) : keeps (print s text).
Proof. apply respects_print, kinds_kept_refl. Qed.

Lemma keeps_read_only {A : Type} (m : M A) :
  (∀ st, disk (m st).2 = disk st) → keeps m.
Proof. apply respects_read_only, kinds_kept_refl. Qed.

Lemma keeps_mkdir_one (p : jsstring) (target a : list jsstring) :
  keeps (fs.mkdir_one p target a).
Proof.
  intros st. unfold fs.mkdir_one.
  destruct (disk st !! a) as [[c|]|] eqn:Ha; try apply kinds_kept_refl.
  apply kinds_kept_mkdir, Ha.
Qed.

Lemma keeps_mkdirSync (cwd p : jsstring) : keeps (fs.mkdirSync cwd p).
Proof.
  unfold fs.mkdirSync. destruct p; [apply keeps_throw|].
  apply keeps_for_of. intros _ a. apply keeps_mkdir_one.
Qed.

Lemma keeps_write (fail : jsstring → Error) (k : list jsstring)
    (content : jsstring) :
  keeps (fs.write fail k content).
Proof.
  intros st. unfold fs.write.
  destruct (fs.parent k) as [d|]; [|apply kinds_kept_refl].
  destruct (disk st !! d) as [[c|]|]; try apply kinds_kept_refl.
  destruct (disk st !! k) as [[c|]|] eqn:Hk; try apply kinds_kept_refl;
    apply kinds_kept_write; rewrite Hk; discriminate.
Qed.

Section Keeps.

Variable cwd : jsstring.
Variable toLowerCase : jsstring → jsstring.
Variable util_format : jsstring → jsstring → jsstring.

Lemma keeps_processTextFile (filePath outputDir includeRoot : jsstring)
    (maxRecursion : Z) (watchRoot : jsstring) :
  keeps (processTextFile cwd filePath outputDir includeRoot maxRecursion
           watchRoot).
Proof.
  apply (respects_processTextFile _ kinds_kept_refl kinds_kept_trans).
  - apply keeps_mkdirSync.
  - intros fail content. apply keeps_write.
Qed.

Lemma keeps_copyBinaryFile (filePath outputDir watchRoot : jsstring) :
  keeps (copyBinaryFile cwd util_format filePath outputDir watchRoot).
Proof.
  apply (respects_copyBinaryFile _ kinds_kept_refl kinds_kept_trans).
  - apply keeps_mkdirSync.
  - intros fail content. apply keeps_write.
Qed.

Lemma keeps_processEntry (recurse : jsstring → M unit)
    (inputDir outputDir : jsstring) (textExtensions : gset jsstring)
    (includeRoot : jsstring) (maxRecursion : Z) (watchRoot file : jsstring) :
  (∀ p, keeps (recurse p)) →
  keeps (processEntry cwd toLowerCase util_format recurse inputDir outputDir
           textExtensions includeRoot maxRecursion watchRoot file).
Proof.
  intros Hr. unfold processEntry.
  destruct (inOutputDir cwd _ outputDir); [apply keeps_ret|].
  apply keeps_bind.
  - apply keeps_read_only. intros st. unfold fs.lstatSync, fs.stat.
    unfold mbind, M_bind, mret, M_ret, mthrow, M_throw.
    destruct (disk st !! _) as [[c|]|]; reflexivity.
  - intros stats. destruct (fs.isDirectory stats); [apply Hr|].
    destruct (isTextFile _ _ _);
      [apply keeps_processTextFile|apply keeps_copyBinaryFile].
Qed.

Lemma keeps_processDirectory (stack : nat) :
  ∀ inputDir outputDir textExtensions includeRoot maxRecursion watchRoot,
    keeps (processDirectory cwd toLowerCase util_format stack inputDir outputDir
             textExtensions includeRoot maxRecursion watchRoot).
Proof.
  induction stack as [|stack IH]; intros; [apply keeps_throw|].
  cbn [processDirectory]. apply keeps_bind.
  - apply keeps_read_only. intros st. unfold fs.readdirSync, fs.stat.
    unfold mbind, M_bind, mret, M_ret, mthrow, M_throw.
    destruct (disk st !! _) as [[c|]|]; reflexivity.
  - intros files. apply keeps_for_of. intros _ file.
    apply keeps_processEntry. intros p. apply IH.
Qed.

Lemma keeps_onChange (directory outputDir : jsstring)
    (textExtensions : gset jsstring) (includeRoot : jsstring)
    (maxRecursion : Z) (watchRoot eventType : jsstring)
    (filename : option jsstring) :
  keeps (onChange cwd toLowerCase util_format directory outputDir textExtensions
           includeRoot maxRecursion watchRoot eventType filename).
Proof.
  unfold onChange. apply keeps_bind; [apply keeps_print|]. intros _.
  destruct filename as [[|c name]|]; try apply keeps_ret.
  destruct (inOutputDir cwd _ outputDir); [apply keeps_ret|].
  apply keeps_bind; [apply keeps_read_only; reflexivity|].
  intros [|]; [|apply keeps_ret].
  apply keeps_bind.
  - apply keeps_read_only. intros st. unfold fs.lstatSync, fs.stat.
    unfold mbind, M_bind, mret, M_ret, mthrow, M_throw.
    destruct (disk st !! _) as [[c'|]|]; reflexivity.
  - intros stats. destruct (fs.isFile stats); [|apply keeps_ret].
    destruct (isTextFile _ _ _); (apply keeps_bind; [apply keeps_print|]);
      intros _; [apply keeps_processTextFile|apply keeps_copyBinaryFile].
Qed.

Lemma keeps_deliver (directory outputDir : jsstring)
    (textExtensions : gset jsstring) (includeRoot : jsstring)
    (maxRecursion : Z) (watchRoot : jsstring) (events : list event) :
  keeps (deliver cwd toLowerCase util_format directory outputDir textExtensions
           includeRoot maxRecursion watchRoot events).
Proof.
  induction events as [|[eventType filename|code] events IH];
    cbn [deliver]; [apply keeps_ret| |apply keeps_print].
  apply keeps_bind; [apply keeps_onChange|]. intros _. exact IH.
Qed.

End Keeps.

(** Registering the listener changes nothing, and succeeds when the path
    names something. *)
Lemma watch_state (cwd p : jsstring) (st : state) :
  (fs.watch cwd p st).2 = st.
Proof.
  unfold fs.watch, fs.stat. rewrite bind_eq.
  destruct (disk st !! fs.key cwd p); reflexivity.
Qed.

Lemma watch_found (cwd p : jsstring) (st : state) :
  is_Some (disk st !! fs.key cwd p) → fs.watch cwd p st = (Normal (), st).
Proof.
  intros [n Hn]. unfold fs.watch, fs.stat. rewrite bind_eq, Hn. reflexivity.
Qed.

(** X6. The walk and the watcher never delete: whatever the arguments, the
    stack and the notifications, every path that named a regular file
    before [processDirectory] or [watchDirectory] ran names a regular file
    afterwards, and every directory is still a directory, whether the call
    returns or throws. Only [resetOutputDirectory] removes anything. *)
Theorem X6_mirror_never_deletes (cwd : jsstring)
    (toLowerCase : jsstring → jsstring)
    (util_format : jsstring → jsstring → jsstring)
      (inputDir outputDir : jsstring)
    (textExtensions : gset jsstring) (includeRoot : jsstring)
    (maxRecursion : Z) (watchRoot : jsstring) (st : state) :
  (∀ stack,
     kinds_kept (disk st)
       (disk (processDirectory cwd toLowerCase util_format stack inputDir
                outputDir
                textExtensions includeRoot maxRecursion watchRoot st).2))
  ∧ (∀ events,
       kinds_kept (disk st)
         (disk (watchDirectory cwd toLowerCase util_format inputDir outputDir
                  textExtensions includeRoot maxRecursion events watchRoot
                  st).2)).
Proof.
  split.
  - intros stack. apply keeps_processDirectory.
  - intros events. unfold watchDirectory.
    apply keeps_bind.
    { apply keeps_read_only. intros st'. rewrite watch_state. reflexivity. }
    intros _. apply (keeps_bind (console_log _)); [apply keeps_print|].
    intros _. apply keeps_deliver.
Qed.

(** ** What is caught *)

(** A computation that returns normally, whatever the state. *)
Lemma returns_try_catch_print (body : M unit) (s : stream)
    (text : Error → jsstring) (st : state) :
  (try_catch body (λ e, print s (text e)) st).1 = Normal ().
Proof.
  unfold try_catch. destruct (body st) as [[[]|e] st1]; reflexivity.
Qed.

Section Caught.

Variable cwd : jsstring.
Variable toLowerCase : jsstring → jsstring.
Variable util_format : jsstring → jsstring → jsstring.

Lemma processTextFile_returns (filePath outputDir includeRoot : jsstring)
    (maxRecursion : Z) (watchRoot : jsstring) (st : state) :
  (processTextFile cwd filePath outputDir includeRoot maxRecursion watchRoot
     st).1 = Normal ().
Proof. apply (returns_try_catch_print _ stderr message). Qed.

Lemma copyBinaryFile_returns (filePath outputDir watchRoot : jsstring)
    (st : state) :
  (copyBinaryFile cwd util_format filePath outputDir watchRoot st).1
  = Normal ().
Proof.
  apply (returns_try_catch_print _ stderr
           (λ e, util_format (js "Error copying file " ++ filePath ++ js ":")
                   (message e))).
Qed.

Lemma onChange_returns (directory outputDir : jsstring)
    (textExtensions : gset jsstring) (includeRoot : jsstring)
    (maxRecursion : Z) (watchRoot eventType : jsstring)
    (filename : option jsstring) (st : state) :
  (onChange cwd toLowerCase util_format directory outputDir textExtensions
     includeRoot maxRecursion watchRoot eventType filename st).1 = Normal ().
Proof.
  unfold onChange. rewrite bind_eq. unfold console_log at 1, print.
  destruct filename as [[|c name]|]; try reflexivity.
  destruct (inOutputDir cwd _ outputDir); [reflexivity|].
  unfold fs.existsSync, fs.lstatSync, fs.stat.
  unfold mbind, M_bind, mret, M_ret, mthrow, M_throw. cbn [disk console].
  destruct (disk st !! _) as [[content|]|] eqn:Hk; cbn [disk console];
    unfold jsstring in *; rewrite ?Hk; try reflexivity.
  cbn [fs.isFile].
  destruct (isTextFile _ _ _); unfold console_log, print;
    [apply processTextFile_returns|apply copyBinaryFile_returns].
Qed.

Lemma deliver_returns (directory outputDir : jsstring)
    (textExtensions : gset jsstring) (includeRoot : jsstring)
    (maxRecursion : Z) (watchRoot : jsstring) (events : list event) :
  ∀ st,
    (deliver cwd toLowerCase util_format directory outputDir textExtensions
       includeRoot maxRecursion watchRoot events st).1 = Normal ().
Proof.
  induction events as [|[eventType filename|code] events IH]; intros st;
    cbn [deliver]; [reflexivity| |reflexivity].
  rewrite bind_eq.
  pose proof (onChange_returns directory outputDir textExtensions
                includeRoot maxRecursion watchRoot eventType filename st)
    as Hone.
  destruct (onChange _ _ _ _ _ _ _ _ _ _ _ st) as [[[]|e] st2];
    [apply IH|discriminate].
Qed.

End Caught.

(** X7. The watcher throws only as it starts. For a watched directory given
    by its absolute path in normal form: when the path names something on
    disk, [watchDirectory] returns normally, whatever the notifications are
    and whatever else is on disk: an exception of the expansion, of
    [mkdirSync], of the write or of the copy is caught within the handling
    of its own notification. When the path names nothing because an entry is
    missing, [fs.watch] throws as the listener is registered: the exception
    is not caught, nothing is printed and no notification is handled. *)
Theorem X7_watcher_throws_only_at_start (cwd : jsstring)
    (toLowerCase : jsstring → jsstring)
    (util_format : jsstring → jsstring → jsstring) (W : list jsstring)
    (outputDir : jsstring) (textExtensions : gset jsstring)
    (includeRoot : jsstring) (maxRecursion : Z) (watchRoot : jsstring)
    (events : list event) (st : state) :
  Forall segment W →
  (is_Some (disk st !! W) →
   (watchDirectory cwd toLowerCase util_format (absolute W) outputDir
      textExtensions includeRoot maxRecursion events watchRoot st).1
   = Normal ())
  ∧ (disk st !! W = None → way_free (disk st) W →
     ∃ e,
       watchDirectory cwd toLowerCase util_format (absolute W) outputDir
         textExtensions includeRoot maxRecursion events watchRoot st
       = (Throw e, st)).
Proof.
  intros HW. pose proof (key_absolute cwd W HW) as Hk.
  unfold watchDirectory. rewrite bind_eq. split.
  - intros Hthere. rewrite watch_found by (rewrite Hk; exact Hthere).
    rewrite bind_eq. unfold console_log at 1, print.
    apply deliver_returns.
  - intros Hmissing Hfree. unfold fs.watch, fs.stat, fs.absent.
    rewrite !bind_eq. unfold mret at 1. unfold M_ret.
    rewrite Hk, Hmissing. rewrite bind_eq.
    rewrite missing_ENOENT by exact Hfree. eexists. reflexivity.
Qed.

Lemma X7_watcher_throws_only_at_start_witness :
  (watchDirectory Scenario.cwd id Scenario.util_format (js "/w")
     (js "/w/dist") {[ js ".html" ]} (js "/w") 1
     [change (js "change") (Some (js "a.html"))] (js "/w")
     Scenario.selfish).1
  = Normal ()
  ∧ ∃ e,
      watchDirectory Scenario.cwd id Scenario.util_format (js "/w/none")
        (js "/w/dist") {[ js ".html" ]} (js "/w") 1
        [change (js "change") (Some (js "a.html"))] (js "/w/none")
        Scenario.selfish
      = (Throw e, Scenario.selfish).
Proof.
  split.
  - apply (X7_watcher_throws_only_at_start Scenario.cwd id
             Scenario.util_format [js "w"] (js "/w/dist") {[ js ".html" ]}
             (js "/w") 1 (js "/w")
             [change (js "change") (Some (js "a.html"))] Scenario.selfish).
    + apply (bool_decide_eq_true_1 _). vm_compute. reflexivity.
    + exists Directory. reflexivity.
  - apply (X7_watcher_throws_only_at_start Scenario.cwd id
             Scenario.util_format [js "w"; js "none"] (js "/w/dist")
             {[ js ".html" ]} (js "/w") 1 (js "/w/none")
             [change (js "change") (Some (js "a.html"))] Scenario.selfish).
    + apply (bool_decide_eq_true_1 _). vm_compute. reflexivity.
    + reflexivity.
    + apply way_free_tested. vm_compute. reflexivity.
Defined.

(** X8. A notification that names no file to work on only leaves its trace
    on the console: when it carries no name or an empty one, or when the
    path it names is not there any more or is a directory, the listener
    prints the event and the name, changes nothing on disk and returns. *)
Theorem X8_onChange_nothing_to_do (cwd : jsstring)
    (toLowerCase : jsstring → jsstring)
    (util_format : jsstring → jsstring → jsstring)
      (directory outputDir : jsstring)
    (textExtensions : gset jsstring) (includeRoot : jsstring)
    (maxRecursion : Z) (watchRoot eventType : jsstring)
    (filename : option jsstring) (st : state) :
  filename = None ∨ filename = Some []
  ∨ (∃ name,
       filename = Some name
       ∧ (disk st !! fs.key cwd (path.join [directory; name]) = None
          ∨ disk st !! fs.key cwd (path.join [directory; name])
            = Some Directory)) →
  onChange cwd toLowerCase util_format directory outputDir textExtensions
    includeRoot maxRecursion watchRoot eventType filename st
  = (Normal (),
     State (disk st)
       (console st
        ++ [(stdout, eventType ++ js " " ++ default (js "null") filename)])).
Proof.
  intros Hcase. unfold onChange. rewrite bind_eq.
  unfold console_log at 1, print.
  destruct Hcase as [->| [->| (name & -> & Hkey)]]; try reflexivity.
  destruct name as [|c name]; [reflexivity|].
  destruct (inOutputDir cwd _ outputDir); [reflexivity|].
  unfold fs.existsSync, fs.lstatSync, fs.stat.
  unfold mbind, M_bind, mret, M_ret, mthrow, M_throw. cbn [disk console].
  unfold jsstring in *.
  destruct Hkey as [Hkey|Hkey]; rewrite Hkey; cbn [disk console];
    rewrite ?Hkey; reflexivity.
Qed.

Lemma X8_onChange_nothing_to_do_witness :
  onChange Scenario.cwd id Scenario.util_format (js "/w") (js "/w/dist")
    {[ js ".html" ]}
    (js "/w") 10 (js "/w") (js "rename") (Some (js "gone.html"))
    Scenario.hello
  = (Normal (),
     State (disk Scenario.hello) [(stdout, js "rename gone.html")]).
Proof.
  apply (X8_onChange_nothing_to_do Scenario.cwd id Scenario.util_format
    (js "/w") (js "/w/dist")
           {[ js ".html" ]} (js "/w") 10 (js "/w") (js "rename")
           (Some (js "gone.html")) Scenario.hello).
  right. right. exists (js "gone.html"). split; [reflexivity|].
  left. vm_compute. reflexivity.
Defined.

(** ** The walk, at its edges *)

Lemma omap_all_None {X Y : Type} (f : X → option Y) (l : list X) :
  (∀ x, x ∈ l → f x = None) → omap f l = [].
Proof.
  induction l as [|x l IH]; intros H; [reflexivity|].
  cbn [omap list_omap]. rewrite (H x) by apply list_elem_of_here.
  apply IH. intros y Hy. apply H, list_elem_of_further, Hy.
Qed.

(** X9. [processDirectory] does not look before it lists. For an input
    directory given by its absolute path in normal form: where the path
    names nothing it throws the error of the listing, ENOENT where an entry
    is missing and ENOTDIR where the path goes through a regular file; on a
    regular file it throws ENOTDIR; each uncaught and with nothing changed;
    on a directory that holds nothing it returns with nothing changed and
    nothing printed. For the empty path, on a disk whose entries have names,
    it throws ENOENT. *)
Theorem X9_processDirectory_edges (cwd : jsstring)
    (toLowerCase : jsstring → jsstring)
    (util_format : jsstring → jsstring → jsstring) (stack : nat)
    (outputDir : jsstring) (textExtensions : gset jsstring)
    (includeRoot : jsstring) (maxRecursion : Z) (watchRoot : jsstring)
    (st : state) :
  let run inputDir :=
    processDirectory cwd toLowerCase util_format (S stack) inputDir
      outputDir textExtensions includeRoot maxRecursion watchRoot st in
  (∀ W,
     Forall segment W →
     let inputDir := absolute W in
     (disk st !! W = None → way_free (disk st) W →
      run inputDir
      = (Throw (new_Error
           (js "ENOENT: no such file or directory, scandir '" ++ inputDir
            ++ js "'")), st))
     ∧ (disk st !! W = None →
        (∃ a c, a `prefix_of` W ∧ disk st !! a = Some (File c)) →
        run inputDir
        = (Throw (new_Error
             (js "ENOTDIR: not a directory, scandir '" ++ inputDir
              ++ js "'")), st))
     ∧ (∀ content,
          disk st !! W = Some (File content) →
          run inputDir
          = (Throw (new_Error
               (js "ENOTDIR: not a directory, scandir '" ++ inputDir
                ++ js "'")), st))
     ∧ (disk st !! W = Some Directory →
        map_Forall (λ k _, fs.entry_name W k = None) (disk st) →
        run inputDir = (Normal (), st)))
  ∧ (well_named (disk st) → disk st !! [] = Some Directory →
     run []
     = (Throw (new_Error
          (js "ENOENT: no such file or directory, scandir ''")), st)).
Proof.
  intros run. subst run. cbn [processDirectory].
  unfold fs.readdirSync, fs.stat, fs.absent.
  unfold mbind, M_bind, mret, M_ret, mthrow, M_throw. cbn [disk].
  split.
  - intros W HW. cbv zeta. rewrite (key_absolute cwd W HW).
    split; [|split; [|split]].
    + intros Hkey Hfree. rewrite Hkey, missing_ENOENT by exact Hfree.
      reflexivity.
    + intros Hkey (a & c & Ha & Hlook).
      rewrite Hkey, (missing_ENOTDIR _ _ a c) by assumption. reflexivity.
    + intros content ->. reflexivity.
    + intros -> Hempty. rewrite omap_all_None; [reflexivity|].
      intros [k n] Hk. apply elem_of_map_to_list in Hk.
      apply (Hempty k n Hk).
  - intros Hnamed Hroot.
    destruct (empty_path_names_nothing cwd (disk st) Hnamed Hroot)
      as [Hkey Hcode].
    rewrite Hkey, Hcode. reflexivity.
Qed.

Lemma X9_processDirectory_edges_witness :
  processDirectory Scenario.cwd id Scenario.util_format 1
    (js "/w/none") (js "/w/dist") {[ js ".html" ]} (js "/w") 10
    (js "/w") Scenario.detour
  = (Throw (new_Error
       (js "ENOENT: no such file or directory, scandir '/w/none'")),
     Scenario.detour)
  ∧ processDirectory Scenario.cwd id Scenario.util_format 1
      (js "/w/a.html/x") (js "/w/dist") {[ js ".html" ]} (js "/w") 10
      (js "/w") Scenario.detour
    = (Throw (new_Error
         (js "ENOTDIR: not a directory, scandir '/w/a.html/x'")),
       Scenario.detour)
  ∧ processDirectory Scenario.cwd id Scenario.util_format 1
      (js "/w/a.html") (js "/w/dist") {[ js ".html" ]} (js "/w") 10
      (js "/w") Scenario.detour
    = (Throw (new_Error
         (js "ENOTDIR: not a directory, scandir '/w/a.html'")),
       Scenario.detour)
  ∧ processDirectory Scenario.cwd id Scenario.util_format 1
      (js "/w/sub") (js "/w/dist") {[ js ".html" ]} (js "/w") 10
      (js "/w") Scenario.detour
    = (Normal (), Scenario.detour)
  ∧ processDirectory Scenario.cwd id Scenario.util_format 1 []
      (js "/w/dist") {[ js ".html" ]} (js "/w") 10 (js "/w")
      Scenario.detour
    = (Throw (new_Error
         (js "ENOENT: no such file or directory, scandir ''")),
       Scenario.detour).
Proof.
  destruct (X9_processDirectory_edges Scenario.cwd id Scenario.util_format
              0 (js "/w/dist") {[ js ".html" ]} (js "/w") 10 (js "/w")
              Scenario.detour) as [Hpath Hempty].
  split; [|split; [|split; [|split]]].
  - apply (Hpath [js "w"; js "none"]).
    + apply (bool_decide_eq_true_1 _). vm_compute. reflexivity.
    + reflexivity.
    + apply way_free_tested. vm_compute. reflexivity.
  - apply (Hpath [js "w"; js "a.html"; js "x"]).
    + apply (bool_decide_eq_true_1 _). vm_compute. reflexivity.
    + reflexivity.
    + exists [js "w"; js "a.html"], (js "##include <sub>" ++ [LF]
                                      ++ js "##include <a.html>").
      split; [exists [js "x"]|]; reflexivity.
  - apply (Hpath [js "w"; js "a.html"])
      with (content := js "##include <sub>" ++ [LF]
                       ++ js "##include <a.html>").
    + apply (bool_decide_eq_true_1 _). vm_compute. reflexivity.
    + vm_compute. reflexivity.
  - apply (Hpath [js "w"; js "sub"]).
    + apply (bool_decide_eq_true_1 _). vm_compute. reflexivity.
    + vm_compute. reflexivity.
    + apply (bool_decide_eq_true_1 _). vm_compute. reflexivity.
  - apply Hempty; [|reflexivity].
    apply (bool_decide_eq_true_1 _). vm_compute. reflexivity.
Defined.

Lemma normalizeString_absolute (segs : list jsstring) (b : bool) :
  Forall segment segs →
  path.normalizeString (absolute segs) b = path.join_segments segs.
Proof.
  intros H. unfold path.normalizeString.
  destruct (segments_absolute segs H) as [Hp _].
  rewrite normalizeSegments_pieces; rewrite Hp.
  - rewrite filter_cons_False by auto. rewrite filter_pieces by exact H.
    reflexivity.
  - constructor; [auto|]. apply pieces_pieces, H.
Qed.

Lemma normalizeString_absolute_app (segs rest : list jsstring) (b : bool) :
  Forall segment segs → Forall segment rest → rest ≠ [] →
  path.normalizeString (absolute segs ++ SLASH :: path.join_segments rest) b
  = path.join_segments (segs ++ rest).
Proof.
  intros H Hrest Hne. unfold path.normalizeString.
  destruct (segments_absolute segs H) as [_ Hp].
  destruct (segments_join rest Hrest) as [Hr _].
  assert (Hpieces : pieces rest = rest)
    by (destruct rest; [congruence|reflexivity]).
  rewrite normalizeSegments_pieces; rewrite Hp, Hr, Hpieces.
  - rewrite filter_cons_False by auto.
    rewrite filter_app, filter_pieces, filter_segments by assumption.
    reflexivity.
  - constructor; [auto|]. apply Forall_app. split.
    + apply pieces_pieces, H.
    + eapply Forall_impl; [exact Hrest|]. auto.
Qed.

Lemma normalize_rooted (t : jsstring) :
  path.normalize (SLASH :: t)
  = match path.normalizeString (SLASH :: t) false with
    | [] => [SLASH]
    | (_ :: _) as q =>
        SLASH :: (if path.endsWithSlash (SLASH :: t) then q ++ [SLASH] else q)
    end.
Proof. reflexivity. Qed.

(** [path.join] of a directory in normal form and a relative path of
    names. *)
Lemma join_absolute (segs rest : list jsstring) :
  Forall segment segs → Forall segment rest →
  path.join [absolute segs; path.join_segments rest]
  = absolute (segs ++ rest).
Proof.
  intros H Hrest. unfold path.join.
  rewrite filter_cons_True by discriminate.
  destruct (decide (rest = [])) as [->|Hne].
  - rewrite app_nil_r. cbn [path.join_segments].
    rewrite filter_cons_False by auto. rewrite filter_nil.
    cbn [path.join_segments]. unfold absolute at 1.
    rewrite normalize_rooted. fold (absolute segs).
    rewrite normalizeString_absolute by exact H.
    destruct (path.join_segments segs) as [|c q] eqn:Hq;
      [unfold absolute; rewrite Hq; reflexivity|].
    change (absolute segs) with ([SLASH] ++ path.join_segments segs).
    rewrite endsWithSlash_absolute; [rewrite Hq; reflexivity|exact H|].
    intros ->. discriminate.
  - pose proof (join_segments_nonempty rest Hrest Hne) as Hj.
    rewrite filter_cons_True by exact Hj. rewrite filter_nil.
    change (path.join_segments [absolute segs; path.join_segments rest])
      with (SLASH :: (path.join_segments segs
                      ++ SLASH :: path.join_segments rest)).
    rewrite normalize_rooted.
    change (SLASH :: (path.join_segments segs
                      ++ SLASH :: path.join_segments rest))
      with (absolute segs ++ SLASH :: path.join_segments rest).
    rewrite normalizeString_absolute_app by assumption.
    assert (Hall : Forall segment (segs ++ rest))
      by (apply Forall_app; split; assumption).
    assert (Hne' : segs ++ rest ≠ []).
    { intros [_ ?]%app_eq_nil. contradiction. }
    pose proof (join_segments_nonempty _ Hall Hne') as Hq.
    destruct (path.join_segments (segs ++ rest)) as [|c q] eqn:Heq;
      [congruence|].
    replace (absolute segs ++ SLASH :: path.join_segments rest)
      with ((absolute segs ++ [SLASH]) ++ path.join_segments rest)
      by (rewrite <- app_assoc; reflexivity).
    rewrite endsWithSlash_absolute by assumption.
    unfold absolute. rewrite Heq. reflexivity.
Qed.

Lemma join_absolute_name (segs : list jsstring) (name : jsstring) :
  Forall segment segs → segment name →
  path.join [absolute segs; name] = absolute (segs ++ [name]).
Proof.
  intros H Hname. apply (join_absolute segs [name]); [exact H|].
  constructor; [exact Hname|constructor].
Qed.

Lemma strip_common_app (xs ys : list jsstring) :
  path.strip_common xs (xs ++ ys) = ([], ys).
Proof.
  induction xs as [|x xs IH]; [reflexivity|].
  cbn [app path.strip_common]. unfold path.jsstring_eqb.
  rewrite bool_decide_eq_true_2 by reflexivity. exact IH.
Qed.

Section NormalForms.

Variable cwd : jsstring.

(** [path.relative] from a directory in normal form to an entry below
    it. *)
Lemma relative_absolute (segs rest : list jsstring) :
  Forall segment segs → Forall segment rest →
  path.relative cwd (absolute segs) (absolute (segs ++ rest))
  = path.join_segments rest.
Proof.
  intros H Hrest.
  assert (Hall : Forall segment (segs ++ rest))
    by (apply Forall_app; split; assumption).
  assert (Heq : absolute segs = absolute (segs ++ rest) →
                path.join_segments rest = []).
  { intros Heq. apply (f_equal (fs.key cwd)) in Heq.
    rewrite !key_absolute in Heq by assumption.
    assert (rest = []) as ->; [|reflexivity].
    apply (f_equal length) in Heq. rewrite length_app in Heq.
    destruct rest; [reflexivity|]. cbn [length] in Heq. lia. }
  unfold path.relative, path.jsstring_eqb.
  rewrite !resolve_absolute by assumption.
  destruct (bool_decide (absolute segs = absolute (segs ++ rest))) eqn:Hb.
  - apply bool_decide_eq_true_1 in Hb. symmetry. apply Heq, Hb.
  - rewrite !resolvedSegments_absolute by assumption.
    rewrite strip_common_app. reflexivity.
Qed.

(** The output-root test holds of everything below the output root. *)
Lemma inOutputDir_below (segs rest : list jsstring) :
  Forall segment segs → Forall segment rest →
  inOutputDir cwd (absolute (segs ++ rest)) (absolute segs) = true.
Proof.
  intros H Hrest. unfold inOutputDir.
  rewrite !resolve_absolute
    by (try apply Forall_app; try split; assumption).
  destruct (decide (segs = [])) as [->|Hs]; [reflexivity|].
  destruct (decide (rest = [])) as [->|Hr].
  - rewrite app_nil_r. rewrite <- (app_nil_r (absolute segs)) at 1.
    apply startsWith_app.
  - unfold absolute. rewrite join_segments_app by assumption.
    apply (startsWith_app (SLASH :: path.join_segments segs)).
Qed.

End NormalForms.

Lemma drop_while_all (f : N → bool) (s rest : jsstring) :
  forallb f s = true →
  path.drop_while f (s ++ rest) = path.drop_while f rest.
Proof.
  induction s as [|c s IH]; [reflexivity|].
  cbn [forallb]. rewrite andb_true_iff. intros [Hc Hs].
  cbn [app path.drop_while]. rewrite Hc. apply IH, Hs.
Qed.

Lemma forallb_rev {X : Type} (f : X → bool) (l : list X) :
  forallb f (rev l) = forallb f l.
Proof.
  induction l as [|x l IH]; [reflexivity|].
  cbn [rev forallb]. rewrite forallb_app, IH. cbn [forallb].
  rewrite andb_true_r. apply andb_comm.
Qed.

(** [path.dirname] of an entry in normal form is its directory. *)
Lemma dirname_absolute (segs : list jsstring) (name : jsstring) :
  Forall segment segs → segment name →
  path.dirname (absolute (segs ++ [name])) = absolute segs.
Proof.
  intros H Hname.
  pose proof Hname as (Hne & _ & _ & Hslash)%segment_inv.
  assert (Hfirst : ∀ rest,
    path.drop_while path.is_slash (rev name ++ rest) = rev name ++ rest).
  { intros rest. destruct name as [|c name] using rev_ind; [congruence|].
    rewrite rev_app_distr. cbn [rev app path.drop_while].
    rewrite forallb_app in Hslash. cbn [forallb] in Hslash.
    rewrite !andb_true_iff, negb_true_iff in Hslash.
    unfold path.is_slash. destruct Hslash as (_ & -> & _). reflexivity. }
  assert (Hname_rev :
    forallb (λ c, negb (path.is_slash c)) (rev name) = true).
  { rewrite forallb_rev. exact Hslash. }
  unfold path.dirname, absolute.
  change (SLASH =? SLASH) with true.
  destruct (decide (segs = [])) as [->|Hs].
  - cbn [app path.join_segments].
    rewrite <- (app_nil_r (rev name)), Hfirst, drop_while_all
      by exact Hname_rev.
    reflexivity.
  - rewrite join_segments_app by (assumption || discriminate).
    cbn [path.join_segments].
    rewrite rev_app_distr. cbn [rev]. rewrite <- app_assoc. cbn [app].
    rewrite Hfirst, drop_while_all by exact Hname_rev.
    cbn [path.drop_while]. change (path.is_slash SLASH) with true.
    cbn [negb].
    pose proof (join_segments_nonempty segs H Hs) as Hq.
    cbn [length]. rewrite length_rev.
    destruct (path.join_segments segs) as [|c q] eqn:Heq; [congruence|].
    cbn [length andb Nat.eqb take]. f_equal. f_equal.
    change (c :: q ++ SLASH :: name) with ((c :: q) ++ SLASH :: name).
    replace (S (length q)) with (length (c :: q)) by reflexivity.
    rewrite take_app_length. reflexivity.
Qed.

(** ** Where the output goes *)

Lemma parent_snoc (k : list jsstring) (name : jsstring) :
  fs.parent (k ++ [name]) = Some k.
Proof.
  unfold fs.parent. destruct (k ++ [name]) as [|x l] eqn:Hkn.
  - apply app_eq_nil in Hkn as [_ ?]. discriminate.
  - rewrite <- Hkn, removelast_last. reflexivity.
Qed.

(** The directories down to [k] are made and the entry [name] of [k] is
    written, where no regular file is in the way and the entry is no
    directory. *)
Lemma make_and_write (p : jsstring) (k : list jsstring)
    (name content : jsstring) (σ : gmap (list jsstring) node)
    (out : list (stream * jsstring)) :
  (∀ a c, a `prefix_of` k → σ !! a ≠ Some (File c)) →
  σ !! (k ++ [name]) ≠ Some Directory →
  ∃ σ',
    (∀ fail,
       (for_of ([] :: fs.ancestors [] k) (λ _ a, fs.mkdir_one p k a) ();;
        fs.write fail (k ++ [name]) content) (State σ out)
       = (Normal (), State σ' out))
    ∧ σ' !! (k ++ [name]) = Some (File content)
    ∧ (∀ a, a `prefix_of` k → σ' !! a = Some Directory)
    ∧ (∀ a, ¬ a `prefix_of` k ++ [name] → σ' !! a = σ !! a).
Proof.
  intros Hfree Hentry.
  destruct (mkdir_loop p k ([] :: fs.ancestors [] k) σ out)
    as (σ1 & Hrun & Hdirs & Hrest).
  { intros a c Ha. apply Hfree, mkdir_path_prefix, Ha. }
  assert (Hk : σ1 !! k = Some Directory) by apply Hdirs, mkdir_path_self.
  assert (Hsame : σ1 !! (k ++ [name]) = σ !! (k ++ [name])).
  { apply Hrest. intros Hin%mkdir_path_prefix.
    exact (not_prefix_snoc _ _ Hin). }
  exists (<[k ++ [name] := File content]> σ1).
  split; [|split; [|split]].
  - intros fail. rewrite bind_eq, Hrun. unfold fs.write.
    rewrite parent_snoc. cbn [disk console]. rewrite Hk, Hsame.
    destruct (σ !! (k ++ [name])) as [[c|]|]; congruence.
  - apply lookup_insert_eq.
  - intros a Ha. rewrite lookup_insert_ne.
    + apply Hdirs, mkdir_path_all, Ha.
    + intros <-. exact (not_prefix_snoc _ _ Ha).
  - intros a Ha. rewrite lookup_insert_ne.
    + apply Hrest. intros Hin%mkdir_path_prefix. apply Ha.
      apply prefix_app_r, Hin.
    + intros <-. apply Ha. reflexivity.
Qed.

Section Projection.

Variable cwd : jsstring.

(** The output path of an entry below the watched root has the same
    relative path below the output root. *)
Lemma output_path (W O R : list jsstring) :
  Forall segment W → Forall segment O → Forall segment R →
  path.join [absolute O;
             path.relative cwd (absolute W) (absolute (W ++ R))]
  = absolute (O ++ R).
Proof.
  intros HW HO HR. rewrite relative_absolute by assumption.
  apply join_absolute; assumption.
Qed.

(** Making the directory of the output path and writing the file. *)
Lemma store_output (O R : list jsstring) (name content : jsstring)
    (σ : gmap (list jsstring) node) (out : list (stream * jsstring)) :
  Forall segment O → Forall segment (R ++ [name]) →
  way_free σ (O ++ R) →
  σ !! (O ++ R ++ [name]) ≠ Some Directory →
  ∃ σ',
    (∀ fail,
       (fs.mkdirSync cwd (path.dirname (absolute (O ++ R ++ [name])));;
        fs.write fail (O ++ R ++ [name]) content) (State σ out)
       = (Normal (), State σ' out))
    ∧ σ' !! (O ++ R ++ [name]) = Some (File content)
    ∧ (∀ a, a `prefix_of` O ++ R → σ' !! a = Some Directory)
    ∧ (∀ a, ¬ a `prefix_of` O ++ R ++ [name] → σ' !! a = σ !! a).
Proof.
  intros HO HR Hfree Hentry.
  pose proof HR as [HR' Hname]%Forall_app. apply Forall_inv in Hname.
  assert (Hdir : Forall segment (O ++ R))
    by (apply Forall_app; split; assumption).
  rewrite (app_assoc O R [name]) in *.
  rewrite dirname_absolute by assumption.
  rewrite (mkdirSync_absolute cwd _ Hdir).
  apply make_and_write; assumption.
Qed.

End Projection.

(** X10. [processTextFile] mirrors the relative path: for a text file
    [R/name] below the watched root whose expansion returns a text, when no
    regular file lies on the way down to the directory [R] below the output
    root and the output path is no directory, the call makes the
    directories down to [R] below the output root, writes exactly the
    expansion at [R/name] below the output root, leaves every other entry
    as it was, prints the output path after the diagnostics of the
    expansion, and returns. *)
Theorem X10_processTextFile_mirrors (cwd : jsstring)
    (W O R : list jsstring) (name includeRoot : jsstring) (maxRecursion : Z)
    (out : jsstring) (st st1 : state) :
  Forall segment W → Forall segment O → Forall segment (R ++ [name]) →
  resolveIncludes cwd (absolute (W ++ R ++ [name])) includeRoot maxRecursion
    0 st = (Normal out, st1) →
  way_free (disk st) (O ++ R) →
  disk st !! (O ++ R ++ [name]) ≠ Some Directory →
  ∃ σ',
    processTextFile cwd (absolute (W ++ R ++ [name])) (absolute O)
      includeRoot maxRecursion (absolute W) st
    = (Normal (),
       State σ'
         (console st1
          ++ [(stdout, js "Processed text file written to: "
                       ++ absolute (O ++ R ++ [name]))]))
    ∧ σ' !! (O ++ R ++ [name]) = Some (File out)
    ∧ (∀ a, a `prefix_of` O ++ R → σ' !! a = Some Directory)
    ∧ (∀ a, ¬ a `prefix_of` O ++ R ++ [name] → σ' !! a = disk st !! a).
Proof.
  intros HW HO HR Hexp Hfree Hentry.
  assert (Hdisk : disk st1 = disk st).
  { rewrite <- (resolveIncludes_disk cwd (absolute (W ++ R ++ [name]))
                  includeRoot maxRecursion 0 st).
    rewrite Hexp. reflexivity. }
  destruct (store_output cwd O R name out (disk st) (console st1) HO HR
              Hfree Hentry) as (σ' & Hrun & Hfile & Hdirs & Hrest).
  exists σ'. split; [|auto].
  unfold processTextFile, try_catch. rewrite bind_eq, Hexp.
  rewrite output_path by assumption.
  assert (HK : Forall segment (O ++ R ++ [name]))
    by (apply Forall_app; split; assumption).
  specialize (Hrun (λ code, fs.errno code (js "open")
                              (absolute (O ++ R ++ [name])))).
  rewrite <- Hdisk in Hrun. destruct st1 as [σ1 c1]. cbn [disk console] in *.
  rewrite bind_eq in Hrun |- *.
  destruct (fs.mkdirSync cwd _ (State σ1 c1)) as [[[]|e] st2];
    [|discriminate].
  rewrite bind_eq, (writeFileSync_absolute cwd _ _ HK), Hrun. reflexivity.
Qed.

Lemma X10_processTextFile_mirrors_witness :
  ∃ σ',
    processTextFile Scenario.cwd (js "/w/a.html") (js "/w/dist/site")
      (js "/w") 10 (js "/w") Scenario.hello
    = (Normal (),
       State σ'
         [(stdout,
           js "Processed text file written to: /w/dist/site/a.html")])
    ∧ σ' !! [js "w"; js "dist"; js "site"; js "a.html"]
      = Some (File (js "Hello" ++ [LF; LF]))
    ∧ (∀ a, a `prefix_of` [js "w"; js "dist"; js "site"] →
            σ' !! a = Some Directory)
    ∧ (∀ a, ¬ a `prefix_of` [js "w"; js "dist"; js "site"; js "a.html"] →
            σ' !! a = disk Scenario.hello !! a).
Proof.
  apply (X10_processTextFile_mirrors Scenario.cwd [js "w"]
           [js "w"; js "dist"; js "site"] [] (js "a.html") (js "/w") 10
           (js "Hello" ++ [LF; LF]) Scenario.hello Scenario.hello).
  - repeat constructor.
  - repeat constructor.
  - repeat constructor.
  - vm_compute. reflexivity.
  - apply way_free_tested. vm_compute. reflexivity.
  - vm_compute. discriminate.
Defined.

(** A regular file is as it was after [mkdirSync], whether it returned or
    threw. *)
Lemma mkdirSync_file (cwd p : jsstring) (k : list jsstring) (c : jsstring)
    (st : state) :
  disk st !! k = Some (File c) →
  disk (fs.mkdirSync cwd p st).2 !! k = Some (File c).
Proof.
  unfold fs.mkdirSync. destruct p; [auto|].
  apply (for_of_invariant (λ st', disk st' !! k = Some (File c))).
  intros [] a st' Hk. unfold fs.mkdir_one.
  destruct (disk st' !! a) as [[c'|]|] eqn:Ha; try exact Hk.
  cbn [snd disk]. rewrite lookup_insert_ne; [exact Hk|congruence].
Qed.

(** X11. [copyBinaryFile] mirrors the relative path and copies the content
    as it is: for a regular file [R/name] below the watched root, when no
    regular file lies on the way down to the directory [R] below the output
    root and the output path is no directory, the call makes the
    directories down to [R] below the output root, gives the entry
    [R/name] there the content of the source, leaves every other entry,
    the source among them, as it was, prints the output path and
    returns. *)
Theorem X11_copyBinaryFile_mirrors (cwd : jsstring)
    (util_format : jsstring → jsstring → jsstring)
    (W O R : list jsstring) (name content : jsstring) (st : state) :
  Forall segment W → Forall segment O → Forall segment (R ++ [name]) →
  disk st !! (W ++ R ++ [name]) = Some (File content) →
  way_free (disk st) (O ++ R) →
  disk st !! (O ++ R ++ [name]) ≠ Some Directory →
  ∃ σ',
    copyBinaryFile cwd util_format (absolute (W ++ R ++ [name])) (absolute O)
      (absolute W) st
    = (Normal (),
       State σ'
         (console st
          ++ [(stdout, js "Copied binary file to: "
                       ++ absolute (O ++ R ++ [name]))]))
    ∧ σ' !! (O ++ R ++ [name]) = Some (File content)
    ∧ (∀ a, a `prefix_of` O ++ R → σ' !! a = Some Directory)
    ∧ (∀ a, ¬ a `prefix_of` O ++ R ++ [name] → σ' !! a = disk st !! a).
Proof.
  intros HW HO HR Hsrc Hfree Hentry.
  destruct (store_output cwd O R name content (disk st) (console st) HO HR
              Hfree Hentry) as (σ' & Hrun & Hfile & Hdirs & Hrest).
  exists σ'. split; [|auto].
  assert (Hall : Forall segment (W ++ R ++ [name]))
    by (apply Forall_app; split; assumption).
  unfold copyBinaryFile, try_catch.
  rewrite output_path by assumption.
  assert (HK : Forall segment (O ++ R ++ [name]))
    by (apply Forall_app; split; assumption).
  specialize (Hrun (λ code, fs.errno2 code (js "copyfile")
                              (absolute (W ++ R ++ [name]))
                              (absolute (O ++ R ++ [name])))).
  destruct st as [σ c0]. cbn [disk console] in *.
  rewrite bind_eq in Hrun |- *.
  pose proof (mkdirSync_file cwd
                (path.dirname (absolute (O ++ R ++ [name])))
                (W ++ R ++ [name]) content (State σ c0) Hsrc) as Hkept.
  destruct (fs.mkdirSync cwd _ (State σ c0)) as [[[]|e] st2];
    [|discriminate].
  cbn [snd] in Hkept. rewrite bind_eq.
  rewrite (copyFileSync_absolute cwd _ _ content)
    by (rewrite ?(key_absolute cwd _ Hall); assumption).
  rewrite Hrun. reflexivity.
Qed.

Lemma X11_copyBinaryFile_mirrors_witness :
  ∃ σ',
    copyBinaryFile Scenario.cwd Scenario.util_format (js "/w/a.html")
      (js "/w/dist/site") (js "/w") Scenario.hello
    = (Normal (),
       State σ'
         [(stdout, js "Copied binary file to: /w/dist/site/a.html")])
    ∧ σ' !! [js "w"; js "dist"; js "site"; js "a.html"]
      = Some (File (js "##include <b.html>"))
    ∧ (∀ a, a `prefix_of` [js "w"; js "dist"; js "site"] →
            σ' !! a = Some Directory)
    ∧ (∀ a, ¬ a `prefix_of` [js "w"; js "dist"; js "site"; js "a.html"] →
            σ' !! a = disk Scenario.hello !! a).
Proof.
  apply (X11_copyBinaryFile_mirrors Scenario.cwd Scenario.util_format [js "w"]
           [js "w"; js "dist"; js "site"] [] (js "a.html")
           (js "##include <b.html>") Scenario.hello).
  - repeat constructor.
  - repeat constructor.
  - repeat constructor.
  - vm_compute. reflexivity.
  - apply way_free_tested. vm_compute. reflexivity.
  - vm_compute. discriminate.
Defined.

(** ** The walk as a whole *)

Lemma same_outside_mkdir_one (K : list jsstring) (p : jsstring)
    (target a : list jsstring) :
  a `prefix_of` K → respects (same_outside K) (fs.mkdir_one p target a).
Proof.
  intros Ha st. unfold fs.mkdir_one.
  destruct (disk st !! a) as [[c|]|]; try apply same_outside_refl.
  intros a' Ha'. cbn [snd disk]. apply lookup_insert_ne. congruence.
Qed.

Lemma same_outside_mkdirSync (K : list jsstring) (cwd p : jsstring) :
  fs.key cwd p `prefix_of` K → respects (same_outside K) (fs.mkdirSync cwd p).
Proof.
  intros Hp. unfold fs.mkdirSync.
  destruct p; [apply respects_throw, same_outside_refl|].
  apply (respects_for_of _ (same_outside_refl K) (same_outside_trans K)).
  intros _ a Ha. apply same_outside_mkdir_one.
  etransitivity; [apply mkdir_path_prefix, Ha|exact Hp].
Qed.

Lemma same_outside_write (K : list jsstring) (fail : jsstring → Error)
    (k : list jsstring) (content : jsstring) :
  k `prefix_of` K → respects (same_outside K) (fs.write fail k content).
Proof.
  intros Hk st. unfold fs.write.
  destruct (fs.parent k) as [d|]; [|apply same_outside_refl].
  destruct (disk st !! d) as [[c|]|]; try apply same_outside_refl.
  destruct (disk st !! k) as [[c|]|]; try apply same_outside_refl;
    intros a Ha; cbn [snd disk]; apply lookup_insert_ne; congruence.
Qed.

Lemma mirrored_refl (O : list jsstring) (depth : nat)
    (σ : gmap (list jsstring) node) : mirrored O depth σ σ.
Proof. split; [apply kinds_kept_refl|]. split; auto. Qed.

Lemma mirrored_trans (O : list jsstring) (depth : nat)
    (σ1 σ2 σ3 : gmap (list jsstring) node) :
  mirrored O depth σ1 σ2 → mirrored O depth σ2 σ3 → mirrored O depth σ1 σ3.
Proof.
  intros (Hk1 & Ho1 & Ht1) (Hk2 & Ho2 & Ht2). split; [|split].
  - eapply kinds_kept_trans; eassumption.
  - intros a Ha1 Ha2. rewrite Ho2, Ho1 by assumption. reflexivity.
  - auto.
Qed.

(** What is changed on the way down to an entry below the output root is
    changed as the mirror changes it. *)
Lemma mirrored_below (O K : list jsstring) (depth : nat)
    (σ σ' : gmap (list jsstring) node) :
  Forall segment K → O `prefix_of` K → (length O ≤ depth)%nat →
  kinds_kept σ σ' → same_outside K σ σ' → mirrored O depth σ σ'.
Proof.
  intros HK HO HB Hkept Hsame. split; [exact Hkept|]. split.
  - intros a Ha1 Ha2. apply Hsame. intros Ha.
    destruct (prefix_weak_total a O K Ha HO); contradiction.
  - intros Htidy k n Hk. destruct (decide (k `prefix_of` K)) as [Hp|Hp].
    + split.
      * destruct Hp as [rest ->]. apply Forall_app in HK. tauto.
      * destruct (prefix_weak_total k O K Hp HO) as [H|H]; [left|right; exact H].
        apply prefix_length in H. lia.
    + rewrite (Hsame k Hp) in Hk. apply (Htidy k n Hk).
Qed.

Lemma entry_name_Some (d k : list jsstring) (name : jsstring) :
  fs.entry_name d k = Some name → k = d ++ [name].
Proof.
  revert k. induction d as [|x d IH]; intros k; cbn [fs.entry_name].
  - destruct k as [|y [|z k]]; try discriminate.
    intros [= ->]. reflexivity.
  - destruct k as [|y k]; [discriminate|]. unfold path.jsstring_eqb.
    destruct (bool_decide (x = y)) eqn:Hxy; [|discriminate].
    apply bool_decide_eq_true_1 in Hxy as ->. intros H%IH. cbn [app].
    congruence.
Qed.

Lemma lstatSync_found (cwd p : jsstring) (n : node) (st : state) :
  disk st !! fs.key cwd p = Some n →
  fs.lstatSync cwd p st
  = (Normal {| fs.isDirectory := match n with Directory => true | _ => false end;
               fs.isFile := match n with File _ => true | _ => false end |},
     st).
Proof.
  intros Hn. unfold fs.lstatSync, fs.stat. rewrite bind_eq, Hn.
  destruct n; reflexivity.
Qed.

Lemma readdirSync_found (cwd p : jsstring) (st : state) :
  disk st !! fs.key cwd p = Some Directory →
  fs.readdirSync cwd p st
  = (Normal (omap (λ kv, fs.entry_name (fs.key cwd p) kv.1)
               (map_to_list (disk st))), st).
Proof.
  intros Hn. unfold fs.readdirSync, fs.stat. rewrite bind_eq, Hn.
  reflexivity.
Qed.

Lemma readdirSync_failed (cwd p : jsstring) (st : state) :
  disk st !! fs.key cwd p ≠ Some Directory →
  ∃ e, fs.readdirSync cwd p st = (Throw e, st).
Proof.
  intros Hn. unfold fs.readdirSync, fs.stat. rewrite bind_eq.
  destruct (disk st !! fs.key cwd p) as [[c|]|]; [|congruence|];
    eexists; reflexivity.
Qed.

(** A loop whose turns keep [P], and return normally where [Q] holds. *)
Lemma for_of_walk {X : Type} (P : state → Prop) (Q : Prop) (xs : list X)
    (body : () → X → M ()) :
  (∀ x st, x ∈ xs → P st →
     P (body () x st).2 ∧ (Q → (body () x st).1 = Normal ())) →
  ∀ st, P st →
    P (for_of xs body () st).2 ∧ (Q → (for_of xs body () st).1 = Normal ()).
Proof.
  induction xs as [|x xs IH]; intros Hbody st HP; cbn [for_of].
  - split; [exact HP|reflexivity].
  - rewrite bind_eq.
    destruct (Hbody x st (list_elem_of_here _ _) HP) as [HP1 HQ1].
    destruct (body () x st) as [[[]|e] st1]; cbn [fst snd] in *.
    + apply IH; [|exact HP1]. intros y st' Hy.
      apply Hbody, list_elem_of_further, Hy.
    + split; [exact HP1|]. intros HQ. specialize (HQ1 HQ). discriminate.
Qed.

Section Walk.

Variable cwd : jsstring.
Variable toLowerCase : jsstring → jsstring.
Variable util_format : jsstring → jsstring → jsstring.
Variables W O : list jsstring.
Variable textExtensions : gset jsstring.
Variable includeRoot : jsstring.
Variable maxRecursion : Z.
Variable depth : nat.

Hypothesis W_named : Forall segment W.
Hypothesis O_named : Forall segment O.
Hypothesis O_depth : (length O ≤ depth)%nat.

(** What the two functions that write do for an entry below the watched
    root. *)
Lemma processTextFile_outside (R : list jsstring) (name : jsstring) :
  Forall segment (R ++ [name]) →
  respects (same_outside (O ++ R ++ [name]))
    (processTextFile cwd (absolute (W ++ R ++ [name])) (absolute O)
       includeRoot maxRecursion (absolute W)).
Proof.
  intros HR.
  pose proof HR as [HR' Hname]%Forall_app. apply Forall_inv in Hname.
  assert (HK : Forall segment (O ++ R ++ [name]))
    by (apply Forall_app; split; assumption).
  assert (Hdir : Forall segment (O ++ R))
    by (apply Forall_app; split; assumption).
  apply (respects_processTextFile _ (same_outside_refl _)
           (same_outside_trans _)); rewrite output_path by assumption.
  - apply same_outside_mkdirSync. rewrite (app_assoc O R [name]).
    rewrite dirname_absolute, key_absolute by assumption.
    apply prefix_app_r. reflexivity.
  - intros fail content. apply same_outside_write.
    rewrite key_absolute by assumption. reflexivity.
Qed.

Lemma copyBinaryFile_outside (R : list jsstring) (name : jsstring) :
  Forall segment (R ++ [name]) →
  respects (same_outside (O ++ R ++ [name]))
    (copyBinaryFile cwd util_format (absolute (W ++ R ++ [name])) (absolute O)
       (absolute W)).
Proof.
  intros HR.
  pose proof HR as [HR' Hname]%Forall_app. apply Forall_inv in Hname.
  assert (HK : Forall segment (O ++ R ++ [name]))
    by (apply Forall_app; split; assumption).
  assert (Hdir : Forall segment (O ++ R))
    by (apply Forall_app; split; assumption).
  apply (respects_copyBinaryFile _ (same_outside_refl _)
           (same_outside_trans _)); rewrite output_path by assumption.
  - apply same_outside_mkdirSync. rewrite (app_assoc O R [name]).
    rewrite dirname_absolute, key_absolute by assumption.
    apply prefix_app_r. reflexivity.
  - intros fail content. apply same_outside_write.
    rewrite key_absolute by assumption. reflexivity.
Qed.

Lemma processTextFile_mirrored (R : list jsstring) (name : jsstring) :
  Forall segment (R ++ [name]) →
  respects (mirrored O depth)
    (processTextFile cwd (absolute (W ++ R ++ [name])) (absolute O)
       includeRoot maxRecursion (absolute W)).
Proof.
  intros HR st.
  assert (HK : Forall segment (O ++ R ++ [name]))
    by (apply Forall_app; split; assumption).
  apply (mirrored_below O (O ++ R ++ [name]));
    [exact HK|apply prefix_app_r; reflexivity|exact O_depth| |].
  - apply keeps_processTextFile.
  - apply processTextFile_outside, HR.
Qed.

Lemma copyBinaryFile_mirrored (R : list jsstring) (name : jsstring) :
  Forall segment (R ++ [name]) →
  respects (mirrored O depth)
    (copyBinaryFile cwd util_format (absolute (W ++ R ++ [name])) (absolute O)
       (absolute W)).
Proof.
  intros HR st.
  assert (HK : Forall segment (O ++ R ++ [name]))
    by (apply Forall_app; split; assumption).
  apply (mirrored_below O (O ++ R ++ [name]));
    [exact HK|apply prefix_app_r; reflexivity|exact O_depth| |].
  - apply keeps_copyBinaryFile.
  - apply copyBinaryFile_outside, HR.
Qed.

(** A property of the disk that the two functions keep. *)
Variable J : gmap (list jsstring) node → Prop.

Lemma kept_by_files_below (scope scope' : list jsstring) :
  scope `prefix_of` scope' →
  kept_by_files cwd toLowerCase util_format W O textExtensions includeRoot
    maxRecursion J scope →
  kept_by_files cwd toLowerCase util_format W O textExtensions includeRoot
    maxRecursion J scope'.
Proof.
  intros HS Hkept R name c st HR Hscope. apply Hkept; [exact HR|].
  etransitivity; eassumption.
Qed.

(** One turn of the loop of the walk of the directory [R], for an entry
    [name] that is on disk, when the call for a sub-directory does what
    [walk] below says: the disk is changed as the mirror changes it, what
    the two functions keep is kept, and the turn returns normally where the
    stack has room for the levels still below the directory. *)
Lemma walk_entry (stack : nat) (R : list jsstring) (name : jsstring)
    (st : state) :
  (∀ (R' : list jsstring) (st' : state),
     Forall segment R' →
     tidy O depth (disk st') →
     kept_by_files cwd toLowerCase util_format W O textExtensions includeRoot
       maxRecursion J R' →
     let run :=
       processDirectory cwd toLowerCase util_format stack (absolute (W ++ R'))
         (absolute O) textExtensions includeRoot maxRecursion (absolute W)
         st'
     in
     (mirrored O depth (disk st') (disk run.2)
      ∧ (J (disk st') → J (disk run.2)))
     ∧ (disk st' !! (W ++ R') = Some Directory →
        (1 ≤ stack)%nat → (depth < stack + length (W ++ R'))%nat →
        run.1 = Normal ())) →
  Forall segment R →
  tidy O depth (disk st) →
  is_Some (disk st !! (W ++ R ++ [name])) →
  kept_by_files cwd toLowerCase util_format W O textExtensions includeRoot
    maxRecursion J (R ++ [name]) →
  let run :=
    processEntry cwd toLowerCase util_format
      (λ filePath,
         processDirectory cwd toLowerCase util_format stack filePath
           (absolute O) textExtensions includeRoot maxRecursion (absolute W))
      (absolute (W ++ R)) (absolute O) textExtensions includeRoot
      maxRecursion (absolute W) name st
  in
  (mirrored O depth (disk st) (disk run.2)
   ∧ (J (disk st) → J (disk run.2)))
  ∧ ((depth < S stack + length (W ++ R))%nat → run.1 = Normal ()).
Proof.
  intros IH HR Htidy [n Hnow] HJkept run. subst run.
  assert (HWR : Forall segment (W ++ R))
    by (apply Forall_app; split; assumption).
  rewrite (app_assoc W R [name]) in Hnow.
  destruct (Htidy _ _ Hnow) as [Hnamed Hdeep].
  pose proof Hnamed as [_ Hname]%Forall_app. apply Forall_inv in Hname.
  assert (HRn : Forall segment (R ++ [name]))
    by (apply Forall_app; split; [assumption|repeat constructor; assumption]).
  unfold processEntry. rewrite join_absolute_name by assumption.
  destruct (inOutputDir cwd _ (absolute O)) eqn:Hskip.
  { split; [split; [apply mirrored_refl|auto]|reflexivity]. }
  rewrite <- (app_assoc W R [name]) in *.
  rewrite bind_eq.
  rewrite (lstatSync_found cwd _ n)
    by (rewrite key_absolute by exact Hnamed; exact Hnow).
  destruct n as [c|]; cbn [fs.isDirectory].
  - pose proof (HJkept R name c st HRn (reflexivity _) Hnow Hskip)
      as HJstep.
    destruct (isTextFile toLowerCase _ textExtensions).
    + split; [split|].
      * apply processTextFile_mirrored, HRn.
      * exact HJstep.
      * intros _. apply processTextFile_returns.
    + split; [split|].
      * apply copyBinaryFile_mirrored, HRn.
      * exact HJstep.
      * intros _. apply copyBinaryFile_returns.
  - destruct (IH (R ++ [name]) st HRn Htidy HJkept) as [Hmir Hret].
    split; [exact Hmir|].
    intros Hroom. apply Hret; [exact Hnow| |].
    + destruct Hdeep as [Hlen|Hbelow].
      * rewrite !length_app in *. cbn [length] in *. lia.
      * exfalso. destruct Hbelow as [rest Hrest].
        rewrite Hrest in Hskip, Hnamed.
        rewrite inOutputDir_below in Hskip; [discriminate|exact O_named|].
        apply Forall_app in Hnamed. tauto.
    + rewrite !length_app in *. cbn [length] in *. lia.
Qed.

(** The turns of the loop for entries that were on disk in the state
    [st0], from a state the mirror has reached from it. *)
Lemma walk_turns (stack : nat) (R : list jsstring) (files : list jsstring)
    (st0 : state) :
  (∀ (R' : list jsstring) (st' : state),
     Forall segment R' →
     tidy O depth (disk st') →
     kept_by_files cwd toLowerCase util_format W O textExtensions includeRoot
       maxRecursion J R' →
     let run :=
       processDirectory cwd toLowerCase util_format stack (absolute (W ++ R'))
         (absolute O) textExtensions includeRoot maxRecursion (absolute W)
         st'
     in
     (mirrored O depth (disk st') (disk run.2)
      ∧ (J (disk st') → J (disk run.2)))
     ∧ (disk st' !! (W ++ R') = Some Directory →
        (1 ≤ stack)%nat → (depth < stack + length (W ++ R'))%nat →
        run.1 = Normal ())) →
  Forall segment R →
  tidy O depth (disk st0) →
  (∀ name, name ∈ files → is_Some (disk st0 !! (W ++ R ++ [name]))) →
  (∀ name, name ∈ files →
     kept_by_files cwd toLowerCase util_format W O textExtensions includeRoot
       maxRecursion J (R ++ [name])) →
  ∀ st : state,
    mirrored O depth (disk st0) (disk st) →
    let run :=
      for_of files
        (λ _ file,
           processEntry cwd toLowerCase util_format
             (λ filePath,
                processDirectory cwd toLowerCase util_format stack filePath
                  (absolute O)
                  textExtensions includeRoot maxRecursion (absolute W))
             (absolute (W ++ R)) (absolute O) textExtensions includeRoot
             maxRecursion (absolute W) file)
        () st
    in
    (mirrored O depth (disk st0) (disk run.2)
     ∧ (J (disk st) → J (disk run.2)))
    ∧ ((depth < S stack + length (W ++ R))%nat → run.1 = Normal ()).
Proof.
  intros IH HR Htidy Hthere HJkept st Hst run. subst run.
  apply (for_of_walk
           (λ st', mirrored O depth (disk st0) (disk st')
                   ∧ (J (disk st) → J (disk st')))
           (depth < S stack + length (W ++ R))%nat);
    [|split; [exact Hst|auto]].
  intros name st1 Hname [Hst1 HJ1].
  pose proof Hst1 as (Hkept & _ & Htidy1). specialize (Htidy1 Htidy).
  destruct (walk_entry stack R name st1 IH HR Htidy1) as [[Hmir HJ] Hret].
  - destruct (Hthere name Hname) as [n Hn]. specialize (Hkept _ _ Hn).
    destruct n as [c|]; [destruct Hkept as [c' Hkept]|]; eauto.
  - apply HJkept, Hname.
  - split; [split|exact Hret].
    + eapply mirrored_trans; eassumption.
    + auto.
Qed.

(** What [readdirSync] lists is on disk. *)
Lemma listed_there (d : list jsstring) (σ : gmap (list jsstring) node)
    (name : jsstring) :
  name ∈ omap (λ kv, fs.entry_name d kv.1) (map_to_list σ) →
  is_Some (σ !! (d ++ [name])).
Proof.
  intros ([k n] & Hk & Hentry)%list_elem_of_omap.
  apply elem_of_map_to_list in Hk. cbn [fst] in Hentry.
  apply entry_name_Some in Hentry as ->. eauto.
Qed.

(** The walk of the directory [R] below the watched root: the disk is
    changed as the mirror changes it, what the two functions keep is kept,
    and the call returns normally where the directory is there and the
    stack has room for the levels still below it. *)
Lemma walk (stack : nat) :
  ∀ (R : list jsstring) (st : state),
    Forall segment R →
    tidy O depth (disk st) →
    kept_by_files cwd toLowerCase util_format W O textExtensions includeRoot
      maxRecursion J R →
    let run :=
      processDirectory cwd toLowerCase util_format stack (absolute (W ++ R))
        (absolute O) textExtensions includeRoot maxRecursion (absolute W) st
    in
    (mirrored O depth (disk st) (disk run.2)
     ∧ (J (disk st) → J (disk run.2)))
    ∧ (disk st !! (W ++ R) = Some Directory →
       (1 ≤ stack)%nat → (depth < stack + length (W ++ R))%nat →
       run.1 = Normal ()).
Proof.
  induction stack as [|stack IH]; intros R st HR Htidy HJkept run;
    subst run.
  { split; [split; [apply mirrored_refl|auto]|]. intros _ Hstack. lia. }
  assert (HWR : Forall segment (W ++ R))
    by (apply Forall_app; split; assumption).
  cbn [processDirectory]. rewrite bind_eq.
  assert (Hcase : disk st !! (W ++ R) = Some Directory
                  ∨ disk st !! (W ++ R) ≠ Some Directory).
  { destruct (disk st !! (W ++ R)) as [[c|]|]; auto. }
  destruct Hcase as [Hdir|Hdir].
  2:{ destruct (readdirSync_failed cwd (absolute (W ++ R)) st) as [e ->].
      - rewrite key_absolute by exact HWR. exact Hdir.
      - split; [split; [apply mirrored_refl|auto]|]. intros H.
        contradiction. }
  rewrite readdirSync_found by (rewrite key_absolute by exact HWR; exact Hdir).
  rewrite (key_absolute cwd _ HWR).
  destruct (walk_turns stack R _ st IH HR Htidy
              (λ name Hname,
                 eq_ind_r (λ k, is_Some (disk st !! k))
                   (listed_there (W ++ R) (disk st) name Hname)
                   (app_assoc W R [name]))
              (λ name _,
                 kept_by_files_below R (R ++ [name])
                   (prefix_app_r R R [name] (reflexivity R)) HJkept)
              st (mirrored_refl _ _ _)) as [Hmir Hret].
  split; [exact Hmir|]. intros _ _ Hroom. apply Hret, Hroom.
Qed.

End Walk.

Lemma depth_exists (σ : gmap (list jsstring) node) :
  ∃ depth, depth_within depth σ.
Proof.
  assert (Hlist : ∀ l : list (list jsstring * node),
    ∃ depth, ∀ kv, kv ∈ l → (length kv.1 ≤ depth)%nat).
  { induction l as [|kv l [d IH]].
    - exists 0%nat. intros kv H. apply elem_of_nil in H. contradiction.
    - exists (Nat.max (length kv.1) d). intros kv' [->|H]%elem_of_cons.
      + lia.
      + specialize (IH kv' H). lia. }
  destruct (Hlist (map_to_list σ)) as [d Hd]. exists d.
  intros k n Hk. apply (Hd (k, n)). apply elem_of_map_to_list, Hk.
Qed.

Lemma tidy_intro (O : list jsstring) (depth : nat)
    (σ : gmap (list jsstring) node) :
  well_named σ → depth_within depth σ → tidy O depth σ.
Proof.
  intros Hnamed Hdepth k n Hk. split; [apply (Hnamed k n Hk)|].
  left. apply (Hdepth k n Hk).
Qed.

(** X12. On a disk whose entries are reached through names, the walk of a
    watched root that is a directory returns normally, provided the stack
    has room for one call more than the levels of the deepest entry and of
    the output root: every entry listed is still there when it is looked
    at, and what goes wrong with one file is caught with that file. *)
Theorem X12_walk_returns (cwd : jsstring)
    (toLowerCase : jsstring → jsstring)
    (util_format : jsstring → jsstring → jsstring) (W O : list jsstring)
    (textExtensions : gset jsstring) (includeRoot : jsstring)
    (maxRecursion : Z) (depth stack : nat) (st : state) :
  Forall segment W → Forall segment O →
  well_named (disk st) →
  depth_within depth (disk st) → (length O ≤ depth)%nat →
  disk st !! W = Some Directory →
  (depth < stack)%nat →
  (processDirectory cwd toLowerCase util_format stack (absolute W) (absolute O)
     textExtensions includeRoot maxRecursion (absolute W) st).1
  = Normal ().
Proof.
  intros HW HO Hnamed Hdepth HOd Hdir Hstack.
  destruct (walk cwd toLowerCase util_format W O textExtensions includeRoot
              maxRecursion depth HW HO HOd (λ _, True) stack [] st) as [_ Hret].
  - constructor.
  - apply tidy_intro; assumption.
  - intros R name c st1 _ _ _ _ _. exact I.
  - rewrite app_nil_r in Hret. apply Hret; [exact Hdir|lia|lia].
Qed.

Lemma X12_walk_returns_witness :
  (processDirectory Scenario.cwd id Scenario.util_format 4 (js "/w")
    (js "/w/dist")
     {[ js ".html" ]} (js "/w") 10 (js "/w") Scenario.stale).1
  = Normal ().
Proof.
  apply (X12_walk_returns Scenario.cwd id Scenario.util_format [js "w"]
    [js "w"; js "dist"]
           {[ js ".html" ]} (js "/w") 10 3 4 Scenario.stale).
  - repeat constructor.
  - repeat constructor.
  - apply (bool_decide_eq_true_1 _). vm_compute. reflexivity.
  - apply (bool_decide_eq_true_1 _). vm_compute. reflexivity.
  - cbn. lia.
  - vm_compute. reflexivity.
  - lia.
Defined.

(** X13. The walk writes only into the output tree: on a disk whose
    entries are reached through names, whatever the stack and whether the
    call returns or throws, every entry that lies neither below the output
    root nor above it is afterwards exactly as it was. A source file
    outside the output root is never modified. *)
Theorem X13_walk_touches_only_output (cwd : jsstring)
    (toLowerCase : jsstring → jsstring)
    (util_format : jsstring → jsstring → jsstring) (W O : list jsstring)
    (textExtensions : gset jsstring) (includeRoot : jsstring)
    (maxRecursion : Z) (stack : nat) (st : state) (a : list jsstring) :
  Forall segment W → Forall segment O →
  well_named (disk st) →
  ¬ a `prefix_of` O → ¬ O `prefix_of` a →
  disk (processDirectory cwd toLowerCase util_format stack (absolute W)
          (absolute O)
          textExtensions includeRoot maxRecursion (absolute W) st).2 !! a
  = disk st !! a.
Proof.
  intros HW HO Hnamed Ha1 Ha2.
  destruct (depth_exists (disk st)) as [d Hd].
  assert (Hdepth : depth_within (Nat.max d (length O)) (disk st)).
  { intros k n Hk. specialize (Hd k n Hk). cbn beta in Hd. lia. }
  destruct (walk cwd toLowerCase util_format W O textExtensions includeRoot
              maxRecursion
              (Nat.max d (length O)) HW HO (Nat.le_max_r _ _) (λ _, True)
              stack [] st)
    as [[(_ & Hout & _) _] _].
  - constructor.
  - apply tidy_intro; assumption.
  - intros R name c st1 _ _ _ _ _. exact I.
  - rewrite app_nil_r in Hout. apply Hout; assumption.
Qed.

Lemma X13_walk_touches_only_output_witness :
  disk (processDirectory Scenario.cwd id Scenario.util_format 4 (js "/w")
    (js "/w/dist")
          {[ js ".html" ]} (js "/w") 10 (js "/w") Scenario.stale).2
    !! [js "w"; js "a.html"]
  = disk Scenario.stale !! [js "w"; js "a.html"].
Proof.
  apply (X13_walk_touches_only_output Scenario.cwd id Scenario.util_format
           [js "w"] [js "w"; js "dist"] {[ js ".html" ]} (js "/w") 10 4
           Scenario.stale [js "w"; js "a.html"]).
  - repeat constructor.
  - repeat constructor.
  - apply (bool_decide_eq_true_1 _). vm_compute. reflexivity.
  - apply (bool_decide_eq_false_1 _). vm_compute. reflexivity.
  - apply (bool_decide_eq_false_1 _). vm_compute. reflexivity.
Defined.

Section Watcher.

Variable cwd : jsstring.
Variable toLowerCase : jsstring → jsstring.
Variable util_format : jsstring → jsstring → jsstring.
Variables W O : list jsstring.
Variable textExtensions : gset jsstring.
Variable includeRoot : jsstring.
Variable maxRecursion : Z.

Hypothesis W_named : Forall segment W.
Hypothesis O_named : Forall segment O.

Lemma onChange_mirrored (eventType : jsstring) (filename : option jsstring) :
  named_event (change eventType filename) →
  respects (mirrored O (length O))
    (onChange cwd toLowerCase util_format (absolute W) (absolute O)
       textExtensions includeRoot maxRecursion (absolute W) eventType filename).
Proof.
  pose proof (mirrored_refl O (length O)) as Hrefl.
  pose proof (mirrored_trans O (length O)) as Htrans.
  intros Hnamed. unfold onChange.
  apply respects_bind; [assumption|apply respects_print, Hrefl|].
  intros _. destruct filename as [[|c f]|]; try apply respects_ret, Hrefl.
  destruct Hnamed as (R & HR & Hf).
  destruct R as [|name R _] using rev_ind; [discriminate|].
  rewrite Hf, join_absolute by assumption.
  destruct (inOutputDir cwd _ (absolute O)); [apply respects_ret, Hrefl|].
  apply respects_bind;
    [assumption|apply respects_read_only; [exact Hrefl|reflexivity]|].
  intros [|]; [|apply respects_ret, Hrefl].
  apply respects_bind; [assumption| |].
  - apply respects_read_only; [exact Hrefl|]. intros st.
    unfold fs.lstatSync, fs.stat.
    unfold mbind, M_bind, mret, M_ret, mthrow, M_throw.
    destruct (disk st !! _) as [[c'|]|]; reflexivity.
  - intros stats. destruct (fs.isFile stats); [|apply respects_ret, Hrefl].
    destruct (isTextFile _ _ _);
      (apply respects_bind; [assumption|apply respects_print, Hrefl|]);
      intros _.
    + apply processTextFile_mirrored; auto.
    + apply copyBinaryFile_mirrored; auto.
Qed.

Lemma deliver_mirrored (events : list event) :
  Forall named_event events →
  respects (mirrored O (length O))
    (deliver cwd toLowerCase util_format (absolute W) (absolute O)
       textExtensions includeRoot maxRecursion (absolute W) events).
Proof.
  pose proof (mirrored_refl O (length O)) as Hrefl.
  pose proof (mirrored_trans O (length O)) as Htrans.
  induction 1 as [|[eventType filename|code] events He Hes IH];
    cbn [deliver];
    [apply respects_ret, Hrefl| |apply respects_print, Hrefl].
  apply respects_bind; [assumption|apply onChange_mirrored, He|].
  intros _. exact IH.
Qed.

End Watcher.

(** X14. The watcher writes only into the output tree: whatever is on disk,
    for notifications that carry no name or the relative path of an entry
    below the watched root, every entry that lies neither below the output
    root nor above it is, after [watchDirectory], exactly as it was. *)
Theorem X14_watcher_touches_only_output (cwd : jsstring)
    (toLowerCase : jsstring → jsstring)
    (util_format : jsstring → jsstring → jsstring) (W O : list jsstring)
    (textExtensions : gset jsstring) (includeRoot : jsstring)
    (maxRecursion : Z) (events : list event) (st : state)
    (a : list jsstring) :
  Forall segment W → Forall segment O →
  Forall named_event events →
  ¬ a `prefix_of` O → ¬ O `prefix_of` a →
  disk (watchDirectory cwd toLowerCase util_format (absolute W) (absolute O)
          textExtensions includeRoot maxRecursion events (absolute W)
          st).2 !! a
  = disk st !! a.
Proof.
  intros HW HO Hevents Ha1 Ha2.
  assert (Hrun : respects (mirrored O (length O))
    (watchDirectory cwd toLowerCase util_format (absolute W) (absolute O)
       textExtensions includeRoot maxRecursion events (absolute W))).
  { unfold watchDirectory.
    apply respects_bind; [apply mirrored_trans| |].
    { apply respects_read_only; [apply mirrored_refl|].
      intros st'. rewrite watch_state. reflexivity. }
    intros _.
    apply respects_bind;
      [apply mirrored_trans|apply respects_print, mirrored_refl|].
    intros _. apply deliver_mirrored; assumption. }
  destruct (Hrun st) as (_ & Hout & _). apply Hout; assumption.
Qed.

Lemma X14_watcher_touches_only_output_witness :
  disk (watchDirectory Scenario.cwd id Scenario.util_format (js "/w")
    (js "/w/dist")
          {[ js ".html" ]} (js "/w") 10
          [change (js "change") (Some (js "a.html")); close (js "0")]
          (js "/w") Scenario.hello).2
    !! [js "w"; js "a.html"]
  = disk Scenario.hello !! [js "w"; js "a.html"].
Proof.
  apply (X14_watcher_touches_only_output Scenario.cwd id Scenario.util_format
           [js "w"] [js "w"; js "dist"] {[ js ".html" ]} (js "/w") 10
           [change (js "change") (Some (js "a.html")); close (js "0")]
           Scenario.hello [js "w"; js "a.html"]).
  - repeat constructor.
  - repeat constructor.
  - constructor; [|constructor; [exact I|constructor]].
    exists [js "a.html"]. split; [repeat constructor|reflexivity].
  - apply (bool_decide_eq_false_1 _). vm_compute. reflexivity.
  - apply (bool_decide_eq_false_1 _). vm_compute. reflexivity.
Defined.

(** ** The command line *)

Lemma showUsage_eq (st : state) :
  showUsage st = (Normal (), State (disk st) (console st ++ usage)).
Proof.
  unfold usage, showUsage, mbind, M_bind, console_log, print.
  cbn [disk console app snd]. rewrite <- !app_assoc. reflexivity.
Qed.

Lemma split_on_nonempty (sep : N) (s : jsstring) :
  String_split_on sep s ≠ [].
Proof.
  destruct s as [|c s]; cbn [String_split_on]; [discriminate|].
  destruct (c =? sep); [discriminate|].
  destruct (String_split_on sep s); discriminate.
Qed.

Lemma split_on_one (sep : N) (s : jsstring) :
  forallb (λ c, negb (c =? sep)) s = true → String_split_on sep s = [s].
Proof.
  induction s as [|c s IH]; [reflexivity|].
  cbn [forallb]. rewrite andb_true_iff, negb_true_iff. intros [Hc Hs].
  cbn [String_split_on]. rewrite Hc, (IH Hs). reflexivity.
Qed.

Lemma split_on_app (sep : N) (k s : jsstring) :
  forallb (λ c, negb (c =? sep)) k = true →
  String_split_on sep (k ++ sep :: s) = k :: String_split_on sep s.
Proof.
  induction k as [|c k IH].
  - intros _. cbn [app String_split_on]. rewrite N.eqb_refl. reflexivity.
  - cbn [forallb]. rewrite andb_true_iff, negb_true_iff. intros [Hc Hk].
    cbn [app String_split_on]. rewrite Hc, (IH Hk). reflexivity.
Qed.

(** [arg.split('=')[1]] is there when the argument holds a [=]. *)
Lemma value_present (name t : jsstring) :
  no_equals name = true →
  ∃ v, String_split_on EQUALS (name ++ EQUALS :: t) !! 1%nat = Some v.
Proof.
  intros Hname. rewrite split_on_app by exact Hname.
  pose proof (split_on_nonempty EQUALS t) as Hne.
  destruct (String_split_on EQUALS t) as [|v l]; [congruence|].
  exists v. reflexivity.
Qed.

(** [arg.split('=')[1]] is the text between the first [=] and the
    second. *)
Lemma value_cut (name v rest : jsstring) :
  no_equals name = true → no_equals v = true → cut_off rest = true →
  String_split_on EQUALS (name ++ EQUALS :: v ++ rest) !! 1%nat = Some v.
Proof.
  intros Hname Hv Hrest. rewrite split_on_app by exact Hname.
  destruct rest as [|c rest].
  - rewrite app_nil_r, split_on_one by exact Hv. reflexivity.
  - cbn [cut_off] in Hrest. apply N.eqb_eq in Hrest as ->.
    rewrite split_on_app by exact Hv. reflexivity.
Qed.

Lemma split_first (sep : N) (s : jsstring) :
  existsb (N.eqb sep) s = true →
  ∃ k k', s = k ++ sep :: k' ∧ forallb (λ c, negb (c =? sep)) k = true.
Proof.
  induction s as [|c s IH]; [discriminate|].
  cbn [existsb]. destruct (N.eqb_spec sep c) as [<-|Hne].
  - intros _. exists [], s. split; reflexivity.
  - cbn [orb]. intros (k & k' & -> & Hk)%IH. exists (c :: k), k'.
    split; [reflexivity|]. cbn [forallb]. rewrite Hk, andb_true_r.
    apply negb_true_iff, N.eqb_neq. congruence.
Qed.

(** An argument that begins with the name of an option and [=] has a
    value. *)
Lemma value_there (arg p : jsstring) :
  startsWith arg p = true → existsb (N.eqb EQUALS) p = true →
  ∃ v, String_split_on EQUALS arg !! 1%nat = Some v.
Proof.
  intros [t ->]%startsWith_prefix (k & k' & -> & Hk)%split_first.
  rewrite <- app_assoc. cbn [app]. apply value_present, Hk.
Qed.

Ltac compute_tests t :=
  repeat match goal with
  | |- context [startsWith (?p ++ t) ?q] =>
      let b := eval vm_compute in (startsWith (p ++ t) q) in
      change (startsWith (p ++ t) q) with b
  | |- context [path.jsstring_eqb (?p ++ t) ?q] =>
      let b := eval vm_compute in (path.jsstring_eqb (p ++ t) q) in
      change (path.jsstring_eqb (p ++ t) q) with b
  end.

Section Arguments.

Variable cwd : jsstring.
Variable toLowerCase : jsstring → jsstring.

(** The callback, as a function of the options. *)
Lemma parseArgument_eq (o : options.t) (arg : jsstring) (st : state) :
  parseArgument cwd toLowerCase o arg st
  = if is_help arg then
      (Normal (Exits 0), State (disk st) (console st ++ usage))
    else (Normal (Returns (updated cwd toLowerCase o arg)), st).
Proof.
  unfold parseArgument, updated, is_help. cbv zeta.
  destruct (startsWith arg (js "--watch=")) eqn:H1.
  { destruct (value_there _ _ H1 eq_refl) as [v Hv].
    apply startsWith_prefix in H1 as [t ->]. unfold jsstring in *. rewrite !Hv.
    compute_tests t.
    destruct o; reflexivity. }
  destruct (startsWith arg (js "--output=")) eqn:H2.
  { destruct (value_there _ _ H2 eq_refl) as [v Hv].
    apply startsWith_prefix in H2 as [t ->]. unfold jsstring in *. rewrite !Hv.
    compute_tests t.
    destruct o; reflexivity. }
  destruct (startsWith arg (js "--textExtensions=")) eqn:H3.
  { destruct (value_there _ _ H3 eq_refl) as [v Hv].
    apply startsWith_prefix in H3 as [t ->]. unfold jsstring in *. rewrite !Hv.
    compute_tests t.
    destruct o; reflexivity. }
  destruct (path.jsstring_eqb arg (js "--skipDelete")) eqn:H4.
  { apply bool_decide_eq_true_1 in H4 as ->. destruct o; reflexivity. }
  destruct (startsWith arg (js "--childProcess=")) eqn:H5.
  { destruct (value_there _ _ H5 eq_refl) as [v Hv].
    apply startsWith_prefix in H5 as [t ->]. unfold jsstring in *. rewrite !Hv.
    compute_tests t.
    destruct o; reflexivity. }
  destruct (startsWith arg (js "--includeRoot=")) eqn:H6.
  { destruct (value_there _ _ H6 eq_refl) as [v Hv].
    apply startsWith_prefix in H6 as [t ->]. unfold jsstring in *. rewrite !Hv.
    compute_tests t.
    destruct o; reflexivity. }
  destruct (startsWith arg (js "--maxRecursion=")) eqn:H7.
  { destruct (value_there _ _ H7 eq_refl) as [v Hv].
    apply startsWith_prefix in H7 as [t ->]. unfold jsstring in *. rewrite !Hv.
    compute_tests t.
    destruct o; reflexivity. }
  destruct (path.jsstring_eqb arg (js "--help")
            || path.jsstring_eqb arg (js "-h")).
  - rewrite bind_eq, showUsage_eq. reflexivity.
  - destruct o; reflexivity.
Qed.

Lemma forEach_argument_eq (args : list jsstring) :
  ∀ (o : options.t) (st : state),
    forEach_argument cwd toLowerCase args o st
    = if existsb is_help args then
        (Normal (Exits 0), State (disk st) (console st ++ usage))
      else (Normal (Returns (foldl (updated cwd toLowerCase) o args)), st).
Proof.
  induction args as [|arg args IH]; intros o st; [reflexivity|].
  cbn [forEach_argument existsb foldl]. rewrite bind_eq, parseArgument_eq.
  destruct (is_help arg); [reflexivity|]. apply IH.
Qed.

Lemma parseArguments_eq (argv : list jsstring) (st : state) :
  parseArguments cwd toLowerCase argv st
  = if existsb is_help (drop 2 argv) then
      (Normal (Exits 0), State (disk st) (console st ++ usage))
    else
      (Normal (Returns
         (completed
            (foldl (updated cwd toLowerCase) (defaults cwd) (drop 2 argv)))),
       st).
Proof.
  unfold parseArguments. rewrite bind_eq, forEach_argument_eq.
  destruct (existsb is_help (drop 2 argv)); reflexivity.
Qed.

End Arguments.

(** X15. [parseArguments] never throws, and [--help] or [-h] anywhere among
    the arguments ends the process: with one of them, the usage is printed
    once, the exit code is 0 and nothing else happens, whatever the other
    arguments are; without, the options are returned, nothing is printed
    and nothing changes. *)
Theorem X15_parseArguments_help (cwd : jsstring)
    (toLowerCase : jsstring → jsstring) (argv : list jsstring)
    (st : state) :
  (existsb is_help (drop 2 argv) = true →
   parseArguments cwd toLowerCase argv st
   = (Normal (Exits 0), State (disk st) (console st ++ usage)))
  ∧ (existsb is_help (drop 2 argv) = false →
     ∃ o, parseArguments cwd toLowerCase argv st = (Normal (Returns o), st)).
Proof.
  rewrite parseArguments_eq. split; intros ->; eauto.
Qed.

Lemma X15_parseArguments_help_witness :
  parseArguments Scenario.cwd id
    [js "node"; js "index.js"; js "--watch=src"; js "-h"; js "--output"]
    Scenario.hello
  = (Normal (Exits 0), State (disk Scenario.hello) usage)
  ∧ ∃ o,
      parseArguments Scenario.cwd id
        [js "node"; js "index.js"; js "--watch=src"] Scenario.hello
      = (Normal (Returns o), Scenario.hello).
Proof.
  split.
  - apply (X15_parseArguments_help Scenario.cwd id
             [js "node"; js "index.js"; js "--watch=src"; js "-h";
              js "--output"] Scenario.hello).
    vm_compute. reflexivity.
  - apply (X15_parseArguments_help Scenario.cwd id
             [js "node"; js "index.js"; js "--watch=src"] Scenario.hello).
    vm_compute. reflexivity.
Defined.

Section Options.

Variable cwd : jsstring.
Variable toLowerCase : jsstring → jsstring.

(** A field that the arguments met leave alone is as it was. *)
Lemma foldl_updated_kept {X : Type} (proj : options.t → X)
    (met : jsstring → bool) :
  (∀ o arg, met arg = false →
            proj (updated cwd toLowerCase o arg) = proj o) →
  ∀ args o,
    Forall (λ arg, met arg = false) args →
    proj (foldl (updated cwd toLowerCase) o args) = proj o.
Proof.
  intros Hkept. induction args as [|arg args IH]; intros o Hargs;
    [reflexivity|].
  cbn [foldl]. apply Forall_cons in Hargs as [Harg Hargs].
  rewrite IH by exact Hargs. apply Hkept. exact Harg.
Qed.

(** The field an option sets is, after all the arguments, what the last
    occurrence of the option made it. *)
Lemma foldl_updated_last {X : Type} (proj : options.t → X)
    (met : jsstring → bool) (before after : list jsstring)
    (arg : jsstring) (o : options.t) :
  (∀ o arg, met arg = false →
            proj (updated cwd toLowerCase o arg) = proj o) →
  Forall (λ arg, met arg = false) after →
  proj (foldl (updated cwd toLowerCase) o (before ++ arg :: after))
  = proj (updated cwd toLowerCase
            (foldl (updated cwd toLowerCase) o before) arg).
Proof.
  intros Hkept Hafter. rewrite foldl_app. cbn [foldl].
  apply (foldl_updated_kept proj met); assumption.
Qed.

Lemma resolve_nonempty (args : list jsstring) : path.resolve cwd args ≠ [].
Proof.
  unfold path.resolve.
  destruct (path.resolve_loop (rev args ++ [cwd]) []) as [p [|]];
    [discriminate|].
  destruct (path.normalizeString p (negb false)); discriminate.
Qed.

Lemma completed_includeRoot (o : options.t) (r : jsstring) :
  options.includeRoot o = Some r → r ≠ [] →
  options.includeRoot (completed o) = Some r.
Proof.
  intros Hr Hne. unfold completed. rewrite Hr.
  destruct r; [congruence|exact Hr].
Qed.

End Options.

(** X16. The last occurrence of an option wins, and its value is the text
    between the first [=] of the argument and the second: for an argument
    [name=v], or [name=v=...], with no [=] in [v], that no later argument
    with the same name follows, [--watch], [--output] and [--includeRoot]
    are [v] resolved against the working directory, [--childProcess] is
    [v] and [--maxRecursion] is [parseInt(v, 10)]; what follows a second
    [=] is dropped. *)
Theorem X16_last_occurrence_wins (cwd : jsstring)
    (toLowerCase : jsstring → jsstring) (argv before after : list jsstring)
    (name v rest : jsstring) (o : options.t) (st st' : state) :
  drop 2 argv = before ++ (name ++ EQUALS :: v ++ rest) :: after →
  no_equals v = true → cut_off rest = true →
  Forall (λ arg, startsWith arg (name ++ [EQUALS]) = false) after →
  parseArguments cwd toLowerCase argv st = (Normal (Returns o), st') →
  (name = js "--watch" → options.watch o = path.resolve cwd [v])
  ∧ (name = js "--output" → options.output o = path.resolve cwd [v])
  ∧ (name = js "--childProcess" → options.childProcess o = Some v)
  ∧ (name = js "--includeRoot" →
     options.includeRoot o = Some (path.resolve cwd [v]))
  ∧ (name = js "--maxRecursion" → options.maxRecursion o = parseInt v).
Proof.
  intros Hargs Hv Hrest Hafter. rewrite parseArguments_eq, Hargs.
  destruct (existsb is_help _); [discriminate|]. intros [= <- _].
  set (o1 := foldl (updated cwd toLowerCase) (defaults cwd) before).
  assert (Hlast : ∀ {X : Type} (proj : options.t → X),
    (∀ o arg, startsWith arg (name ++ [EQUALS]) = false →
              proj (updated cwd toLowerCase o arg) = proj o) →
    proj (foldl (updated cwd toLowerCase) (defaults cwd)
            (before ++ (name ++ EQUALS :: v ++ rest) :: after))
    = proj (updated cwd toLowerCase o1 (name ++ EQUALS :: v ++ rest))).
  { intros X proj Hkept.
    apply (foldl_updated_last cwd toLowerCase proj
             (λ arg, startsWith arg (name ++ [EQUALS]))); assumption. }
  assert (Hvalue : ∀ n, name = js n → no_equals (js n) = true →
    String_split_on EQUALS (js n ++ EQUALS :: v ++ rest) !! 1%nat = Some v).
  { intros n _ Hn. apply value_cut; assumption. }
  repeat split; intros ->.
  - assert (Hw : ∀ o, options.watch (completed o) = options.watch o).
    { intros o'. unfold completed.
      destruct (options.includeRoot o') as [[|]|]; reflexivity. }
    rewrite Hw, (Hlast _ options.watch).
    + unfold updated. unfold jsstring in *.
      rewrite (Hvalue "--watch"%string eq_refl eq_refl). reflexivity.
    + intros o' arg Harg. unfold updated. cbn [options.watch].
      change (js "--watch" ++ [EQUALS]) with (js "--watch=") in Harg.
      rewrite Harg. reflexivity.
  - assert (Hw : ∀ o, options.output (completed o) = options.output o).
    { intros o'. unfold completed.
      destruct (options.includeRoot o') as [[|]|]; reflexivity. }
    rewrite Hw, (Hlast _ options.output).
    + unfold updated. unfold jsstring in *.
      rewrite (Hvalue "--output"%string eq_refl eq_refl). reflexivity.
    + intros o' arg Harg. unfold updated. cbn [options.output].
      change (js "--output" ++ [EQUALS]) with (js "--output=") in Harg.
      rewrite Harg. reflexivity.
  - assert (Hw : ∀ o,
      options.childProcess (completed o) = options.childProcess o).
    { intros o'. unfold completed.
      destruct (options.includeRoot o') as [[|]|]; reflexivity. }
    rewrite Hw, (Hlast _ options.childProcess).
    + unfold updated. unfold jsstring in *.
      rewrite (Hvalue "--childProcess"%string eq_refl eq_refl). reflexivity.
    + intros o' arg Harg. unfold updated. cbn [options.childProcess].
      change (js "--childProcess" ++ [EQUALS]) with (js "--childProcess=")
        in Harg.
      rewrite Harg. reflexivity.
  - apply completed_includeRoot; [|apply resolve_nonempty].
    rewrite (Hlast _ options.includeRoot).
    + unfold updated. unfold jsstring in *.
      rewrite (Hvalue "--includeRoot"%string eq_refl eq_refl). reflexivity.
    + intros o' arg Harg. unfold updated. cbn [options.includeRoot].
      change (js "--includeRoot" ++ [EQUALS]) with (js "--includeRoot=")
        in Harg.
      rewrite Harg. reflexivity.
  - assert (Hw : ∀ o,
      options.maxRecursion (completed o) = options.maxRecursion o).
    { intros o'. unfold completed.
      destruct (options.includeRoot o') as [[|]|]; reflexivity. }
    rewrite Hw, (Hlast _ options.maxRecursion).
    + unfold updated. unfold jsstring in *.
      rewrite (Hvalue "--maxRecursion"%string eq_refl eq_refl). reflexivity.
    + intros o' arg Harg. unfold updated. cbn [options.maxRecursion].
      change (js "--maxRecursion" ++ [EQUALS]) with (js "--maxRecursion=")
        in Harg.
      rewrite Harg. reflexivity.
Qed.

Lemma X16_last_occurrence_wins_witness :
  ∃ o st',
    parseArguments Scenario.cwd id
      [js "node"; js "index.js"; js "--childProcess=sqlpage";
       js "--childProcess=PORT=8080 sqlpage"; js "--watch=src"]
      Scenario.hello
    = (Normal (Returns o), st')
    ∧ options.childProcess o = Some (js "PORT").
Proof.
  eexists _, _. split; [rewrite parseArguments_eq; reflexivity|].
  refine (proj1 (proj2 (proj2
    (X16_last_occurrence_wins Scenario.cwd id
       [js "node"; js "index.js"; js "--childProcess=sqlpage";
        js "--childProcess=PORT=8080 sqlpage"; js "--watch=src"]
       [js "--childProcess=sqlpage"] [js "--watch=src"]
       (js "--childProcess") (js "PORT") (js "=8080 sqlpage") _
       Scenario.hello Scenario.hello eq_refl eq_refl eq_refl _ _))) eq_refl).
  - repeat constructor.
  - rewrite parseArguments_eq. reflexivity.
Defined.

(** X17. What is not given falls back as the code has it, not as the usage
    says: without [--includeRoot], the include root is the watched
    directory, whatever [--watch] is; without [--output], the output
    directory is [dist] in the working directory of the process, whatever
    [--watch] is, and not [dist] in the watched directory. *)
Theorem X17_parseArguments_fallbacks (cwd : jsstring)
    (toLowerCase : jsstring → jsstring) (argv : list jsstring)
    (o : options.t) (st st' : state) :
  parseArguments cwd toLowerCase argv st = (Normal (Returns o), st') →
  (Forall (λ arg, startsWith arg (js "--includeRoot=") = false)
     (drop 2 argv) →
   options.includeRoot o = Some (options.watch o))
  ∧ (Forall (λ arg, startsWith arg (js "--output=") = false) (drop 2 argv) →
     options.output o = path.join [path.resolve cwd [js "./"]; js "dist"]).
Proof.
  rewrite parseArguments_eq.
  destruct (existsb is_help _); [discriminate|]. intros [= <- _]. split.
  - intros Hargs.
    pose proof (foldl_updated_kept cwd toLowerCase options.includeRoot
      (λ arg, startsWith arg (js "--includeRoot="))
      ltac:(intros o' arg Harg; unfold updated; cbn [options.includeRoot];
            rewrite Harg; reflexivity)
      (drop 2 argv) (defaults cwd) Hargs) as Hroot.
    unfold completed. rewrite Hroot. reflexivity.
  - intros Hargs.
    pose proof (foldl_updated_kept cwd toLowerCase options.output
      (λ arg, startsWith arg (js "--output="))
      ltac:(intros o' arg Harg; unfold updated; cbn [options.output];
            rewrite Harg; reflexivity)
      (drop 2 argv) (defaults cwd) Hargs) as Hout.
    unfold completed.
    destruct (options.includeRoot _) as [[|]|]; exact Hout.
Qed.

Lemma X17_parseArguments_fallbacks_witness :
  ∃ o st',
    parseArguments Scenario.cwd id
      [js "node"; js "index.js"; js "--watch=/srv/site"] Scenario.hello
    = (Normal (Returns o), st')
    ∧ options.includeRoot o = Some (js "/srv/site")
    ∧ options.output o = js "/w/dist".
Proof.
  eexists _, _. split; [rewrite parseArguments_eq; reflexivity|].
  pose proof (X17_parseArguments_fallbacks Scenario.cwd id
    [js "node"; js "index.js"; js "--watch=/srv/site"] _ Scenario.hello
    Scenario.hello
    ltac:(rewrite parseArguments_eq; reflexivity)) as [Hroot Hout].
  split.
  - rewrite Hroot by (repeat constructor). vm_compute. reflexivity.
  - rewrite Hout by (repeat constructor). vm_compute. reflexivity.
Defined.

Lemma foldl_add_elem_of (set : gset jsstring) (l : list jsstring)
    (e : jsstring) :
  e ∈ foldl (λ set ext, {[ ext ]} ∪ set) set l ↔ e ∈ set ∨ e ∈ l.
Proof.
  revert set. induction l as [|x l IH]; intros set; cbn [foldl].
  - rewrite elem_of_nil. tauto.
  - rewrite IH, elem_of_union, elem_of_singleton, elem_of_cons. tauto.
Qed.

(** X18. The text extensions are the seven of the program and those given:
    after [parseArguments], an extension is in the set exactly when it is
    one of [.txt], [.html], [.js], [.css], [.json], [.md], [.sql], or the
    lower-cased, trimmed form of a piece between commas of the value of
    some [--textExtensions] argument. Nothing takes an extension out, and
    an empty piece puts the empty extension in. *)
Theorem X18_parseArguments_textExtensions (cwd : jsstring)
    (toLowerCase : jsstring → jsstring) (argv : list jsstring)
    (o : options.t) (st st' : state) (e : jsstring) :
  parseArguments cwd toLowerCase argv st = (Normal (Returns o), st') →
  e ∈ options.textExtensions o
  ↔ e ∈ [js ".txt"; js ".html"; js ".js"; js ".css"; js ".json"; js ".md";
         js ".sql"]
    ∨ ∃ arg v ext,
        arg ∈ drop 2 argv
        ∧ startsWith arg (js "--textExtensions=") = true
        ∧ String_split_on EQUALS arg !! 1%nat = Some v
        ∧ ext ∈ String_split_on COMMA v
        ∧ e = toLowerCase (trim ext).
Proof.
  rewrite parseArguments_eq.
  destruct (existsb is_help _); [discriminate|]. intros [= <- _].
  assert (Hc : ∀ o, options.textExtensions (completed o)
                    = options.textExtensions o).
  { intros o'. unfold completed.
    destruct (options.includeRoot o') as [[|]|]; reflexivity. }
  rewrite Hc.
  assert (Hfold : ∀ args o0,
    e ∈ options.textExtensions (foldl (updated cwd toLowerCase) o0 args)
    ↔ e ∈ options.textExtensions o0
      ∨ ∃ arg v ext,
          arg ∈ args
          ∧ startsWith arg (js "--textExtensions=") = true
          ∧ String_split_on EQUALS arg !! 1%nat = Some v
          ∧ ext ∈ String_split_on COMMA v
          ∧ e = toLowerCase (trim ext)).
  { induction args as [|arg args IH]; intros o0; cbn [foldl].
    - split; [auto|]. intros [H|(arg & v & ext & H & _)]; [exact H|].
      apply elem_of_nil in H. contradiction.
    - rewrite IH. unfold updated. cbn [options.textExtensions].
      destruct (startsWith arg (js "--textExtensions=")) eqn:Harg.
      + destruct (value_there _ _ Harg eq_refl) as [v Hv].
        unfold jsstring in *. rewrite Hv. cbn [default from_option].
        unfold id.
        rewrite foldl_add_elem_of, list_elem_of_fmap. split.
        * intros [[H|(ext & -> & Hext)]|(a & v' & ext & Ha & H)].
          -- auto.
          -- right. exists arg, v, ext. split; [apply list_elem_of_here|].
             auto.
          -- right. exists a, v', ext.
             split; [apply list_elem_of_further, Ha|exact H].
        * intros [H|(a & v' & ext & Ha & Hp & Hv' & Hext & He)]; [auto|].
          apply elem_of_cons in Ha as [->|Ha].
          -- left. right. exists ext. split; [exact He|]. congruence.
          -- right. exists a, v', ext. auto.
      + split.
        * intros [H|(a & v' & ext & Ha & H)]; [auto|].
          right. exists a, v', ext.
          split; [apply list_elem_of_further, Ha|exact H].
        * intros [H|(a & v' & ext & Ha & Hp & H)]; [auto|].
          apply elem_of_cons in Ha as [->|Ha]; [congruence|].
          right. exists a, v', ext. auto. }
  rewrite Hfold. unfold defaults. cbn [options.textExtensions].
  rewrite elem_of_list_to_set. reflexivity.
Qed.

Lemma X18_parseArguments_textExtensions_witness :
  ∃ o st',
    parseArguments Scenario.cwd id
      [js "node"; js "index.js"; js "--textExtensions= .svg ,"]
      Scenario.hello
    = (Normal (Returns o), st')
    ∧ js ".svg" ∈ options.textExtensions o
    ∧ js "" ∈ options.textExtensions o.
Proof.
  eexists _, _. split; [rewrite parseArguments_eq; reflexivity|].
  split.
  - apply (X18_parseArguments_textExtensions Scenario.cwd id
             [js "node"; js "index.js"; js "--textExtensions= .svg ,"] _
             Scenario.hello Scenario.hello (js ".svg")
             ltac:(rewrite parseArguments_eq; reflexivity)).
    right. exists (js "--textExtensions= .svg ,"), (js " .svg ,"),
      (js " .svg ").
    repeat split; try reflexivity; apply list_elem_of_here.
  - apply (X18_parseArguments_textExtensions Scenario.cwd id
             [js "node"; js "index.js"; js "--textExtensions= .svg ,"] _
             Scenario.hello Scenario.hello (js "")
             ltac:(rewrite parseArguments_eq; reflexivity)).
    right. exists (js "--textExtensions= .svg ,"), (js " .svg ,"), (js "").
    repeat split; try reflexivity;
      [apply list_elem_of_here
      |apply list_elem_of_further, list_elem_of_here].
Defined.

(** ** What [path.resolve] returns *)

Lemma segments_slash_free (p : jsstring) :
  Forall (λ s, forallb (λ c, negb (c =? SLASH)) s = true) (path.segments p).
Proof.
  induction p as [|c p IH]; [repeat constructor|].
  cbn [path.segments]. destruct (c =? SLASH) eqn:Hc.
  - constructor; [reflexivity|exact IH].
  - destruct (path.segments p) as [|seg segs].
    + repeat constructor. cbn [forallb]. rewrite Hc. reflexivity.
    + apply Forall_cons in IH as [Hseg Hsegs]. constructor; [|exact Hsegs].
      cbn [forallb]. rewrite Hc, Hseg. reflexivity.
Qed.

Lemma push_segment_named (res : list jsstring) (seg : jsstring) :
  Forall segment res →
  forallb (λ c, negb (c =? SLASH)) seg = true →
  Forall segment (path.push_segment false res seg).
Proof.
  intros Hres Hseg. unfold path.push_segment.
  destruct (path.jsstring_eqb seg []) eqn:H1; [exact Hres|].
  destruct (path.jsstring_eqb seg [DOT]) eqn:H2; [exact Hres|].
  cbn [orb].
  destruct (path.jsstring_eqb seg [DOT; DOT]) eqn:H3.
  - destruct res as [|last res]; [constructor|].
    destruct (path.jsstring_eqb last [DOT; DOT]); [exact Hres|].
    apply Forall_cons in Hres. tauto.
  - constructor; [|exact Hres]. unfold segment, is_segment.
    rewrite H1, H2, H3, Hseg. reflexivity.
Qed.

Lemma fold_push_named (segs : list jsstring) :
  Forall (λ s, forallb (λ c, negb (c =? SLASH)) s = true) segs →
  ∀ res, Forall segment res →
         Forall segment (fold_left (path.push_segment false) segs res).
Proof.
  induction 1 as [|seg segs Hseg Hsegs IH]; intros res Hres; [exact Hres|].
  cbn [fold_left]. apply IH, push_segment_named; assumption.
Qed.

Section Resolved.

Variable cwd : jsstring.
Hypothesis cwd_absolute : path.isAbsolute cwd = true.

Lemma resolve_loop_absolute (args : list jsstring) :
  ∀ resolvedPath,
    ∃ p, path.resolve_loop (args ++ [cwd]) resolvedPath = (p, true).
Proof.
  induction args as [|a args IH]; intros resolvedPath.
  - cbn [app path.resolve_loop]. destruct cwd as [|c t]; [discriminate|].
    rewrite cwd_absolute. eauto.
  - cbn [app path.resolve_loop]. destruct a as [|c t]; [apply IH|].
    destruct (path.isAbsolute (c :: t)); [eauto|apply IH].
Qed.

(** With an absolute working directory, [path.resolve] returns an absolute
    path in normal form. *)
Lemma resolve_normal (args : list jsstring) :
  ∃ segs, Forall segment segs ∧ path.resolve cwd args = absolute segs.
Proof.
  unfold path.resolve.
  destruct (resolve_loop_absolute (rev args) []) as [p ->].
  exists (path.normalizeSegments p false). split; [|reflexivity].
  unfold path.normalizeSegments. apply Forall_rev.
  apply fold_push_named; [apply segments_slash_free|constructor].
Qed.

End Resolved.

(** X19. With an absolute working directory, the three directories
    [parseArguments] returns are absolute paths in normal form, whatever
    the arguments are: a slash, then names separated by single slashes,
    without [.] and [..] and without a slash at the end. *)
Theorem X19_parseArguments_paths (cwd : jsstring)
    (toLowerCase : jsstring → jsstring) (argv : list jsstring)
    (o : options.t) (st st' : state) :
  path.isAbsolute cwd = true →
  parseArguments cwd toLowerCase argv st = (Normal (Returns o), st') →
  ∃ W O I,
    Forall segment W ∧ Forall segment O ∧ Forall segment I
    ∧ options.watch o = absolute W
    ∧ options.output o = absolute O
    ∧ options.includeRoot o = Some (absolute I).
Proof.
  intros Hcwd. rewrite parseArguments_eq.
  destruct (existsb is_help _); [discriminate|]. intros [= <- _].
  set (normal := λ p, ∃ segs, Forall segment segs ∧ p = absolute segs).
  set (Inv := λ o : options.t,
    normal (options.watch o) ∧ normal (options.output o)
    ∧ (options.includeRoot o = None
       ∨ ∃ r, options.includeRoot o = Some r ∧ normal r)).
  assert (Hresolve : ∀ args, normal (path.resolve cwd args)).
  { intros args. apply resolve_normal, Hcwd. }
  assert (Hfold : ∀ args o0,
    Inv o0 → Inv (foldl (updated cwd toLowerCase) o0 args)).
  { induction args as [|arg args IH]; intros o0 H0; [exact H0|].
    cbn [foldl]. apply IH. destruct H0 as (Hw & Ho & Hi).
    unfold Inv, updated.
    cbn [options.watch options.output options.includeRoot].
    split; [|split].
    - destruct (startsWith arg (js "--watch=")); auto.
    - destruct (startsWith arg (js "--output=")); auto.
    - destruct (startsWith arg (js "--includeRoot=")); [|exact Hi].
      right. eauto. }
  destruct (Hfold (drop 2 argv) (defaults cwd))
    as ((W & HW & Hw) & (O & HO & Ho) & Hi).
  { unfold Inv, defaults.
    cbn [options.watch options.output options.includeRoot].
    split; [apply Hresolve|]. split; [|auto].
    destruct (Hresolve [js "./"]) as (D & HD & ->).
    exists (D ++ [js "dist"]). split.
    - apply Forall_app. split; [exact HD|]. repeat constructor.
    - apply join_absolute_name; [exact HD|reflexivity]. }
  destruct Hi as [Hi|(r & Hi & I & HI & ->)].
  - exists W, O, W. unfold completed. rewrite Hi.
    cbn [options.watch options.output options.includeRoot].
    rewrite Hw. auto 10.
  - exists W, O, I.
    replace (completed (foldl (updated cwd toLowerCase) (defaults cwd)
                          (drop 2 argv)))
      with (foldl (updated cwd toLowerCase) (defaults cwd) (drop 2 argv))
      by (unfold completed; rewrite Hi; reflexivity).
    auto 10.
Qed.

Lemma X19_parseArguments_paths_witness :
  ∃ o st' W O I,
    parseArguments Scenario.cwd id
      [js "node"; js "index.js"; js "--watch=./src/../site/";
       js "--output=/tmp//out/."] Scenario.hello
    = (Normal (Returns o), st')
    ∧ Forall segment W ∧ Forall segment O ∧ Forall segment I
    ∧ options.watch o = absolute W
    ∧ options.output o = absolute O
    ∧ options.includeRoot o = Some (absolute I).
Proof.
  eexists _, _.
  destruct (X19_parseArguments_paths Scenario.cwd id
    [js "node"; js "index.js"; js "--watch=./src/../site/";
     js "--output=/tmp//out/."] _ Scenario.hello Scenario.hello eq_refl
    ltac:(rewrite parseArguments_eq; reflexivity)) as (W & O & I & H).
  exists W, O, I. split; [rewrite parseArguments_eq; reflexivity|exact H].
Defined.

(** X20. An argument that is none of the options and no request for the
    usage is ignored without a word, wherever it stands: the call ends as
    it does without it. So are [--skipDelete=true], [--watch] without
    [=], and a misspelt option. *)
Theorem X20_parseArguments_ignores (cwd : jsstring)
    (toLowerCase : jsstring → jsstring)
    (argv argv' before after : list jsstring) (arg : jsstring)
    (st : state) :
  recognised arg = false →
  drop 2 argv = before ++ arg :: after →
  drop 2 argv' = before ++ after →
  parseArguments cwd toLowerCase argv st
  = parseArguments cwd toLowerCase argv' st.
Proof.
  unfold recognised. rewrite !orb_false_iff.
  intros (((((((H1 & H2) & H3) & H4) & H5) & H6) & H7) & H8) Hargv Hargv'.
  rewrite !parseArguments_eq, Hargv, Hargv'.
  rewrite !existsb_app. cbn [existsb]. rewrite H8. cbn [orb].
  rewrite !foldl_app. cbn [foldl].
  assert (Hsame : ∀ o, updated cwd toLowerCase o arg = o).
  { intros o. unfold updated. rewrite H1, H2, H3, H4, H5, H6, H7.
    destruct o; reflexivity. }
  rewrite Hsame. reflexivity.
Qed.

Lemma X20_parseArguments_ignores_witness :
  parseArguments Scenario.cwd id
    [js "node"; js "index.js"; js "--watch=src"; js "--skipDelete=true"]
    Scenario.hello
  = parseArguments Scenario.cwd id
      [js "node"; js "index.js"; js "--watch=src"] Scenario.hello.
Proof.
  apply (X20_parseArguments_ignores Scenario.cwd id _ _ [js "--watch=src"]
           [] (js "--skipDelete=true") Scenario.hello);
    vm_compute; reflexivity.
Defined.

(** X21. The expansion of a file is the expansion of its lines, one after
    the other: when the lines of a file are those of a first file followed
    by those of a second, and the two, resolved one after the other, give
    two texts, the file gives the first text followed by the second, with
    the same diagnostics. *)
Theorem X21_resolveIncludes_concatenates (cwd : jsstring)
    (f f1 f2 includeRoot content content1 content2 : jsstring)
    (maxRecursion d : Z) (st st1 st2 : state) (out1 out2 : jsstring) :
  file_at cwd (disk st) f content →
  file_at cwd (disk st) f1 content1 →
  file_at cwd (disk st) f2 content2 →
  String_split content re_newline
  = String_split content1 re_newline ++ String_split content2 re_newline →
  (d ≤ maxRecursion)%Z →
  resolveIncludes cwd f1 includeRoot maxRecursion d st = (Normal out1, st1) →
  resolveIncludes cwd f2 includeRoot maxRecursion d st1
  = (Normal out2, st2) →
  resolveIncludes cwd f includeRoot maxRecursion d st
  = (Normal (out1 ++ out2), st2).
Proof.
  intros Hf Hf1 Hf2 Hlines Hd H1 H2.
  assert (Hdisk : disk st1 = disk st).
  { rewrite <- (resolveIncludes_disk cwd f1 includeRoot maxRecursion d st).
    rewrite H1. reflexivity. }
  rewrite (resolveIncludes_file cwd f1 includeRoot content1) in H1
    by assumption.
  rewrite (resolveIncludes_file cwd f2 includeRoot content2) in H2
    by (try rewrite Hdisk; assumption).
  rewrite (resolveIncludes_file cwd f includeRoot content) by assumption.
  unfold try_catch in *. rewrite Hlines, expandLines_app, bind_eq.
  destruct (expandLines cwd includeRoot maxRecursion d
              (String_split content1 re_newline) st) as [[o1|e] s1];
    [|discriminate].
  injection H1 as -> ->. rewrite bind_eq.
  destruct (expandLines cwd includeRoot maxRecursion d
              (String_split content2 re_newline) st1) as [[o2|e] s2];
    [|discriminate].
  injection H2 as -> ->. reflexivity.
Qed.

Lemma X21_resolveIncludes_concatenates_witness :
  resolveIncludes Pages.cwd (js "/w/page.html") (js "/w") 10 0 Pages.site
  = (Normal ((js "<h1>" ++ [LF]) ++ js "Hello" ++ [LF; LF]), Pages.site).
Proof.
  apply (X21_resolveIncludes_concatenates Pages.cwd (js "/w/page.html")
           (js "/w/head.html") (js "/w/body.html") (js "/w")
           (js "<h1>" ++ [LF] ++ js "##include <b.html>") (js "<h1>")
           (js "##include <b.html>") 10 0 Pages.site Pages.site Pages.site);
    try (vm_compute; reflexivity).
  lia.
Defined.

(** ** The console is only written to *)

Lemma blind_ret {A : Type} (a : A) : console_blind (mret a).
Proof.
  intros σ. exists (Normal a), σ, []. intros c. rewrite app_nil_r.
  reflexivity.
Qed.

Lemma blind_throw {A : Type} (e : Error) : console_blind (mthrow e : M A).
Proof.
  intros σ. exists (Throw e), σ, []. intros c. rewrite app_nil_r.
  reflexivity.
Qed.

Lemma blind_bind {A B : Type} (m : M A) (f : A → M B) :
  console_blind m → (∀ a, console_blind (f a)) → console_blind (m ≫= f).
Proof.
  intros Hm Hf σ. destruct (Hm σ) as ([a|e] & σ1 & out1 & H1).
  - destruct (Hf a σ1) as (r & σ2 & out2 & H2).
    exists r, σ2, (out1 ++ out2). intros c.
    rewrite bind_eq, H1, H2, app_assoc. reflexivity.
  - exists (Throw e), σ1, out1. intros c. rewrite bind_eq, H1. reflexivity.
Qed.

Lemma blind_try_catch {A : Type} (body : M A) (handler : Error → M A) :
  console_blind body → (∀ e, console_blind (handler e)) →
  console_blind (try_catch body handler).
Proof.
  intros Hm Hf σ. destruct (Hm σ) as ([a|e] & σ1 & out1 & H1).
  - exists (Normal a), σ1, out1. intros c. unfold try_catch. rewrite H1.
    reflexivity.
  - destruct (Hf e σ1) as (r & σ2 & out2 & H2).
    exists r, σ2, (out1 ++ out2). intros c.
    unfold try_catch. rewrite H1, H2, app_assoc. reflexivity.
Qed.

Lemma blind_for_of {X A : Type} (xs : list X) (body : A → X → M A) :
  (∀ acc x, console_blind (body acc x)) →
  ∀ acc, console_blind (for_of xs body acc).
Proof.
  intros Hbody. induction xs as [|x xs IH]; intros acc; cbn [for_of].
  - apply blind_ret.
  - apply blind_bind; [apply Hbody|exact IH].
Qed.

Lemma blind_print (s : stream) (text : jsstring) :
  console_blind (print s text).
Proof.
  intros σ. exists (Normal ()), σ, [(s, text)]. intros c. reflexivity.
Qed.

(** A step that is a function of the disk. *)
Lemma blind_disk {A : Type}
    (step : gmap (list jsstring) node
            → completion A * gmap (list jsstring) node) (m : M A) :
  (∀ st, m st = ((step (disk st)).1, State (step (disk st)).2 (console st))) →
  console_blind m.
Proof.
  intros Hm σ. exists (step σ).1, (step σ).2, []. intros c.
  rewrite Hm, app_nil_r. reflexivity.
Qed.

Lemma blind_stat (cwd p : jsstring) : console_blind (fs.stat cwd p).
Proof.
  apply (blind_disk (λ σ, (Normal (σ !! fs.key cwd p), σ))).
  intros [σ c]. reflexivity.
Qed.

Lemma blind_mkdir_one (p : jsstring) (target a : list jsstring) :
  console_blind (fs.mkdir_one p target a).
Proof.
  apply (blind_disk (λ σ,
    match σ !! a with
    | Some Directory => (Normal (), σ)
    | Some (File _) =>
        (Throw (fs.errno (if bool_decide (a = target) then fs.EEXIST
                          else fs.ENOTDIR) (js "mkdir") p), σ)
    | None => (Normal (), <[a := Directory]> σ)
    end)).
  intros [σ c]. unfold fs.mkdir_one. cbn [disk console].
  destruct (σ !! a) as [[content|]|]; reflexivity.
Qed.

Lemma blind_absent (k : list jsstring) : console_blind (fs.absent k).
Proof.
  apply (blind_disk (λ σ, (Normal (fs.missing σ k), σ))).
  intros [σ c]. reflexivity.
Qed.

Lemma blind_write (fail : jsstring → Error) (k : list jsstring)
    (content : jsstring) :
  console_blind (fs.write fail k content).
Proof.
  apply (blind_disk (λ σ,
    match fs.parent k with
    | None => (Throw (fail fs.EISDIR), σ)
    | Some d =>
        match σ !! d with
        | None => (Throw (fail (fs.missing σ k)), σ)
        | Some (File _) => (Throw (fail fs.ENOTDIR), σ)
        | Some Directory =>
            match σ !! k with
            | Some Directory => (Throw (fail fs.EISDIR), σ)
            | _ => (Normal (), <[k := File content]> σ)
            end
        end
    end)).
  intros [σ c]. unfold fs.write. cbn [disk console].
  destruct (fs.parent k) as [d|]; [|reflexivity].
  destruct (σ !! d) as [[c'|]|]; try reflexivity.
  destruct (σ !! k) as [[c'|]|]; reflexivity.
Qed.

Section Blind.

Variable cwd : jsstring.
Variable util_format : jsstring → jsstring → jsstring.

Lemma blind_resolveLine (recurse : jsstring → M jsstring)
    (includeRoot acc line : jsstring) :
  (∀ p, console_blind (recurse p)) →
  console_blind (resolveLine cwd recurse includeRoot acc line).
Proof.
  intros Hr. unfold resolveLine.
  destruct (startsWith line (js "##include")); [|apply blind_ret].
  destruct (String_match line re_include) as [m|].
  - destruct (match_1 m) as [t|]; [|apply blind_throw].
    apply blind_bind.
    + apply blind_bind; [apply blind_stat|]. intros n. apply blind_ret.
    + intros [|].
      * apply blind_bind; [apply Hr|]. intros inc. apply blind_ret.
      * apply blind_bind; [apply blind_print|]. intros _. apply blind_ret.
  - apply blind_bind; [apply blind_print|]. intros _. apply blind_ret.
Qed.

Lemma blind_resolveIncludes_on (includeRoot : jsstring) (maxRecursion : Z)
    (stack : nat) :
  ∀ filePath d,
    console_blind
      (resolveIncludes_on cwd stack filePath includeRoot maxRecursion d).
Proof.
  induction stack as [|stack IH]; intros filePath d; [apply blind_throw|].
  rewrite resolveIncludes_on_S.
  destruct (d >? maxRecursion)%Z; [apply blind_throw|].
  apply blind_try_catch; [|intros e; apply blind_throw].
  apply blind_bind.
  - apply blind_bind; [apply blind_stat|].
    intros [[c|]|]; [apply blind_ret|apply blind_throw|].
    apply blind_bind; [apply blind_absent|]. intros code. apply blind_throw.
  - intros content. apply blind_for_of. intros acc line.
    apply blind_resolveLine. intros p. apply IH.
Qed.

Lemma blind_mkdirSync (p : jsstring) : console_blind (fs.mkdirSync cwd p).
Proof.
  unfold fs.mkdirSync. destruct p; [apply blind_throw|].
  apply blind_for_of. intros _ a. apply blind_mkdir_one.
Qed.

Lemma blind_processTextFile (filePath outputDir includeRoot : jsstring)
    (maxRecursion : Z) (watchRoot : jsstring) :
  console_blind
    (processTextFile cwd filePath outputDir includeRoot maxRecursion
       watchRoot).
Proof.
  apply blind_try_catch; [|intros e; apply blind_print].
  apply blind_bind; [apply blind_resolveIncludes_on|]. intros out.
  apply blind_bind; [apply blind_mkdirSync|]. intros _.
  apply blind_bind; [|intros _; apply blind_print].
  unfold fs.writeFileSync.
  destruct (path.join _); [apply blind_throw|apply blind_write].
Qed.

Lemma blind_copyBinaryFile (filePath outputDir watchRoot : jsstring) :
  console_blind (copyBinaryFile cwd util_format filePath outputDir watchRoot).
Proof.
  apply blind_try_catch; [|intros e; apply blind_print].
  apply blind_bind; [apply blind_mkdirSync|]. intros _.
  apply blind_bind; [|intros _; apply blind_print].
  apply blind_bind; [apply blind_stat|].
  intros [[c|]|]; [|apply blind_throw|].
  - destruct (path.join _); [apply blind_throw|apply blind_write].
  - apply blind_bind; [apply blind_absent|]. intros code. apply blind_throw.
Qed.

End Blind.

(** What a console-blind computation does to the disk does not depend on
    the console. *)
Lemma blind_disk_eq {A : Type} (m : M A) (σ : gmap (list jsstring) node)
    (c1 c2 : list (stream * jsstring)) :
  console_blind m → disk (m (State σ c1)).2 = disk (m (State σ c2)).2.
Proof.
  intros Hm. destruct (Hm σ) as (r & σ' & out & H).
  rewrite (H c1), (H c2). reflexivity.
Qed.

(** X22. The watcher rebuilds a file as the walk builds it: for a regular
    file, a notification that names it leaves the disk exactly as the
    turn of the walk for that entry of the watched directory leaves it;
    the two differ only in the two lines the watcher prints first.  The
    output-root test, the choice between expansion and copy and the output
    path are the same. *)
Theorem X22_watcher_rebuilds_as_walk (cwd : jsstring)
    (toLowerCase : jsstring → jsstring)
    (util_format : jsstring → jsstring → jsstring) (recurse : jsstring → M unit)
    (directory outputDir : jsstring) (textExtensions : gset jsstring)
    (includeRoot : jsstring) (maxRecursion : Z)
    (watchRoot eventType filename content : jsstring) (st : state) :
  filename ≠ [] →
  disk st !! fs.key cwd (path.join [directory; filename])
  = Some (File content) →
  disk (onChange cwd toLowerCase util_format directory outputDir textExtensions
          includeRoot maxRecursion watchRoot eventType (Some filename) st).2
  = disk (processEntry cwd toLowerCase util_format recurse directory outputDir
            textExtensions includeRoot maxRecursion watchRoot filename st).2.
Proof.
  intros Hne Hfile. destruct filename as [|ch name]; [congruence|].
  unfold onChange, processEntry. rewrite bind_eq.
  unfold console_log at 1, print.
  destruct (inOutputDir cwd _ outputDir); [reflexivity|].
  assert (Hlstat : ∀ c,
    fs.lstatSync cwd (path.join [directory; ch :: name])
      (State (disk st) c)
    = (Normal {| fs.isDirectory := false; fs.isFile := true |},
       State (disk st) c)).
  { intros c. apply (lstatSync_found cwd _ (File content)). exact Hfile. }
  unfold fs.existsSync, fs.stat. rewrite !bind_eq.
  unfold mret at 1. unfold M_ret. cbn [disk console].
  unfold jsstring in *. rewrite Hfile. rewrite !bind_eq.
  destruct st as [σ c0]. cbn [disk console] in *.
  rewrite !Hlstat. cbn [fs.isFile fs.isDirectory].
  destruct (isTextFile toLowerCase _ textExtensions); rewrite bind_eq;
    unfold console_log at 1, print; cbn [disk console].
  - apply blind_disk_eq, blind_processTextFile.
  - apply blind_disk_eq, blind_copyBinaryFile.
Qed.

Lemma X22_watcher_rebuilds_as_walk_witness :
  disk (onChange Scenario.cwd id Scenario.util_format (js "/w") (js "/w/dist")
          {[ js ".html" ]}
          (js "/w") 10 (js "/w") (js "change") (Some (js "a.html"))
          Scenario.hello).2
  = disk (processEntry Scenario.cwd id Scenario.util_format
            (λ _, mthrow RangeError) (js "/w")
            (js "/w/dist") {[ js ".html" ]} (js "/w") 10 (js "/w")
            (js "a.html") Scenario.hello).2.
Proof.
  apply (X22_watcher_rebuilds_as_walk Scenario.cwd id Scenario.util_format
           (λ _, mthrow RangeError) (js "/w") (js "/w/dist")
           {[ js ".html" ]} (js "/w") 10 (js "/w") (js "change")
           (js "a.html") (js "##include <b.html>") Scenario.hello).
  - discriminate.
  - vm_compute. reflexivity.
Defined.

(** ** The extension of a file name *)

Lemma take_while_all (f : N → bool) (s rest : jsstring) :
  forallb f s = true →
  match rest with [] => true | c :: _ => negb (f c) end = true →
  path.take_while f (s ++ rest) = s.
Proof.
  intros Hs Hrest. induction s as [|c s IH].
  - destruct rest as [|c rest]; [reflexivity|].
    cbn [app path.take_while]. apply negb_true_iff in Hrest.
    rewrite Hrest. reflexivity.
  - cbn [forallb] in Hs. apply andb_true_iff in Hs as [Hc Hs].
    cbn [app path.take_while]. rewrite Hc, (IH Hs). reflexivity.
Qed.

(** The last component of a path that ends with a name. *)
Lemma lastComponent_name (dir base : jsstring) :
  base ≠ [] →
  forallb (λ c, negb (c =? SLASH)) base = true →
  dir = [] ∨ path.endsWithSlash dir = true →
  path.lastComponent (dir ++ base) = base.
Proof.
  intros Hne Hbase Hdir. unfold path.lastComponent.
  rewrite rev_app_distr.
  assert (Hrev : forallb (λ c, negb (path.is_slash c)) (rev base) = true).
  { rewrite forallb_rev. exact Hbase. }
  assert (Hfirst :
    path.drop_while path.is_slash (rev base ++ rev dir)
    = rev base ++ rev dir).
  { destruct base as [|c base _] using rev_ind; [congruence|].
    rewrite rev_app_distr. cbn [rev app path.drop_while].
    rewrite forallb_app in Hbase. cbn [forallb] in Hbase.
    rewrite !andb_true_iff, negb_true_iff in Hbase.
    unfold path.is_slash. destruct Hbase as (_ & -> & _). reflexivity. }
  rewrite Hfirst, take_while_all; [apply rev_involutive|exact Hrev|].
  destruct Hdir as [->|Hdir]; [reflexivity|].
  unfold path.endsWithSlash in Hdir.
  destruct dir as [|c dir _] using rev_ind; [discriminate|].
  rewrite last_snoc in Hdir. rewrite rev_app_distr. cbn [rev app].
  unfold path.is_slash. rewrite Hdir. reflexivity.
Qed.

(** The extension of a name with a dot after its first character. *)
Lemma extname_dotted (dir stem ext : jsstring) :
  stem ≠ [] → ¬ (stem = [DOT] ∧ ext = []) →
  forallb (λ c, negb (c =? SLASH)) (stem ++ DOT :: ext) = true →
  forallb (λ c, negb (c =? DOT)) ext = true →
  dir = [] ∨ path.endsWithSlash dir = true →
  path.extname (dir ++ stem ++ DOT :: ext) = DOT :: ext.
Proof.
  intros Hstem Hdots Hslash Hdot Hdir. unfold path.extname.
  rewrite lastComponent_name; [|destruct stem; discriminate|assumption..].
  rewrite rev_app_distr. cbn [rev]. rewrite <- app_assoc. cbn [app].
  rewrite take_while_all;
    [|rewrite forallb_rev; exact Hdot
     |cbn; reflexivity].
  rewrite length_rev, length_app. cbn [length].
  replace (length ext =? length stem + S (length ext))%nat with false
    by (symmetry; apply Nat.eqb_neq; lia).
  replace (length stem + S (length ext) - length ext - 1)%nat
    with (length stem) by lia.
  replace (length stem =? 0)%nat with false
    by (symmetry; apply Nat.eqb_neq; destruct stem; cbn; [congruence|lia]).
  unfold path.jsstring_eqb. rewrite bool_decide_eq_false_2.
  - rewrite drop_app_length. reflexivity.
  - intros Heq. apply Hdots.
    destruct stem as [|c1 [|c2 stem]]; [congruence| |].
    + injection Heq as -> Heq. destruct ext; [auto|discriminate].
    + injection Heq as -> Heq. destruct stem; discriminate.
Qed.

(** A name without a dot after its first character has no extension. *)
Lemma extname_plain (dir name : jsstring) (c : N) :
  forallb (λ c, negb (c =? SLASH)) (c :: name) = true →
  forallb (λ c, negb (c =? DOT)) name = true →
  dir = [] ∨ path.endsWithSlash dir = true →
  path.extname (dir ++ c :: name) = [].
Proof.
  intros Hslash Hdot Hdir. unfold path.extname.
  rewrite lastComponent_name; [|discriminate|assumption..].
  cbn [rev]. destruct (c =? DOT) eqn:Hc.
  - rewrite take_while_all;
      [|rewrite forallb_rev; exact Hdot|cbn; rewrite Hc; reflexivity].
    rewrite length_rev. cbn [length].
    replace (length name =? S (length name))%nat with false
      by (symmetry; apply Nat.eqb_neq; lia).
    replace (S (length name) - length name - 1)%nat with 0%nat by lia.
    reflexivity.
  - rewrite <- (app_nil_r (rev name ++ [c])), take_while_all;
      [|rewrite forallb_app, forallb_rev, Hdot; cbn; rewrite Hc; reflexivity
       |reflexivity].
    rewrite length_app, length_rev. cbn [length].
    replace (length name + 1 =? S (length name))%nat with true
      by (symmetry; apply Nat.eqb_eq; lia).
    reflexivity.
Qed.

(** X23. [isTextFile] classifies a file by what follows the last dot of its
    name, lower-cased: a file [stem.ext] with a non-empty stem is text
    exactly when the lower-cased [.ext] is in the set, whatever dots the
    stem holds and whatever the directory; a name without a dot, or whose
    only dot comes first, is classified by the lower-cased empty
    extension. *)
Theorem X23_isTextFile_last_extension (toLowerCase : jsstring → jsstring)
    (textExtensions : gset jsstring) (dir : jsstring) :
  dir = [] ∨ path.endsWithSlash dir = true →
  (∀ stem ext,
     stem ≠ [] → ¬ (stem = [DOT] ∧ ext = []) →
     forallb (λ c, negb (c =? SLASH)) (stem ++ DOT :: ext) = true →
     forallb (λ c, negb (c =? DOT)) ext = true →
     isTextFile toLowerCase (dir ++ stem ++ DOT :: ext) textExtensions
     = bool_decide (toLowerCase (DOT :: ext) ∈ textExtensions))
  ∧ (∀ c name,
       forallb (λ c, negb (c =? SLASH)) (c :: name) = true →
       forallb (λ c, negb (c =? DOT)) name = true →
       isTextFile toLowerCase (dir ++ c :: name) textExtensions
       = bool_decide (toLowerCase [] ∈ textExtensions)).
Proof.
  intros Hdir. split.
  - intros stem ext H1 H2 H3 H4. unfold isTextFile.
    rewrite extname_dotted by assumption. reflexivity.
  - intros c name H1 H2. unfold isTextFile.
    rewrite extname_plain by assumption. reflexivity.
Qed.

Lemma X23_isTextFile_last_extension_witness :
  isTextFile id (js "/w/site/" ++ js "bundle.min" ++ DOT :: js "js")
    {[ js ".js" ]} = true
  ∧ isTextFile id (js "/w/site/" ++ js ".gitignore") {[ js ".js" ]} = false.
Proof.
  destruct (X23_isTextFile_last_extension id {[ js ".js" ]} (js "/w/site/"))
    as [Hdotted Hplain]; [right; reflexivity|].
  split.
  - rewrite Hdotted; [reflexivity|discriminate| |reflexivity..].
    intros [H _]. discriminate.
  - apply (Hplain DOT (js "gitignore")); reflexivity.
Defined.

(** ** The reset and the walk, one after the other *)

Lemma rmSync_lookup (cwd p : jsstring) (st : state) (k : list jsstring) :
  disk (fs.rmSync cwd p st).2 !! k
  = if fs.within (fs.key cwd p) k then None else disk st !! k.
Proof.
  unfold fs.rmSync. cbn [snd disk].
  destruct (fs.within (fs.key cwd p) k) eqn:Hin.
  - apply map_lookup_filter_None. right. intros n _ Hout. cbn in Hout.
    congruence.
  - destruct (disk st !! k) as [n|] eqn:Hk.
    + apply map_lookup_filter_Some. split; [exact Hk|exact Hin].
    + apply map_lookup_filter_None. left. exact Hk.
Qed.

Lemma files_from_refl (σ : gmap (list jsstring) node) : files_from σ σ.
Proof. intros k c H. exact H. Qed.

Lemma files_from_trans (σ1 σ2 σ3 : gmap (list jsstring) node) :
  files_from σ1 σ2 → files_from σ2 σ3 → files_from σ1 σ3.
Proof. intros H12 H23 k c H. apply H12, H23, H. Qed.

Lemma files_from_mkdirSync (cwd p : jsstring) :
  respects files_from (fs.mkdirSync cwd p).
Proof.
  unfold fs.mkdirSync. destruct p; [apply respects_throw, files_from_refl|].
  apply (respects_for_of _ files_from_refl files_from_trans).
  intros _ a _ st. unfold fs.mkdir_one.
  destruct (disk st !! a) as [[c|]|] eqn:Ha; try apply files_from_refl.
  intros k c Hk. cbn [snd disk] in Hk.
  destruct (decide (a = k)) as [->|Hne].
  - rewrite lookup_insert_eq in Hk. discriminate.
  - rewrite lookup_insert_ne in Hk by exact Hne. exact Hk.
Qed.

(** When [mkdirSync] returns, every directory on the way is there. *)
Lemma mkdir_done (p : jsstring) (target : list jsstring)
    (dirs : list (list jsstring)) :
  ∀ st st',
    for_of dirs (λ _ a, fs.mkdir_one p target a) () st = (Normal (), st') →
    ∀ a, a ∈ dirs → disk st' !! a = Some Directory.
Proof.
  induction dirs as [|d dirs IH]; intros st st' Hrun a Ha.
  - apply elem_of_nil in Ha. contradiction.
  - cbn [for_of] in Hrun. rewrite bind_eq in Hrun.
    destruct (fs.mkdir_one p target d st) as [[[]|e] st1] eqn:Hone;
      [|discriminate].
    apply elem_of_cons in Ha as [->|Ha]; [|apply (IH st1 st' Hrun a Ha)].
    assert (Hd : disk st1 !! d = Some Directory).
    { unfold fs.mkdir_one in Hone.
      destruct (disk st !! d) as [[c|]|] eqn:Hlook.
      - discriminate.
      - injection Hone as <-. exact Hlook.
      - injection Hone as <-. apply lookup_insert_eq. }
    pose proof (keeps_for_of dirs (λ _ a, fs.mkdir_one p target a) ()
                  (λ _ a, keeps_mkdir_one p target a) st1) as Hkept.
    rewrite Hrun in Hkept. apply (Hkept d Directory Hd).
Qed.

Section Rebuild.

Variable cwd : jsstring.
Variables W O : list jsstring.

Hypothesis W_named : Forall segment W.
Hypothesis O_named : Forall segment O.

(** The disk after the reset without [skipDelete]. *)
Lemma reset_result (st : state) :
  well_named (disk st) →
  (∀ k, O `prefix_of` k → is_Some (disk st !! k) → is_Some (disk st !! O)) →
  ∃ r st1,
    resetOutputDirectory cwd (absolute O) false st = (r, st1)
    ∧ (∀ k, O `prefix_of` k → k ≠ O → disk st1 !! k = None)
    ∧ files_from (disk st) (disk st1)
    ∧ well_named (disk st1)
    ∧ (r = Normal () → ∀ a, a `prefix_of` O → disk st1 !! a = Some Directory).
Proof.
  intros Hnamed Horphan.
  assert (Hfirst : ∃ sta,
    resetOutputDirectory cwd (absolute O) false st
    = (fs.mkdirSync cwd (absolute O);;
       console_log (js "Recreated output directory: " ++ absolute O)) sta
    ∧ (∀ k, O `prefix_of` k → k ≠ O → disk sta !! k = None)
    ∧ (∀ k n, disk sta !! k = Some n → disk st !! k = Some n)).
  { unfold resetOutputDirectory. cbn [negb].
    destruct (disk st !! O) as [n|] eqn:HO.
    - exists (State (disk (fs.rmSync cwd (absolute O) st).2)
                (console st
                 ++ [(stdout, js "Removed existing output directory: "
                              ++ absolute O)])).
      split; [|split].
      + rewrite bind_eq. unfold fs.existsSync, fs.stat.
        rewrite bind_eq. rewrite (key_absolute cwd O O_named), HO.
        unfold mret at 1. unfold M_ret. rewrite bind_eq. reflexivity.
      + intros k Hk _. cbn [disk]. rewrite rmSync_lookup.
        rewrite (key_absolute cwd O O_named).
        apply within_prefix in Hk. rewrite Hk. reflexivity.
      + intros k n'. cbn [disk]. rewrite rmSync_lookup.
        destruct (fs.within _ k); [discriminate|auto].
    - exists st. split; [|split].
      + rewrite bind_eq. unfold fs.existsSync, fs.stat.
        rewrite bind_eq. rewrite (key_absolute cwd O O_named), HO.
        unfold mret at 1. unfold M_ret. rewrite bind_eq. reflexivity.
      + intros k Hk _. destruct (disk st !! k) eqn:Hlook; [|reflexivity].
        destruct (Horphan k Hk (mk_is_Some _ _ Hlook)) as [n' Hn]. congruence.
      + auto. }
  destruct Hfirst as (sta & Hrun & Hbelow & Hsub).
  rewrite Hrun. rewrite bind_eq.
  pose proof (same_outside_mkdirSync O cwd (absolute O)) as Hout.
  rewrite (key_absolute cwd O O_named) in Hout.
  specialize (Hout (reflexivity O) sta).
  pose proof (files_from_mkdirSync cwd (absolute O) sta) as Hfiles.
  assert (Hdone : ∀ st1,
    fs.mkdirSync cwd (absolute O) sta = (Normal (), st1) →
    ∀ a, a `prefix_of` O → disk st1 !! a = Some Directory).
  { intros st1 Hmk a Ha. rewrite (mkdirSync_absolute cwd O O_named) in Hmk.
    apply (mkdir_done _ _ _ _ _ Hmk), mkdir_path_all, Ha. }
  destruct (fs.mkdirSync cwd (absolute O) sta) as [r st1].
  cbn [snd] in Hout, Hfiles.
  assert (Hfacts :
    (∀ k, O `prefix_of` k → k ≠ O → disk st1 !! k = None)
    ∧ files_from (disk st) (disk st1)
    ∧ well_named (disk st1)).
  { split; [|split].
    - intros k Hk Hne. rewrite Hout; [apply Hbelow; assumption|].
      intros Hk'. apply Hne. apply (anti_symm prefix); assumption.
    - intros k c Hk. apply Hsub, Hfiles, Hk.
    - intros k n Hk. destruct (decide (k `prefix_of` O)) as [[rest ->]|Hp].
      + apply Forall_app in O_named. tauto.
      + rewrite (Hout k Hp) in Hk. apply (Hnamed k n), Hsub, Hk. }
  destruct r as [[]|e].
  - eexists _, _. split; [reflexivity|]. cbn [disk].
    destruct Hfacts as (H1 & H2 & H3).
    split; [exact H1|]. split; [exact H2|]. split; [exact H3|].
    intros _. apply (Hdone st1 eq_refl).
  - exists (Throw e), st1. split; [reflexivity|].
    destruct Hfacts as (H1 & H2 & H3).
    split; [exact H1|]. split; [exact H2|]. split; [exact H3|].
    discriminate.
Qed.

(** What the walk keeps of the disk [σ1] the reset left. *)
Lemma imaged_file (σ1 : gmap (list jsstring) node)
    (m : M unit) (R : list jsstring) (name c : jsstring) (st : state) :
  (∀ a, a `prefix_of` O → σ1 !! a = Some Directory) →
  Forall segment (R ++ [name]) →
  respects kinds_kept m →
  respects (same_outside (O ++ R ++ [name])) m →
  disk st !! (W ++ R ++ [name]) = Some (File c) →
  inOutputDir cwd (absolute (W ++ R ++ [name])) (absolute O) = false →
  kinds_kept σ1 (disk st)
  ∧ (∀ a, ¬ a `prefix_of` O → ¬ O `prefix_of` a → disk st !! a = σ1 !! a)
  ∧ imaged W O σ1 (disk st) →
  kinds_kept σ1 (disk (m st).2)
  ∧ (∀ a, ¬ a `prefix_of` O → ¬ O `prefix_of` a →
          disk (m st).2 !! a = σ1 !! a)
  ∧ imaged W O σ1 (disk (m st).2).
Proof.
  intros Hdirs HR Hkeeps Hout Hfile Hskip (Hkept & Houtside & Himaged).
  assert (Hsource : σ1 !! (W ++ R ++ [name]) = Some (File c)).
  { rewrite <- Houtside; [exact Hfile| |].
    - intros Hp. pose proof (Hkept _ _ (Hdirs _ Hp)) as Hdir.
      cbn beta iota in Hdir. congruence.
    - intros [rest Hrest].
      assert (Hall : Forall segment (W ++ R ++ [name]))
        by (apply Forall_app; split; assumption).
      rewrite Hrest in Hskip, Hall.
      rewrite inOutputDir_below in Hskip; [discriminate|exact O_named|].
      apply Forall_app in Hall. tauto. }
  split; [|split].
  - eapply kinds_kept_trans; [exact Hkept|apply Hkeeps].
  - intros a Ha1 Ha2. rewrite <- Houtside by assumption.
    apply Hout. intros Ha.
    destruct (prefix_weak_total a O (O ++ R ++ [name]) Ha
                (prefix_app_r O O _ (reflexivity O))); contradiction.
  - intros k Hk Hne Hsome.
    destruct (decide (k `prefix_of` O ++ R ++ [name])) as [Hp|Hp].
    + exists R, name, c. split; [exact Hp|exact Hsource].
    + rewrite (Hout st k Hp) in Hsome. apply Himaged; assumption.
Qed.

End Rebuild.

(** X24. After the reset without [skipDelete] and the walk, the output tree
    holds nothing stale: on a disk whose entries are reached through names
    and where nothing lies below an output root that is not there, every
    entry below the output root lies, after
    [resetOutputDirectory] and [processDirectory], on the way to the image
    of a regular file that the disk held below the watched root and
    outside the output root. What was in the output tree before and is no
    such image is gone. *)
Theorem X24_rebuild_leaves_nothing_stale (cwd : jsstring)
    (toLowerCase : jsstring → jsstring)
    (util_format : jsstring → jsstring → jsstring) (W O : list jsstring)
    (textExtensions : gset jsstring) (includeRoot : jsstring)
    (maxRecursion : Z) (stack : nat) (st : state) (k : list jsstring) :
  Forall segment W → Forall segment O →
  well_named (disk st) →
  (∀ k, O `prefix_of` k → is_Some (disk st !! k) → is_Some (disk st !! O)) →
  O `prefix_of` k → k ≠ O →
  is_Some
    (disk ((resetOutputDirectory cwd (absolute O) false;;
            processDirectory cwd toLowerCase util_format stack (absolute W)
              (absolute O)
              textExtensions includeRoot maxRecursion (absolute W)) st).2
     !! k) →
  ∃ R name content,
    k `prefix_of` O ++ R ++ [name]
    ∧ disk st !! (W ++ R ++ [name]) = Some (File content)
    ∧ ¬ O `prefix_of` W ++ R ++ [name].
Proof.
  intros HW HO Hnamed Horphan Hk Hne.
  destruct (reset_result cwd O HO st Hnamed Horphan)
    as (r & st1 & Hreset & Hbelow & Hfiles & Hnamed1 & Hdirs).
  rewrite bind_eq, Hreset. destruct r as [[]|e].
  2:{ cbn [snd]. rewrite (Hbelow k Hk Hne). intros [n Hn]. discriminate. }
  specialize (Hdirs eq_refl).
  destruct (depth_exists (disk st1)) as [d Hd].
  assert (Hdepth : depth_within (Nat.max d (length O)) (disk st1)).
  { intros k' n Hk'. specialize (Hd k' n Hk'). cbn beta in Hd. lia. }
  set (J := λ σ : gmap (list jsstring) node,
    kinds_kept (disk st1) σ
    ∧ (∀ a, ¬ a `prefix_of` O → ¬ O `prefix_of` a → σ !! a = disk st1 !! a)
    ∧ imaged W O (disk st1) σ).
  destruct (walk cwd toLowerCase util_format W O textExtensions includeRoot
              maxRecursion
              (Nat.max d (length O)) HW HO (Nat.le_max_r _ _) J) with
    (stack := stack) (R := @nil jsstring) (st := st1) as [[_ HJ] _].
  - constructor.
  - apply tidy_intro; assumption.
  - intros R name c st2 HR _ Hfile Hskip HJ.
    apply (imaged_file cwd W O HW HO (disk st1) _ R name c st2); auto.
    + destruct (isTextFile _ _ _);
        [apply keeps_processTextFile|apply keeps_copyBinaryFile].
    + destruct (isTextFile _ _ _);
        [apply processTextFile_outside|apply copyBinaryFile_outside];
        assumption.
  - rewrite app_nil_r in HJ. destruct HJ as (_ & _ & Himaged).
    + split; [apply kinds_kept_refl|]. split; [auto|].
      intros k' Hk' Hne' [n Hn]. rewrite (Hbelow k' Hk' Hne') in Hn.
      discriminate.
    + intros Hsome.
      destruct (Himaged k Hk Hne Hsome) as (R & name & c & Hp & Hsrc).
      exists R, name, c. split; [exact Hp|]. split; [apply Hfiles, Hsrc|].
      intros Hin. destruct (decide (W ++ R ++ [name] = O)) as [Heq|Hneq].
      * rewrite Heq, (Hdirs O (reflexivity O)) in Hsrc. discriminate.
      * rewrite (Hbelow _ Hin Hneq) in Hsrc. discriminate.
Qed.

Lemma X24_rebuild_leaves_nothing_stale_witness :
  ∃ R name content,
    [js "w"; js "dist"; js "a.html"]
      `prefix_of` [js "w"; js "dist"] ++ R ++ [name]
    ∧ disk Scenario.stale !! ([js "w"] ++ R ++ [name]) = Some (File content)
    ∧ ¬ [js "w"; js "dist"] `prefix_of` [js "w"] ++ R ++ [name].
Proof.
  apply (X24_rebuild_leaves_nothing_stale Scenario.cwd id Scenario.util_format
           [js "w"] [js "w"; js "dist"] {[ js ".html" ]} (js "/w") 10 4
           Scenario.stale [js "w"; js "dist"; js "a.html"]).
  - repeat constructor.
  - repeat constructor.
  - apply (bool_decide_eq_true_1 _). vm_compute. reflexivity.
  - intros k _ _. exists Directory. vm_compute. reflexivity.
  - exists [js "a.html"]. reflexivity.
  - discriminate.
  - eexists. vm_compute. reflexivity.
Defined.

(** X25. An output root that is the watched root, or above it, costs the
    sources: on a disk whose entries are reached through names and where
    nothing lies below an output root that is not there, after
    [resetOutputDirectory] without [skipDelete] and [processDirectory]
    nothing is left below the output root, whether the walk returned or
    threw. The reset removed the watched tree with the rest and the walk
    rebuilt nothing, since it skips what lies below the output root. *)
Theorem X25_output_above_watch_loses_sources (cwd : jsstring)
    (toLowerCase : jsstring → jsstring)
    (util_format : jsstring → jsstring → jsstring) (W O : list jsstring)
    (textExtensions : gset jsstring) (includeRoot : jsstring)
    (maxRecursion : Z) (stack : nat) (st : state) (k : list jsstring) :
  Forall segment W → Forall segment O →
  well_named (disk st) →
  (∀ k, O `prefix_of` k → is_Some (disk st !! k) → is_Some (disk st !! O)) →
  O `prefix_of` W →
  O `prefix_of` k → k ≠ O →
  disk ((resetOutputDirectory cwd (absolute O) false;;
         processDirectory cwd toLowerCase util_format stack (absolute W)
           (absolute O)
           textExtensions includeRoot maxRecursion (absolute W)) st).2
    !! k
  = None.
Proof.
  intros HW HO Hnamed Horphan [rest ->] Hk Hne.
  destruct (reset_result cwd O HO st Hnamed Horphan)
    as (r & st1 & Hreset & Hbelow & _ & Hnamed1 & _).
  rewrite bind_eq, Hreset. destruct r as [[]|e]; [|apply Hbelow; assumption].
  destruct (depth_exists (disk st1)) as [d Hd].
  assert (Hdepth : depth_within (Nat.max d (length O)) (disk st1)).
  { intros k' n Hk'. specialize (Hd k' n Hk'). cbn beta in Hd. lia. }
  assert (Hskipped : ∀ R name,
    Forall segment (R ++ [name]) →
    inOutputDir cwd (absolute ((O ++ rest) ++ R ++ [name])) (absolute O)
    = true).
  { intros R name HR. rewrite <- (app_assoc O rest).
    apply inOutputDir_below; [exact HO|].
    apply Forall_app in HW as [_ Hrest]. apply Forall_app. split; assumption. }
  destruct (walk cwd toLowerCase util_format (O ++ rest) O textExtensions
              includeRoot
              maxRecursion (Nat.max d (length O)) HW HO (Nat.le_max_r _ _)
              (λ σ, ∀ k, O `prefix_of` k → k ≠ O → σ !! k = None)) with
    (stack := stack) (R := @nil jsstring) (st := st1) as [[_ HJ] _].
  - constructor.
  - apply tidy_intro; assumption.
  - intros R name c st2 HR _ _ Hskip. rewrite Hskipped in Hskip by exact HR.
    discriminate.
  - rewrite app_nil_r in HJ. apply HJ; assumption.
Qed.

Lemma X25_output_above_watch_loses_sources_witness :
  disk ((resetOutputDirectory Scenario.cwd (js "/w") false;;
         processDirectory Scenario.cwd id Scenario.util_format 4 (js "/w")
           (js "/w")
           {[ js ".html" ]} (js "/w") 10 (js "/w")) Scenario.hello).2
    !! [js "w"; js "a.html"]
  = None.
Proof.
  apply (X25_output_above_watch_loses_sources Scenario.cwd id
           Scenario.util_format [js "w"]
           [js "w"] {[ js ".html" ]} (js "/w") 10 4 Scenario.hello
           [js "w"; js "a.html"]).
  - repeat constructor.
  - repeat constructor.
  - apply (bool_decide_eq_true_1 _). vm_compute. reflexivity.
  - intros k _ _. exists Directory. vm_compute. reflexivity.
  - reflexivity.
  - exists [js "a.html"]. reflexivity.
  - discriminate.
Defined.

Lemma take_drop_while (f : N → bool) (s : jsstring) :
  s = path.take_while f s ++ path.drop_while f s.
Proof.
  induction s as [|c s IH]; [reflexivity|].
  cbn [path.take_while path.drop_while]. destruct (f c); [|reflexivity].
  cbn [app]. f_equal. exact IH.
Qed.

Lemma drop_while_head (f : N → bool) (s : jsstring) :
  match path.drop_while f s with
  | [] => True
  | c :: _ => f c = false
  end.
Proof.
  induction s as [|c s IH]; [exact I|].
  cbn [path.drop_while]. destruct (f c) eqn:Hc; [exact IH|exact Hc].
Qed.

(** An extension is empty or begins with the dot. *)
Lemma extname_shape (p : jsstring) :
  path.extname p = [] ∨ ∃ e, path.extname p = DOT :: e.
Proof.
  unfold path.extname.
  set (base := path.lastComponent p).
  set (ext_rev := path.take_while (λ c, negb (c =? DOT)) (rev base)).
  destruct (length ext_rev =? length base)%nat eqn:Hlen; [auto|].
  destruct (length base - length ext_rev - 1 =? 0)%nat; [auto|].
  destruct (path.jsstring_eqb base [DOT; DOT]); [auto|].
  right. exists (rev ext_rev).
  pose proof (take_drop_while (λ c, negb (c =? DOT)) (rev base)) as Hsplit.
  pose proof (drop_while_head (λ c, negb (c =? DOT)) (rev base)) as Hhead.
  fold ext_rev in Hsplit.
  destruct (path.drop_while (λ c, negb (c =? DOT)) (rev base))
    as [|d rest].
  - rewrite app_nil_r in Hsplit. apply (f_equal length) in Hsplit.
    rewrite length_rev in Hsplit. apply Nat.eqb_neq in Hlen. lia.
  - apply negb_false_iff, N.eqb_eq in Hhead. subst d.
    assert (Hbase : base = rev rest ++ DOT :: rev ext_rev).
    { rewrite <- (rev_involutive base), Hsplit, rev_app_distr.
      cbn [rev]. rewrite <- app_assoc. reflexivity. }
    rewrite Hbase at 1 2. rewrite length_app. cbn [length].
    rewrite !length_rev.
    replace (length rest + S (length ext_rev) - length ext_rev - 1)%nat
      with (length (rev rest)) by (rewrite length_rev; lia).
    apply drop_app_length.
Qed.

(** X26. An extension given without its dot never matches: the extension
    of a path is empty or begins with a dot, so, for a lower-casing that
    keeps the empty text empty and a leading dot in its place, adding to
    the set a non-empty extension that does not begin with a dot, such as
    [svg] for [.svg], changes the classification of no file. *)
Theorem X26_extension_without_dot (toLowerCase : jsstring → jsstring)
    (textExtensions : gset jsstring) (ext filePath : jsstring) :
  toLowerCase [] = [] →
  (∀ e, toLowerCase (DOT :: e) = DOT :: toLowerCase e) →
  ext ≠ [] → head ext ≠ Some DOT →
  isTextFile toLowerCase filePath ({[ ext ]} ∪ textExtensions)
  = isTextFile toLowerCase filePath textExtensions.
Proof.
  intros Hempty Hdot Hne Hhead. unfold isTextFile.
  apply bool_decide_ext. rewrite elem_of_union, elem_of_singleton.
  split; [|auto]. intros [Heq|H]; [|exact H]. exfalso.
  destruct (extname_shape filePath) as [Hext|[e Hext]];
    rewrite Hext in Heq.
  - rewrite Hempty in Heq. congruence.
  - rewrite Hdot in Heq. rewrite <- Heq in Hhead. apply Hhead. reflexivity.
Qed.

Lemma X26_extension_without_dot_witness :
  isTextFile id (js "/w/logo.svg") ({[ js "svg" ]} ∪ {[ js ".html" ]})
  = isTextFile id (js "/w/logo.svg") {[ js ".html" ]}.
Proof.
  apply (X26_extension_without_dot id {[ js ".html" ]} (js "svg")
           (js "/w/logo.svg")); try reflexivity; discriminate.
Defined.

(** ** What the console says of a file *)


Lemma write_cases (fail : jsstring → Error) (k : list jsstring)
    (content : jsstring) (st : state) :
  fs.write fail k content st
  = (Normal (), State (<[k := File content]> (disk st)) (console st))
  ∨ ∃ e, fs.write fail k content st = (Throw e, st).
Proof.
  unfold fs.write.
  destruct (fs.parent k) as [d|]; [|eauto].
  destruct (disk st !! d) as [[c|]|]; eauto.
  destruct (disk st !! k) as [[c|]|]; eauto.
Qed.





(** ** The walk reaches every file *)

Lemma entry_name_snoc (d : list jsstring) (name : jsstring) :
  fs.entry_name d (d ++ [name]) = Some name.
Proof.
  induction d as [|x d IH]; [reflexivity|]. cbn [app fs.entry_name].
  unfold path.jsstring_eqb. rewrite bool_decide_true by reflexivity.
  exact IH.
Qed.

(** What is on disk in a directory is listed by [readdirSync], once. *)
Lemma there_listed (d : list jsstring) (σ : gmap (list jsstring) node)
    (name : jsstring) :
  is_Some (σ !! (d ++ [name])) →
  name ∈ omap (λ kv, fs.entry_name d kv.1) (map_to_list σ).
Proof.
  intros [n Hn]. apply list_elem_of_omap. exists (d ++ [name], n).
  split; [apply elem_of_map_to_list, Hn|apply entry_name_snoc].
Qed.

Lemma listed_NoDup (d : list jsstring) (σ : gmap (list jsstring) node) :
  NoDup (omap (λ kv, fs.entry_name d kv.1) (map_to_list σ)).
Proof.
  pose proof (NoDup_fst_map_to_list σ) as H.
  induction (map_to_list σ) as [|[k n] l IH]; [constructor|].
  rewrite fmap_cons in H. apply NoDup_cons in H as [Hk Hl].
  cbn [omap list_omap fst]. specialize (IH Hl).
  destruct (fs.entry_name d k) as [name|] eqn:Hname; [|exact IH].
  apply NoDup_cons. split; [|exact IH].
  intros ([k' n'] & Hk' & Hname')%list_elem_of_omap. cbn [fst] in Hname'.
  apply entry_name_Some in Hname, Hname'. subst k k'.
  apply Hk. apply list_elem_of_fmap. exists (d ++ [name], n'). auto.
Qed.

(** The path of an entry starts with the path of every directory above
    it. *)
Lemma absolute_app (A B : list jsstring) :
  ∃ t, absolute (A ++ B) = absolute A ++ t.
Proof.
  destruct A as [|a A]; [exists (path.join_segments B); reflexivity|].
  destruct B as [|b B].
  - exists []. rewrite !app_nil_r. reflexivity.
  - exists (SLASH :: path.join_segments (b :: B)). unfold absolute.
    rewrite join_segments_app by discriminate. reflexivity.
Qed.

(** An entry that the output-root test lets through lies below
    directories that it lets through. *)
Lemma inOutputDir_above (cwd : jsstring) (A B O : list jsstring) :
  Forall segment (A ++ B) → Forall segment O →
  inOutputDir cwd (absolute (A ++ B)) (absolute O) = false →
  inOutputDir cwd (absolute A) (absolute O) = false.
Proof.
  intros HAB HO. pose proof HAB as [HA _]%Forall_app. unfold inOutputDir.
  rewrite !resolve_absolute by assumption.
  destruct (startsWith (absolute A) (absolute O)) eqn:Hstart;
    [|reflexivity].
  apply startsWith_prefix in Hstart as [t Ht].
  destruct (absolute_app A B) as [u Hu].
  rewrite Hu, Ht, <- app_assoc, startsWith_app. discriminate.
Qed.

(** Two paths that part at some directory: neither leads to the other. *)
Lemma parted {A : Type} (R0 s : list A) (x y : A) (T T' : list A) :
  x ≠ y → T = R0 ++ x :: s → R0 ++ [y] `prefix_of` T' →
  ¬ T `prefix_of` T' ∧ ¬ T' `prefix_of` T.
Proof.
  intros Hxy -> [u ->]. rewrite <- app_assoc. cbn [app].
  split; intros H%prefix_app_inv; apply prefix_cons_inv_1 in H; congruence.
Qed.

Lemma files_from_but_refl (K : list jsstring)
    (σ : gmap (list jsstring) node) : files_from_but K σ σ.
Proof. intros k c _ H. exact H. Qed.

Lemma files_from_but_trans (K : list jsstring)
    (σ1 σ2 σ3 : gmap (list jsstring) node) :
  files_from_but K σ1 σ2 → files_from_but K σ2 σ3 → files_from_but K σ1 σ3.
Proof. intros H12 H23 k c Hk H. apply H12, H23; assumption. Qed.

Lemma files_from_but_mkdirSync (K : list jsstring) (cwd p : jsstring) :
  respects (files_from_but K) (fs.mkdirSync cwd p).
Proof. intros st k c _. apply files_from_mkdirSync. Qed.

Lemma files_from_but_write (fail : jsstring → Error) (k : list jsstring)
    (content : jsstring) :
  respects (files_from_but k) (fs.write fail k content).
Proof.
  intros st. destruct (write_cases fail k content st) as [->|[e ->]];
    [|apply files_from_but_refl].
  intros a c Ha. cbn [snd disk]. rewrite lookup_insert_ne by congruence.
  auto.
Qed.

Section Reach.

Variable cwd : jsstring.
Variable toLowerCase : jsstring → jsstring.
Variable util_format : jsstring → jsstring → jsstring.
Variables W O : list jsstring.
Variable textExtensions : gset jsstring.
Variable includeRoot : jsstring.
Variable maxRecursion : Z.
Variable depth : nat.

Hypothesis W_named : Forall segment W.
Hypothesis O_named : Forall segment O.
Hypothesis O_depth : (length O ≤ depth)%nat.

(** What a turn of the walk for a regular file does to the disk. *)
Lemma file_turn (R : list jsstring) (name : jsstring) (st : state) :
  Forall segment (R ++ [name]) →
  let σ' :=
    disk
      ((if isTextFile toLowerCase (absolute (W ++ R ++ [name]))
            textExtensions
        then processTextFile cwd (absolute (W ++ R ++ [name]))
               (absolute O) includeRoot maxRecursion (absolute W)
        else copyBinaryFile cwd util_format (absolute (W ++ R ++ [name]))
               (absolute O) (absolute W)) st).2 in
  kinds_kept (disk st) σ'
  ∧ same_outside (O ++ R ++ [name]) (disk st) σ'
  ∧ files_from_but (O ++ R ++ [name]) (disk st) σ'.
Proof.
  intros HR σ'. subst σ'.
  assert (HK : Forall segment (O ++ R ++ [name]))
    by (apply Forall_app; split; assumption).
  assert (Hmk : ∀ p, respects (files_from_but (O ++ R ++ [name]))
                       (fs.mkdirSync cwd p))
    by (intros p; apply files_from_but_mkdirSync).
  assert (Hwr : ∀ fail c,
    respects (files_from_but (O ++ R ++ [name]))
      (fs.write fail (fs.key cwd (absolute (O ++ R ++ [name]))) c)).
  { intros fail c. rewrite key_absolute by exact HK.
    apply files_from_but_write. }
  destruct (isTextFile toLowerCase _ textExtensions); split; [|split| |split].
  - apply keeps_processTextFile.
  - apply processTextFile_outside; assumption.
  - apply (respects_processTextFile _ (files_from_but_refl _)
             (files_from_but_trans _));
      rewrite output_path by assumption; auto.
  - apply keeps_copyBinaryFile.
  - apply copyBinaryFile_outside; assumption.
  - apply (respects_copyBinaryFile _ (files_from_but_refl _)
             (files_from_but_trans _));
      rewrite output_path by assumption; auto.
Qed.

(** The file the walk is to reach. *)
Variable R : list jsstring.
Variables name content : jsstring.

Hypothesis target_named : Forall segment (R ++ [name]).
Hypothesis not_skipped :
  inOutputDir cwd (absolute (W ++ R ++ [name])) (absolute O) = false.

Lemma target_outside : ¬ O `prefix_of` W ++ R ++ [name].
Proof.
  intros [t Ht]. rewrite Ht in not_skipped.
  rewrite inOutputDir_below in not_skipped; [discriminate|exact O_named|].
  assert (H : Forall segment (W ++ R ++ [name]))
    by (apply Forall_app; split; assumption).
  rewrite Ht in H. apply Forall_app in H. tauto.
Qed.

(** A turn for a file on another way keeps the target awaiting. *)
Lemma awaiting_kept (scope : list jsstring) :
  ¬ scope `prefix_of` R ++ [name] → ¬ R ++ [name] `prefix_of` scope →
  kept_by_files cwd toLowerCase util_format W O textExtensions includeRoot
    maxRecursion (awaiting W O R name content) scope.
Proof.
  intros Hs1 Hs2 R' name' c st HR' Hscope Hfile Hskip
    (Hsrc & Hdirs & Hfree & Hentry).
  destruct (file_turn R' name' st HR') as (Hkept & Hsame & Hfiles).
  assert (Hpart1 : ¬ R ++ [name] `prefix_of` R' ++ [name']).
  { intros H. destruct (prefix_weak_total _ _ _ Hscope H); contradiction. }
  assert (Hpart2 : ¬ R' ++ [name'] `prefix_of` R ++ [name]).
  { intros H. apply Hs1. etransitivity; eassumption. }
  split; [|split; [|split]].
  - rewrite Hsame; [exact Hsrc|]. intros Hin.
    destruct (prefix_weak_total (W ++ R ++ [name]) O (O ++ R' ++ [name']) Hin)
      as [H|H].
    + apply prefix_app_r. reflexivity.
    + apply (Hfree _ content (prefix_app_r _ _ R H)). exact Hsrc.
    + exact (target_outside H).
  - intros R0 HR0. apply (Hkept _ Directory), Hdirs, HR0.
  - intros a c' Ha Hnew. apply (Hfree a c' Ha). apply Hfiles; [|exact Hnew].
    intros ->. apply prefix_app_inv in Ha. apply Hpart2.
    apply prefix_app_r, Ha.
  - rewrite Hsame; [exact Hentry|]. intros H%prefix_app_inv. auto.
Qed.

(** A turn for a file on another way keeps the image of the target. *)
Lemma image_kept (scope : list jsstring) (image : option node) :
  ¬ scope `prefix_of` R ++ [name] → ¬ R ++ [name] `prefix_of` scope →
  kept_by_files cwd toLowerCase util_format W O textExtensions includeRoot
    maxRecursion (λ σ, σ !! (O ++ R ++ [name]) = image) scope.
Proof.
  intros Hs1 Hs2 R' name' c st HR' Hscope Hfile Hskip Hcopy.
  destruct (file_turn R' name' st HR') as (_ & Hsame & _).
  rewrite Hsame; [exact Hcopy|]. intros H%prefix_app_inv.
  destruct (prefix_weak_total _ _ _ Hscope H); contradiction.
Qed.

(** The turn for the target itself. *)
Lemma copy_stored (st : state) :
  awaiting W O R name content (disk st) →
  disk (copyBinaryFile cwd util_format (absolute (W ++ R ++ [name]))
          (absolute O) (absolute W) st).2 !! (O ++ R ++ [name])
  = Some (File content).
Proof.
  intros (Hsrc & _ & Hfree & Hentry).
  destruct (store_output cwd O R name content (disk st) (console st)
              O_named target_named Hfree Hentry)
    as (σ' & Hrun & Hfile & _).
  assert (Hall : Forall segment (W ++ R ++ [name]))
    by (apply Forall_app; split; assumption).
  unfold copyBinaryFile, try_catch.
  rewrite output_path by assumption.
  assert (HK : Forall segment (O ++ R ++ [name]))
    by (apply Forall_app; split; assumption).
  specialize (Hrun (λ code, fs.errno2 code (js "copyfile")
                              (absolute (W ++ R ++ [name]))
                              (absolute (O ++ R ++ [name])))).
  destruct st as [σ c0]. cbn [disk console] in *.
  rewrite bind_eq in Hrun |- *.
  pose proof (mkdirSync_file cwd
                (path.dirname (absolute (O ++ R ++ [name])))
                (W ++ R ++ [name]) content (State σ c0) Hsrc) as Hkept.
  destruct (fs.mkdirSync cwd _ (State σ c0)) as [[[]|e] st2];
    [|discriminate].
  cbn [snd] in Hkept. rewrite bind_eq.
  rewrite (copyFileSync_absolute cwd _ _ content)
    by (rewrite ?(key_absolute cwd _ Hall); assumption).
  rewrite Hrun. exact Hfile.
Qed.

Lemma expansion_stored (out : jsstring) (st st1 : state) :
  awaiting W O R name content (disk st) →
  resolveIncludes cwd (absolute (W ++ R ++ [name])) includeRoot maxRecursion
    0 st = (Normal out, st1) →
  disk (processTextFile cwd (absolute (W ++ R ++ [name])) (absolute O)
          includeRoot maxRecursion (absolute W) st).2 !! (O ++ R ++ [name])
  = Some (File out).
Proof.
  intros (Hsrc & _ & Hfree & Hentry) Hexp.
  assert (Hdisk : disk st1 = disk st).
  { rewrite <- (resolveIncludes_disk cwd (absolute (W ++ R ++ [name]))
                  includeRoot maxRecursion 0 st).
    rewrite Hexp. reflexivity. }
  destruct (store_output cwd O R name out (disk st) (console st1)
              O_named target_named Hfree Hentry)
    as (σ' & Hrun & Hfile & _).
  unfold processTextFile, try_catch. rewrite bind_eq, Hexp.
  rewrite output_path by assumption.
  assert (HK : Forall segment (O ++ R ++ [name]))
    by (apply Forall_app; split; assumption).
  specialize (Hrun (λ code, fs.errno code (js "open")
                              (absolute (O ++ R ++ [name])))).
  rewrite <- Hdisk in Hrun. destruct st1 as [σ1 c1]. cbn [disk console] in *.
  rewrite bind_eq in Hrun |- *.
  destruct (fs.mkdirSync cwd _ (State σ1 c1)) as [[[]|e] st2];
    [|discriminate].
  rewrite bind_eq, (writeFileSync_absolute cwd _ _ HK), Hrun. exact Hfile.
Qed.

(** Where the way down to the target goes on from the directory [R0]. *)
Lemma way_on (R0 rest : list jsstring) (x : jsstring) :
  R ++ [name] = R0 ++ x :: rest →
  (rest = [] ∧ R0 = R ∧ x = name)
  ∨ ∃ rest', rest = rest' ++ [name] ∧ R = R0 ++ x :: rest'.
Proof.
  destruct rest as [|y rest' _] using rev_ind; intros Hway.
  - left. apply app_inj_tail in Hway as [-> ->]. auto.
  - right. exists rest'.
    change (R ++ [name] = R0 ++ (x :: rest') ++ [y]) in Hway.
    rewrite app_assoc in Hway. apply app_inj_tail in Hway as [-> ->]. auto.
Qed.

(** The walk of a directory on the way down to the target, with room on
    the stack, leaves at the image of the target what the turn for the
    target left there; that turn found the target still awaiting, on a disk
    the mirror has reached. *)
Lemma walk_reaches (stack : nat) :
  ∀ (R0 rest : list jsstring) (x : jsstring) (st : state),
    R ++ [name] = R0 ++ x :: rest →
    tidy O depth (disk st) →
    awaiting W O R name content (disk st) →
    (depth < stack + length (W ++ R0))%nat →
    ∃ st1,
      mirrored O depth (disk st) (disk st1)
      ∧ awaiting W O R name content (disk st1)
      ∧ disk (processDirectory cwd toLowerCase util_format stack
                (absolute (W ++ R0))
                (absolute O) textExtensions includeRoot maxRecursion
                (absolute W) st).2 !! (O ++ R ++ [name])
        = disk
            ((if isTextFile toLowerCase (absolute (W ++ R ++ [name]))
                  textExtensions
              then processTextFile cwd (absolute (W ++ R ++ [name]))
                     (absolute O) includeRoot maxRecursion (absolute W)
              else copyBinaryFile cwd util_format (absolute (W ++ R ++ [name]))
                     (absolute O) (absolute W)) st1).2
          !! (O ++ R ++ [name]).
Proof.
  induction stack as [|stack IH]; intros R0 rest x st Hway Htidy Hready Hroom.
  { exfalso. destruct Hready as (Hsrc & _).
    destruct (Htidy _ _ Hsrc) as [_ [Hlen|Hbelow]].
    - rewrite Hway in Hlen. rewrite !length_app in *. cbn [length] in *. lia.
    - exact (target_outside Hbelow). }
  assert (HR0 : Forall segment R0 ∧ segment x).
  { pose proof target_named as H. rewrite Hway in H.
    apply Forall_app in H as [H1 H2]. apply Forall_inv in H2. auto. }
  destruct HR0 as [HR0 Hx].
  assert (HWR : Forall segment (W ++ R0))
    by (apply Forall_app; split; assumption).
  assert (Hpre : R0 `prefix_of` R).
  { destruct (way_on R0 rest x Hway) as [(_ & -> & _)|(rest' & _ & ->)];
      [reflexivity|apply prefix_app_r; reflexivity]. }
  pose proof Hready as (Hsrc & Hdirs & _).
  pose proof (Hdirs R0 Hpre) as Hdir.
  cbn [processDirectory]. rewrite bind_eq.
  rewrite readdirSync_found by (rewrite key_absolute by exact HWR; exact Hdir).
  rewrite (key_absolute cwd _ HWR).
  assert (Hx_there : is_Some (disk st !! ((W ++ R0) ++ [x]))).
  { rewrite <- app_assoc.
    destruct (way_on R0 rest x Hway) as [(_ & -> & ->)|(rest' & _ & ->)].
    - eauto.
    - exists Directory. apply Hdirs.
      apply prefix_app, prefix_cons, prefix_nil. }
  pose proof (listed_NoDup (W ++ R0) (disk st)) as Hnodup.
  destruct (list_elem_of_split _ _ (there_listed _ _ _ Hx_there))
    as (before & after & Hsplit).
  pose proof (λ y, listed_there (W ++ R0) (disk st) y) as Hlisted.
  rewrite Hsplit in Hnodup, Hlisted |- *. clear Hsplit.
  apply NoDup_app in Hnodup as (_ & Hbefore & [Hafter _]%NoDup_cons).
  assert (Hothers : ∀ y, y ≠ x →
    ¬ R0 ++ [y] `prefix_of` R ++ [name]
    ∧ ¬ R ++ [name] `prefix_of` R0 ++ [y]).
  { intros y Hy.
    destruct (parted R0 rest x y (R ++ [name]) (R0 ++ [y])) as [H1 H2];
      [congruence|exact Hway|reflexivity|auto]. }
  rewrite for_of_app, bind_eq.
  (* the entries before [x] *)
  destruct (walk_turns cwd toLowerCase util_format W O textExtensions
              includeRoot maxRecursion depth W_named O_named O_depth
              (awaiting W O R name content) stack R0 before st
              (walk cwd toLowerCase util_format W O textExtensions includeRoot
                 maxRecursion depth W_named O_named O_depth
                 (awaiting W O R name content) stack)
              HR0 Htidy) with (st := st) as [[Hmir1 Hready1] Hret1].
  { intros y Hy. rewrite app_assoc. apply Hlisted.
    apply elem_of_app. left. exact Hy. }
  { intros y Hy. apply awaiting_kept; apply Hothers; intros ->;
      apply (Hbefore x Hy); left. }
  { apply mirrored_refl. }
  specialize (Hready1 Hready). specialize (Hret1 Hroom).
  match type of Hret1 with (?run).1 = _ =>
    destruct run as [r st1] eqn:Hrun1 end.
  cbn [fst snd] in *. subst r.
  pose proof Hmir1 as (Hkept1 & _ & Htidy1). specialize (Htidy1 Htidy).
  cbn [for_of]. rewrite bind_eq.
  (* the entry [x] *)
  match goal with
  | |- context [processEntry ?a ?b ?c ?d ?e ?f ?g ?h ?i ?j x st1] =>
      set (turn := processEntry a b c d e f g h i j x st1)
  end.
  assert (Hturn :
    mirrored O depth (disk st1) (disk turn.2)
    ∧ ∃ st',
        mirrored O depth (disk st1) (disk st')
        ∧ awaiting W O R name content (disk st')
        ∧ disk turn.2 !! (O ++ R ++ [name])
          = disk
              ((if isTextFile toLowerCase (absolute (W ++ R ++ [name]))
                    textExtensions
                then processTextFile cwd (absolute (W ++ R ++ [name]))
                       (absolute O) includeRoot maxRecursion (absolute W)
                else copyBinaryFile cwd util_format
                       (absolute (W ++ R ++ [name]))
                       (absolute O) (absolute W)) st').2
            !! (O ++ R ++ [name])).
  { split.
    - subst turn.
      apply (walk_entry cwd toLowerCase util_format W O textExtensions
               includeRoot
               maxRecursion depth W_named O_named O_depth (λ _, True)
               stack R0 x st1).
      + apply walk; assumption.
      + exact HR0.
      + exact Htidy1.
      + rewrite app_assoc. destruct Hx_there as [n Hn].
        specialize (Hkept1 _ _ Hn).
        destruct n as [c|]; [destruct Hkept1 as [c' Hkept1]|]; eauto.
      + intros ? ? ? ? _ _ _ _ _. exact I.
    - subst turn. unfold processEntry.
      rewrite join_absolute_name by assumption.
      assert (Hskip : inOutputDir cwd (absolute ((W ++ R0) ++ [x]))
                        (absolute O) = false).
      { apply (inOutputDir_above cwd _ rest); [|exact O_named|].
        - rewrite <- !app_assoc. cbn [app]. rewrite <- Hway.
          apply Forall_app. split; assumption.
        - rewrite <- !app_assoc. cbn [app]. rewrite <- Hway.
          exact not_skipped. }
      rewrite Hskip, bind_eq.
      assert (HWx : Forall segment ((W ++ R0) ++ [x])).
      { apply Forall_app. split; [exact HWR|]. repeat constructor.
        exact Hx. }
      pose proof Hready1 as (Hsrc1 & Hdirs1 & Hfree1 & Hentry1).
      destruct (way_on R0 rest x Hway)
        as [(-> & -> & ->)|(rest' & -> & HR)].
      + rewrite (lstatSync_found cwd _ (File content))
          by (rewrite key_absolute, <- app_assoc by exact HWx; exact Hsrc1).
        cbn [fs.isDirectory]. rewrite <- app_assoc.
        exists st1. split; [apply mirrored_refl|]. split; [exact Hready1|].
        destruct (isTextFile toLowerCase _ textExtensions); reflexivity.
      + assert (Hsub : disk st1 !! ((W ++ R0) ++ [x]) = Some Directory).
        { rewrite <- app_assoc. apply Hdirs1. rewrite HR.
          apply prefix_app, prefix_cons, prefix_nil. }
        rewrite (lstatSync_found cwd _ Directory)
          by (rewrite key_absolute by exact HWx; exact Hsub).
        cbn [fs.isDirectory]. rewrite <- app_assoc.
        destruct rest' as [|x2 rest2].
        * apply (IH (R0 ++ [x]) [] name st1).
          -- rewrite Hway, <- app_assoc. reflexivity.
          -- exact Htidy1.
          -- exact Hready1.
          -- rewrite !length_app in *. cbn [length] in *. lia.
        * apply (IH (R0 ++ [x]) (rest2 ++ [name]) x2 st1).
          -- rewrite Hway, <- app_assoc. reflexivity.
          -- exact Htidy1.
          -- exact Hready1.
          -- rewrite !length_app in *. cbn [length] in *. lia. }
  destruct Hturn as (Hmir2 & st' & Hmir' & Hready' & Himage).
  exists st'. split; [eapply mirrored_trans; eassumption|].
  split; [exact Hready'|]. rewrite <- Himage. clear Himage.
  destruct turn as [[[]|e] st2]; cbn [fst snd] in *; [|reflexivity].
  (* the entries after [x] *)
  destruct (walk_turns cwd toLowerCase util_format W O textExtensions
              includeRoot maxRecursion depth W_named O_named O_depth
              (λ σ, σ !! (O ++ R ++ [name])
                    = disk st2 !! (O ++ R ++ [name]))
              stack R0 after st
              (walk cwd toLowerCase util_format W O textExtensions includeRoot
                 maxRecursion depth W_named O_named O_depth
                 (λ σ, σ !! (O ++ R ++ [name])
                       = disk st2 !! (O ++ R ++ [name])) stack)
              HR0 Htidy) with (st := st2) as [[_ Himage2] _].
  { intros y Hy. rewrite app_assoc. apply Hlisted.
    apply elem_of_app. right. right. exact Hy. }
  { intros y Hy. apply image_kept; apply Hothers; intros ->;
      apply Hafter, Hy. }
  { eapply mirrored_trans; eassumption. }
  apply Himage2. reflexivity.
Qed.

End Reach.

(** X28. The walk leaves no binary file out. On a disk whose entries are
    reached through names, with room on the stack for one call more than
    the levels of the deepest entry and of the output root: a regular file
    anywhere below the watched root, reached through directories, that the
    output-root test lets through and whose extension is not in the set,
    has after the walk a copy with exactly its content at the same relative
    path below the output root, provided that, when the walk starts, no
    regular file lies on the way down to that path and the path is no
    directory. Whatever else the walk meets, before or after, whether other
    files fail and whether the call returns or throws, does not undo it. *)
Theorem X28_walk_copies_every_binary_file (cwd : jsstring)
    (toLowerCase : jsstring → jsstring)
    (util_format : jsstring → jsstring → jsstring) (W O R : list jsstring)
    (name content : jsstring) (textExtensions : gset jsstring)
    (includeRoot : jsstring) (maxRecursion : Z) (depth stack : nat)
    (st : state) :
  Forall segment W → Forall segment O →
  well_named (disk st) →
  depth_within depth (disk st) → (length O ≤ depth)%nat →
  (depth < stack)%nat →
  disk st !! (W ++ R ++ [name]) = Some (File content) →
  (∀ R', R' `prefix_of` R → disk st !! (W ++ R') = Some Directory) →
  inOutputDir cwd (absolute (W ++ R ++ [name])) (absolute O) = false →
  isTextFile toLowerCase (absolute (W ++ R ++ [name])) textExtensions
  = false →
  way_free (disk st) (O ++ R) →
  disk st !! (O ++ R ++ [name]) ≠ Some Directory →
  disk (processDirectory cwd toLowerCase util_format stack (absolute W)
          (absolute O)
          textExtensions includeRoot maxRecursion (absolute W) st).2
    !! (O ++ R ++ [name])
  = Some (File content).
Proof.
  intros HW HO Hnamed Hdepth HOd Hstack Hsrc Hdirs Hskip Hbinary Hfree
    Hentry.
  assert (HR : Forall segment (R ++ [name])).
  { pose proof (Hnamed _ _ Hsrc) as H. apply Forall_app in H. tauto. }
  destruct (R ++ [name]) as [|x rest] eqn:Hway.
  { destruct R; discriminate. }
  rewrite <- Hway in *.
  destruct (walk_reaches cwd toLowerCase util_format W O textExtensions
              includeRoot maxRecursion depth HW HO HOd R name content HR Hskip
              stack [] rest x st Hway) as (st1 & _ & Hready & Himage).
  - apply tidy_intro; assumption.
  - repeat split; assumption.
  - lia.
  - rewrite app_nil_r, Hbinary in Himage. rewrite Himage.
    apply copy_stored; assumption.
Qed.

Lemma X28_walk_copies_every_binary_file_witness :
  disk (processDirectory Pages.cwd id Scenario.util_format 4 (js "/w")
    (js "/w/dist")
          {[ js ".txt" ]} (js "/w") 10 (js "/w") Pages.site).2
    !! [js "w"; js "dist"; js "sub"; js "copy.html"]
  = Some (File (js "##include <b.html>")).
Proof.
  apply (X28_walk_copies_every_binary_file Pages.cwd id Scenario.util_format
           [js "w"] [js "w"; js "dist"] [js "sub"] (js "copy.html")
           (js "##include <b.html>") {[ js ".txt" ]} (js "/w") 10 3 4
           Pages.site).
  - repeat constructor.
  - repeat constructor.
  - apply (bool_decide_eq_true_1 _). vm_compute. reflexivity.
  - apply (bool_decide_eq_true_1 _). vm_compute. reflexivity.
  - cbn. lia.
  - lia.
  - vm_compute. reflexivity.
  - intros R' HR'.
    destruct (prefix_snoc_cases R' [] (js "sub") HR')
      as [->%prefix_nil_inv| ->]; vm_compute; reflexivity.
  - vm_compute. reflexivity.
  - vm_compute. reflexivity.
  - apply way_free_tested. vm_compute. reflexivity.
  - vm_compute. discriminate.
Defined.

(** X29. The walk leaves no text file out. Under the conditions of X28,
    for a regular file whose extension is in the set: its turn comes, on a
    disk where nothing was removed and nothing outside the output tree was
    changed since the walk started; when the expansion of the file on that
    disk returns a text, the same relative path below the output root
    holds exactly that text after the walk; when it throws, that path is
    after the walk as the turn found it. Whatever the walk meets later does
    not undo it. *)
Theorem X29_walk_expands_every_text_file (cwd : jsstring)
    (toLowerCase : jsstring → jsstring)
    (util_format : jsstring → jsstring → jsstring) (W O R : list jsstring)
    (name content : jsstring) (textExtensions : gset jsstring)
    (includeRoot : jsstring) (maxRecursion : Z) (depth stack : nat)
    (st : state) :
  Forall segment W → Forall segment O →
  well_named (disk st) →
  depth_within depth (disk st) → (length O ≤ depth)%nat →
  (depth < stack)%nat →
  disk st !! (W ++ R ++ [name]) = Some (File content) →
  (∀ R', R' `prefix_of` R → disk st !! (W ++ R') = Some Directory) →
  inOutputDir cwd (absolute (W ++ R ++ [name])) (absolute O) = false →
  isTextFile toLowerCase (absolute (W ++ R ++ [name])) textExtensions
  = true →
  way_free (disk st) (O ++ R) →
  disk st !! (O ++ R ++ [name]) ≠ Some Directory →
  ∃ st1,
    kinds_kept (disk st) (disk st1)
    ∧ (∀ a, ¬ a `prefix_of` O → ¬ O `prefix_of` a →
            disk st1 !! a = disk st !! a)
    ∧ match
        resolveIncludes cwd (absolute (W ++ R ++ [name])) includeRoot
          maxRecursion 0 st1
      with
      | (Normal out, _) =>
          disk (processDirectory cwd toLowerCase util_format stack (absolute W)
                  (absolute O) textExtensions includeRoot maxRecursion
                  (absolute W) st).2 !! (O ++ R ++ [name])
          = Some (File out)
      | (Throw _, _) =>
          disk (processDirectory cwd toLowerCase util_format stack (absolute W)
                  (absolute O) textExtensions includeRoot maxRecursion
                  (absolute W) st).2 !! (O ++ R ++ [name])
          = disk st1 !! (O ++ R ++ [name])
      end.
Proof.
  intros HW HO Hnamed Hdepth HOd Hstack Hsrc Hdirs Hskip Htext Hfree Hentry.
  assert (HR : Forall segment (R ++ [name])).
  { pose proof (Hnamed _ _ Hsrc) as H. apply Forall_app in H. tauto. }
  destruct (R ++ [name]) as [|x rest] eqn:Hway.
  { destruct R; discriminate. }
  rewrite <- Hway in *.
  destruct (walk_reaches cwd toLowerCase util_format W O textExtensions
              includeRoot maxRecursion depth HW HO HOd R name content HR Hskip
              stack [] rest x st Hway)
    as (st1 & (Hkept & Hout & _) & Hready & Himage).
  - apply tidy_intro; assumption.
  - repeat split; assumption.
  - lia.
  - exists st1. split; [exact Hkept|]. split; [exact Hout|].
    rewrite app_nil_r, Htext in Himage. rewrite Himage.
    destruct (resolveIncludes cwd (absolute (W ++ R ++ [name])) includeRoot
                maxRecursion 0 st1) as [[out|e] st1'] eqn:Hexp.
    + eapply expansion_stored; eassumption.
    + rewrite (processTextFile_failed cwd _ _ _ _ _ e st1 st1' Hexp).
      reflexivity.
Qed.

Lemma X29_walk_expands_every_text_file_witness :
  ∃ st1,
    kinds_kept (disk Pages.site) (disk st1)
    ∧ (∀ a, ¬ a `prefix_of` [js "w"; js "dist"] →
            ¬ [js "w"; js "dist"] `prefix_of` a →
            disk st1 !! a = disk Pages.site !! a)
    ∧ match
        resolveIncludes Pages.cwd (absolute [js "w"; js "sub"; js "copy.html"])
          (js "/w") 10 0 st1
      with
      | (Normal out, _) =>
          disk (processDirectory Pages.cwd id Scenario.util_format 4
                  (absolute [js "w"])
                  (absolute [js "w"; js "dist"]) {[ js ".html" ]} (js "/w")
                  10 (absolute [js "w"]) Pages.site).2
            !! [js "w"; js "dist"; js "sub"; js "copy.html"]
          = Some (File out)
      | (Throw _, _) =>
          disk (processDirectory Pages.cwd id Scenario.util_format 4
                  (absolute [js "w"])
                  (absolute [js "w"; js "dist"]) {[ js ".html" ]} (js "/w")
                  10 (absolute [js "w"]) Pages.site).2
            !! [js "w"; js "dist"; js "sub"; js "copy.html"]
          = disk st1 !! [js "w"; js "dist"; js "sub"; js "copy.html"]
      end.
Proof.
  apply (X29_walk_expands_every_text_file Pages.cwd id Scenario.util_format
           [js "w"] [js "w"; js "dist"] [js "sub"] (js "copy.html")
           (js "##include <b.html>") {[ js ".html" ]} (js "/w") 10 3 4
           Pages.site).
  - repeat constructor.
  - repeat constructor.
  - apply (bool_decide_eq_true_1 _). vm_compute. reflexivity.
  - apply (bool_decide_eq_true_1 _). vm_compute. reflexivity.
  - cbn. lia.
  - lia.
  - vm_compute. reflexivity.
  - intros R' HR'.
    destruct (prefix_snoc_cases R' [] (js "sub") HR')
      as [->%prefix_nil_inv| ->]; vm_compute; reflexivity.
  - vm_compute. reflexivity.
  - vm_compute. reflexivity.
  - apply way_free_tested. vm_compute. reflexivity.
  - vm_compute. discriminate.
Defined.
